(** * Minecraft Overviewer: the phase-synchronised dispatcher

    A shallow embedding of [overviewer_core/dispatcher.py]:

    - [Dispatcher.render_all], the phase loop, written once over the four
      hooks [setup_tilesets], [dispatch], [finish_work] and [close];
    - [MultiprocessingDispatcherManager], the shared tileset list and its
      version;
    - [MultiprocessingDispatcherProcess.run], the worker loop, as a step
      function of one worker process;
    - [MultiprocessingDispatcher], the pooled dispatcher with its job and
      result queues and its counter of outstanding jobs.

    The dispatcher is one sequential program; the workers run concurrently
    with it.  Every access of the dispatcher to an object it shares with the
    workers is preceded by a scheduling point at which an oracle says which
    workers take a step, so a statement over all oracles is a statement over
    all interleavings. *)

From stdpp Require Import base tactics option list numbers.
From Stdlib Require Import ZArith Lia.

Local Open Scope Z_scope.
Set Default Proof Using "Type*".

(** ** Python exceptions raised by the code *)

Inductive exn : Type :=
  | ValueError       (* max() of an empty sequence; list.index of an absent value *)
  | AttributeError   (* attribute access on None *)
  | TypeError        (* iteration over None *)
  | AssertionError   (* a failed assert statement *)
  | IndexError       (* list index out of range *)
  | WorkError.       (* an exception escaping tileset.do_work *)

(** ** The capabilities of a tileset

    The dispatcher never looks inside a tileset or a work item: it calls
    [get_num_phases], [iterate_work_items] and [do_work], and it compares
    tilesets with [==] in [list.index]. [do_work] returns [None] when the
    call raises. *)

Class TileSetOps (TileSet WorkItem Result : Type) := {
  tileset_eq_dec :: EqDecision TileSet;
  get_num_phases : TileSet → Z;
  iterate_work_items : TileSet → nat → list WorkItem;
  do_work : TileSet → WorkItem → option Result;
}.

(** ** util.roundrobin *)

(** Modelled from the spec: [util.roundrobin], called by [render_all]; the
    module [util] is not among the sources.  The spec (4.2) has the merger
    advance the sequences in fixed rotation order, the rotation order being
    the input order, and remove a sequence once it signals exhaustion, until
    all are exhausted.  [pending] is the rotation: its head is the sequence
    to advance next; a sequence that yields an element goes to the back of
    the rotation, an exhausted one leaves it.  Every step removes one element
    or one sequence, which bounds the number of steps. *)
Fixpoint roundrobin_steps {A : Type} (fuel : nat) (pending : list (list A)) : list A :=
  match fuel with
  | O => []
  | S fuel' =>
      match pending with
      | [] => []
      | [] :: rest => roundrobin_steps fuel' rest
      | (x :: it) :: rest => x :: roundrobin_steps fuel' (rest ++ [it])
      end
  end.

Definition roundrobin_size {A : Type} (pending : list (list A)) : nat :=
  (length pending + length (concat pending))%nat.

Definition roundrobin {A : Type} (iterables : list (list A)) : list A :=
  roundrobin_steps (roundrobin_size iterables) iterables.

(** One full rotation: the first element of every sequence that still has
    one, in input order, and what is left of these sequences. *)
Definition heads {A : Type} (ls : list (list A)) : list A :=
  flat_map (λ l, match l with [] => [] | x :: _ => [x] end) ls.

Definition tails {A : Type} (ls : list (list A)) : list (list A) :=
  flat_map (λ l, match l with [] => [] | _ :: it => [it] end) ls.

(** ** Outcomes and the monad of the dispatcher's methods

    A method run on a state returns normally, raises, or is cut: the oracle
    of scheduling decisions was used up at a scheduling point, and the state
    is the one reached there.  A cut run is a prefix of a longer one. *)

Inductive outcome (Σ A : Type) : Type :=
  | Ret (a : A) (σ : Σ)
  | Raise (e : exn) (σ : Σ)
  | Cut (σ : Σ).
Arguments Ret {Σ A} a σ.
Arguments Raise {Σ A} e σ.
Arguments Cut {Σ A} σ.

Definition final {Σ A : Type} (o : outcome Σ A) : Σ :=
  match o with Ret _ σ | Raise _ σ | Cut σ => σ end.

Definition M (Σ A : Type) : Type := Σ → outcome Σ A.

Definition ret {Σ A : Type} (a : A) : M Σ A := λ σ, Ret a σ.
Definition raise {Σ A : Type} (e : exn) : M Σ A := λ σ, Raise e σ.
Definition bind {Σ A B : Type} (m : M Σ A) (k : A → M Σ B) : M Σ B :=
  λ σ, match m σ with
       | Ret a σ' => k a σ'
       | Raise e σ' => Raise e σ'
       | Cut σ' => Cut σ'
       end.
Definition modify {Σ : Type} (f : Σ → Σ) : M Σ unit := λ σ, Ret () (f σ).
Definition gets {Σ A : Type} (f : Σ → A) : M Σ A := λ σ, Ret (f σ) σ.

Declare Scope disp_scope.
Delimit Scope disp_scope with disp.
Notation "x <- m ;; k" := (bind m (λ x, k))
  (at level 100, m at next level, right associativity) : disp_scope.
Notation "m ;; k" := (bind m (λ _, k))
  (at level 100, right associativity) : disp_scope.
Local Open Scope disp_scope.

(** [for x in l: body(x)] *)
Fixpoint for_each {Σ A : Type} (l : list A) (body : A → M Σ unit) : M Σ unit :=
  match l with
  | [] => ret ()
  | x :: l' => body x ;; for_each l' body
  end.

(** [max(l)]: a [ValueError] on the empty list *)
Definition py_max {Σ : Type} (l : list Z) : M Σ Z :=
  match l with
  | [] => raise ValueError
  | x :: l' => ret (foldl Z.max x l')
  end.

(** [xrange(n)] *)
Definition xrange (n : Z) : list nat := seq 0 (Z.to_nat n).

(** ** Jobs, events and the objects shared between the processes *)

Section Shared.
Context {TileSet WorkItem Result : Type}.

(** A job is the tuple [(tileset_version, tileset_index, workitem)] put on
    the job queue by [dispatch]; the queue also carries the end-of-jobs
    sentinel [None]. *)
Definition Job : Type := Z * nat * WorkItem.

(** What a run leaves in its history. [EvDispatch] and [EvResult] are the
    two updates of the counter of outstanding jobs; [EvPreprocess] is the
    call of [do_preprocessing]; [EvPhase] marks the start of an iteration
    of the phase loop of [render_all]. The history is specification state:
    no code reads it. *)
Inductive event : Type :=
  | EvPreprocess (tileset : TileSet)
  | EvPhase (phase : nat)
  | EvDispatch (job : Job)
  | EvResult (result : Result).

(** The objects every process reaches through the manager: the list proxy
    [tileset_data = [tilesets, tileset_version]] and the two queues. *)
Record Store : Type := {
  tileset_data : list TileSet * Z;
  job_queue : list (option Job);
  result_queue : list Result;
}.

Definition set_tileset_data (f : list TileSet * Z → list TileSet * Z) (s : Store) : Store :=
  {| tileset_data := f (tileset_data s);
     job_queue := job_queue s;
     result_queue := result_queue s |}.

Definition set_job_queue (f : list (option Job) → list (option Job)) (s : Store) : Store :=
  {| tileset_data := tileset_data s;
     job_queue := f (job_queue s);
     result_queue := result_queue s |}.

Definition set_result_queue (f : list Result → list Result) (s : Store) : Store :=
  {| tileset_data := tileset_data s;
     job_queue := job_queue s;
     result_queue := f (result_queue s) |}.

(** [MultiprocessingDispatcherManager.get_tilesets]: one call on the proxy,
    [_getvalue()], which returns a copy of the whole list. *)
Definition get_tilesets (s : Store) : list TileSet * Z := tileset_data s.
End Shared.
Arguments event : clear implicits.
Arguments Store : clear implicits.

(** ** MultiprocessingDispatcherProcess: one worker *)

Module MultiprocessingDispatcherProcess.
Section Process.
Context {TileSet WorkItem Result : Type} `{!TileSetOps TileSet WorkItem Result}.

(** Where the worker stands in [run]. *)
Inductive pc : Type :=
  | Starting                          (* before line 154 *)
  | Polling                           (* at [job_queue.get], line 157 *)
  | Unpacked (job : @Job WorkItem)    (* a job was pulled and unpacked, line 163 *)
  | Working (job : @Job WorkItem)     (* the version was reconciled, line 171 *)
  | Returned                          (* [return] on the sentinel, line 160 *)
  | Died (e : exn).                   (* an exception left [run] *)

(** The attributes [tilesets] and [tileset_version] do not exist before
    the first [update_tilesets]; the values they have at [Starting] are
    never read. *)
Record t : Type := {
  tilesets : list TileSet;
  tileset_version : Z;
  at_pc : pc;
}.

Definition goto (l : pc) (p : t) : t :=
  {| tilesets := tilesets p; tileset_version := tileset_version p; at_pc := l |}.

(** [self.tilesets, self.tileset_version = self.manager.get_tilesets()] *)
Definition update_tilesets (s : Store TileSet WorkItem Result) (p : t) : t :=
  let '(ts, v) := get_tilesets s in
  {| tilesets := ts; tileset_version := v; at_pc := at_pc p |}.

(** One step of [run]. Each step makes at most one access to a shared
    object. A worker that returned or died takes no further step. *)
Definition run (p : t) (s : Store TileSet WorkItem Result)
  : t * Store TileSet WorkItem Result :=
  match at_pc p with
  | Starting => (goto Polling (update_tilesets s p), s)
  | Polling =>
      match job_queue s with
      | [] => (p, s)                               (* Queue.Empty: pass *)
      | None :: q => (goto Returned p, set_job_queue (λ _, q) s)
      | Some job :: q => (goto (Unpacked job) p, set_job_queue (λ _, q) s)
      end
  | Unpacked (tv, ti, workitem) =>
      if decide (tv ≠ tileset_version p) then
        let p' := update_tilesets s p in
        if decide (tv = tileset_version p')
        then (goto (Working (tv, ti, workitem)) p', s)
        else (goto (Died AssertionError) p', s)
      else (goto (Working (tv, ti, workitem)) p, s)
  | Working (tv, ti, workitem) =>
      match tilesets p !! ti with
      | None => (goto (Died IndexError) p, s)
      | Some tileset =>
          match do_work tileset workitem with
          | None => (goto (Died WorkError) p, s)
          | Some result => (goto Polling p, set_result_queue (λ q, q ++ [result]) s)
          end
      end
  | Returned => (p, s)
  | Died _ => (p, s)
  end.

(** The worker holds a job that it has neither finished nor lost. *)
Definition busy (p : t) : bool :=
  match at_pc p with Unpacked _ | Working _ => true | _ => false end.
End Process.
Arguments t : clear implicits.
Arguments pc : clear implicits.
End MultiprocessingDispatcherProcess.

(** ** The dispatcher process, the manager and the pool of workers *)

Section World.
Context {TileSet WorkItem Result : Type} `{!TileSetOps TileSet WorkItem Result}.

(** The attributes of the manager object that live in the dispatcher's
    process (lines 102 and 103). *)
Record Manager : Type := {
  tilesets : list TileSet;
  tileset_version : Z;
}.

(** The state of a run. [local_procs], [outstanding_jobs], [manager] and
    [pool] are the attributes of the dispatcher; [pool] holds the indices
    of its workers in [procs], the processes themselves, which outlive the
    reference to them. [oracle] is the environment: for each coming
    scheduling point, the workers that take a step there. [trace] is the
    history. *)
Record World : Type := {
  local_procs : Z;
  outstanding_jobs : Z;
  manager : option Manager;
  pool : option (list nat);
  store : Store TileSet WorkItem Result;
  procs : list (MultiprocessingDispatcherProcess.t TileSet WorkItem);
  oracle : list (list nat);
  trace : list (event TileSet WorkItem Result);
}.

Definition set_outstanding_jobs (f : Z → Z) (w : World) : World :=
  {| local_procs := local_procs w; outstanding_jobs := f (outstanding_jobs w);
     manager := manager w; pool := pool w; store := store w; procs := procs w;
     oracle := oracle w; trace := trace w |}.

Definition set_manager (m : option Manager) (w : World) : World :=
  {| local_procs := local_procs w; outstanding_jobs := outstanding_jobs w;
     manager := m; pool := pool w; store := store w; procs := procs w;
     oracle := oracle w; trace := trace w |}.

Definition set_pool (p : option (list nat)) (w : World) : World :=
  {| local_procs := local_procs w; outstanding_jobs := outstanding_jobs w;
     manager := manager w; pool := p; store := store w; procs := procs w;
     oracle := oracle w; trace := trace w |}.

Definition set_store (f : Store TileSet WorkItem Result → Store TileSet WorkItem Result)
    (w : World) : World :=
  {| local_procs := local_procs w; outstanding_jobs := outstanding_jobs w;
     manager := manager w; pool := pool w; store := f (store w); procs := procs w;
     oracle := oracle w; trace := trace w |}.

Definition set_oracle (o : list (list nat)) (w : World) : World :=
  {| local_procs := local_procs w; outstanding_jobs := outstanding_jobs w;
     manager := manager w; pool := pool w; store := store w; procs := procs w;
     oracle := o; trace := trace w |}.

Definition record (e : event TileSet WorkItem Result) (w : World) : World :=
  {| local_procs := local_procs w; outstanding_jobs := outstanding_jobs w;
     manager := manager w; pool := pool w; store := store w; procs := procs w;
     oracle := oracle w; trace := trace w ++ [e] |}.

(** Worker [i] takes one step of its [run]. *)
Definition step_proc (w : World) (i : nat) : World :=
  match procs w !! i with
  | None => w
  | Some p =>
      let '(p', s') := MultiprocessingDispatcherProcess.run p (store w) in
      {| local_procs := local_procs w; outstanding_jobs := outstanding_jobs w;
         manager := manager w; pool := pool w; store := s'; procs := <[i := p']> (procs w);
         oracle := oracle w; trace := trace w |}
  end.

Definition run_procs (sched : list nat) (w : World) : World :=
  foldl step_proc w sched.

(** A scheduling point: the workers named by the head of the oracle run. *)
Definition yield : M World unit :=
  λ w, match oracle w with
       | [] => Cut w
       | sched :: o => Ret () (run_procs sched (set_oracle o w))
       end.

(** [self.manager.x]: an [AttributeError] once [close] has set
    [self.manager = None]. *)
Definition get_manager : M World Manager :=
  λ w, match manager w with
       | Some m => Ret m w
       | None => Raise AttributeError w
       end.

(** [MultiprocessingDispatcherManager.set_tilesets], lines 113 to 116: two
    assignments to attributes of the manager object, then two separate
    calls on the list proxy, each an access to the shared list. *)
Definition set_tilesets (new : list TileSet) : M World unit :=
  m <- get_manager ;;
  let v := tileset_version m + 1 in
  modify (set_manager (Some {| tilesets := new; tileset_version := v |})) ;;
  yield ;;
  modify (set_store (set_tileset_data (λ d, (new, d.2)))) ;;
  yield ;;
  modify (set_store (set_tileset_data (λ d, (d.1, v)))).

(** [queue.put(x)] *)
Definition put_job (j : option (@Job WorkItem)) : M World unit :=
  yield ;;
  modify (set_store (set_job_queue (λ q, q ++ [j]))).

(** [l.index(x)]: the first position holding a value equal to [x], a
    [ValueError] when there is none. *)
Definition index (x : TileSet) (l : list TileSet) : M World nat :=
  match list_find (λ y, y = x) l with
  | Some (i, _) => ret i
  | None => raise ValueError
  end.

(** ** Dispatcher: the hooks and [render_all] *)

(** The four methods a subclass implements. [note] only extends the
    history of the state [Σ]. *)
Record Dispatcher (Σ : Type) : Type := {
  setup_tilesets : list TileSet → M Σ unit;
  dispatch : TileSet → WorkItem → M Σ unit;
  finish_work : M Σ unit;
  close : M Σ unit;
  note : event TileSet WorkItem Result → M Σ unit;
}.
Arguments setup_tilesets {Σ}.
Arguments dispatch {Σ}.
Arguments finish_work {Σ}.
Arguments close {Σ}.
Arguments note {Σ}.

(** Lines 46 to 51: one iterator of [(tileset, workitem)] pairs for every
    tileset that has the phase. *)
Definition work_iterators (tilesetlist : list TileSet) (num_phases : list Z) (phase : nat)
  : list (list (TileSet * WorkItem)) :=
  omap (λ '(tileset, n),
          if decide (Z.of_nat phase < n)
          then Some (map (pair tileset) (iterate_work_items tileset phase))
          else None)
       (zip tilesetlist num_phases).

(** [Dispatcher.render_all], lines 36 to 58. *)
Definition render_all {Σ : Type} (self : Dispatcher Σ) (tilesetlist : list TileSet)
  : M Σ unit :=
  setup_tilesets self tilesetlist ;;
  for_each tilesetlist (λ tileset, note self (EvPreprocess tileset)) ;;
  let num_phases := map get_num_phases tilesetlist in
  n <- py_max num_phases ;;
  for_each (xrange n) (λ phase,
    note self (EvPhase phase) ;;
    for_each (roundrobin (work_iterators tilesetlist num_phases phase))
             (λ '(tileset, workitem), dispatch self tileset workitem) ;;
    finish_work self).

(** The methods of the class [Dispatcher] itself: one process, every work
    item done on the spot. Its state is the history alone. *)
Definition Dispatcher_base : Dispatcher (list (event TileSet WorkItem Result)) :=
  {| setup_tilesets := λ _, ret ();
     dispatch := λ tileset workitem,
       match do_work tileset workitem with
       | Some _ => ret ()
       | None => raise WorkError
       end;
     finish_work := ret ();
     close := ret ();
     note := λ e, modify (λ h, h ++ [e]) |}.
End World.
Arguments Manager : clear implicits.
Arguments World : clear implicits.
Arguments Dispatcher : clear implicits.
Arguments setup_tilesets {_ _ _ _}.
Arguments dispatch {_ _ _ _}.
Arguments finish_work {_ _ _ _}.
Arguments close {_ _ _ _}.
Arguments note {_ _ _ _}.

(** ** MultiprocessingDispatcher *)

Module MultiprocessingDispatcher.
Section Pooled.
Context {TileSet WorkItem Result : Type} `{!TileSetOps TileSet WorkItem Result}.
Local Abbreviation World := (World TileSet WorkItem Result).

(** [__init__], lines 187 to 201. [local_procs0] is the argument
    [local_procs], [cpu_count] is what
    [multiprocessing.cpu_count()] returns. The manager starts with an empty
    tileset list at version 0, and every worker is started. *)
Definition init (local_procs0 cpu_count : Z) : World :=
  let n := if decide (local_procs0 ≤ 0) then cpu_count else local_procs0 in
  {| local_procs := n;
     outstanding_jobs := 0;
     manager := Some {| tilesets := []; tileset_version := 0 |};
     pool := Some (seq 0 (Z.to_nat n));
     store := {| tileset_data := ([], 0); job_queue := []; result_queue := [] |};
     procs := replicate (Z.to_nat n)
                {| MultiprocessingDispatcherProcess.tilesets := [];
                   MultiprocessingDispatcherProcess.tileset_version := 0;
                   MultiprocessingDispatcherProcess.at_pc :=
                     MultiprocessingDispatcherProcess.Starting |};
     oracle := [];
     trace := [] |}.

(** [close], lines 205 to 211. What [manager.shutdown()] does to the
    manager process is not modelled: the queues stay, and a worker can still
    pull the sentinel that was put for it. *)
Definition close : M World unit :=
  p <- (λ w, match pool w with
             | Some p => Ret p w
             | None => Raise TypeError w       (* for p in None *)
             end) ;;
  for_each p (λ _, put_job None) ;;
  _ <- get_manager ;;                          (* self.manager.shutdown() *)
  modify (set_manager None) ;;
  modify (set_pool None).

(** [setup_tilesets], line 214. *)
Definition setup_tilesets (tilesets : list TileSet) : M World unit :=
  set_tilesets tilesets.

(** The loop of [_handle_messages], lines 236 to 243: every
    [result_queue.get] is a scheduling point; a result that is there is
    taken and counted, an empty queue ends the loop through [Queue.Empty].
    The recursion is on the oracle. *)
Fixpoint handle_messages_loop (o : list (list nat)) (w : World) : outcome World unit :=
  match o with
  | [] => Cut w
  | sched :: o' =>
      let w1 := run_procs sched (set_oracle o' w) in
      match result_queue (store w1) with
      | [] => Ret () w1
      | result :: q =>
          handle_messages_loop o'
            (record (EvResult result)
               (set_outstanding_jobs (λ n, n - 1)
                  (set_store (set_result_queue (λ _, q)) w1)))
      end
  end.

Definition _handle_messages : M World unit :=
  λ w, handle_messages_loop (oracle w) w.

(** [while cond: self._handle_messages()]. A call of [_handle_messages]
    that is not cut uses up at least one entry of the oracle, so more
    iterations than the oracle is long are never needed. *)
Fixpoint while_fuel (fuel : nat) (cond : World → bool) : M World unit :=
  λ w, if cond w then
         match fuel with
         | O => Cut w
         | S fuel' => (_handle_messages ;; while_fuel fuel' cond) w
         end
       else Ret () w.

Definition while (cond : World → bool) : M World unit :=
  λ w, while_fuel (S (length (oracle w))) cond w.

(** [dispatch], lines 218 to 224. *)
Definition dispatch (tileset : TileSet) (workitem : WorkItem) : M World unit :=
  m <- get_manager ;;
  tileset_index <- index tileset (tilesets m) ;;
  let job := (tileset_version m, tileset_index, workitem) in
  put_job (Some job) ;;
  modify (set_outstanding_jobs (λ n, n + 1)) ;;
  modify (record (EvDispatch job)) ;;
  while (λ w, bool_decide (outstanding_jobs w > local_procs w * 10)).

(** [finish_work], lines 228 and 229. *)
Definition finish_work : M World unit :=
  while (λ w, bool_decide (outstanding_jobs w > 0)).

(** The object [self] of a [MultiprocessingDispatcher]. *)
Definition self : Dispatcher TileSet WorkItem Result World :=
  @Build_Dispatcher TileSet WorkItem Result World
    setup_tilesets dispatch finish_work close (λ e, modify (record e)).
End Pooled.
End MultiprocessingDispatcher.

(** ** Counting in lists *)

Definition bit (b : bool) : nat := if b then 1%nat else 0%nat.

Fixpoint count {A : Type} (f : A → bool) (l : list A) : nat :=
  match l with
  | [] => 0%nat
  | x :: l' => (bit (f x) + count f l')%nat
  end.

(** ** Runs of a pooled dispatcher, and what is said about them *)

Section Runs.
Context {TileSet WorkItem Result : Type} `{!TileSetOps TileSet WorkItem Result}.
Local Abbreviation World := (World TileSet WorkItem Result).
Local Abbreviation Process := (MultiprocessingDispatcherProcess.t TileSet WorkItem).
Local Abbreviation event := (event TileSet WorkItem Result).

(** The calls a user makes on the dispatcher, one after the other. *)
Inductive call : Type :=
  | CallRenderAll (tilesetlist : list TileSet)
  | CallSetupTilesets (tilesetlist : list TileSet)
  | CallDispatch (tileset : TileSet) (workitem : WorkItem)
  | CallFinishWork
  | CallClose.

Definition exec (c : call) : M World unit :=
  match c with
  | CallRenderAll l => render_all MultiprocessingDispatcher.self l
  | CallSetupTilesets l => MultiprocessingDispatcher.setup_tilesets l
  | CallDispatch tileset workitem => MultiprocessingDispatcher.dispatch tileset workitem
  | CallFinishWork => MultiprocessingDispatcher.finish_work
  | CallClose => MultiprocessingDispatcher.close
  end.

(** The states in which the dispatcher is between two calls: the one after
    [__init__], and the one a call returned or raised in. Between calls
    the workers go on, and the environment is free in what it will do. *)
Inductive idle : World → Prop :=
  | idle_init local_procs cpu_count :
      0 < cpu_count →
      idle (MultiprocessingDispatcher.init local_procs cpu_count)
  | idle_ret w c w' :
      idle w → exec c w = Ret () w' → idle w'
  | idle_raise w c e w' :
      idle w → exec c w = Raise e w' → idle w'
  | idle_workers w sched :
      idle w → idle (run_procs sched w)
  | idle_oracle w o :
      idle w → idle (set_oracle o w).

(** Every point of a run at which the state can be looked at: between
    calls, and wherever a call stands when the oracle ends. *)
Inductive reachable : World → Prop :=
  | reachable_idle w : idle w → reachable w
  | reachable_in w c : idle w → reachable (final (exec c w)).

(** *** Counting *)

Definition is_dispatch (e : event) : bool :=
  match e with EvDispatch _ => true | _ => false end.
Definition is_result (e : event) : bool :=
  match e with EvResult _ => true | _ => false end.

(** Jobs dispatched and results drained in a history. *)
Definition dispatched (t : list event) : nat := count is_dispatch t.
Definition drained (t : list event) : nat := count is_result t.

(** Whenever a phase after the first one starts, every job dispatched
    before has been counted as a result. *)
Definition phase_barrier (t : list event) : Prop :=
  ∀ t1 p t2, t = t1 ++ EvPhase (S p) :: t2 → drained t1 = dispatched t1.

(** Jobs and sentinels waiting on the job queue. *)
Definition is_job (j : option (@Job WorkItem)) : bool :=
  match j with Some _ => true | None => false end.
Definition is_sentinel (j : option (@Job WorkItem)) : bool :=
  match j with Some _ => false | None => true end.
Definition real_jobs (q : list (option (@Job WorkItem))) : nat := count is_job q.
Definition sentinels (q : list (option (@Job WorkItem))) : nat := count is_sentinel q.

Definition busy_procs (ps : list Process) : nat :=
  count MultiprocessingDispatcherProcess.busy ps.
Definition returned (p : Process) : bool :=
  match MultiprocessingDispatcherProcess.at_pc p with
  | MultiprocessingDispatcherProcess.Returned => true
  | _ => false
  end.
Definition returned_procs (ps : list Process) : nat := count returned ps.

(** Jobs that were dispatched and can still produce a result: waiting on
    the job queue, held by a worker, or done with the result waiting on
    the result queue. *)
Definition in_flight (w : World) : nat :=
  (real_jobs (job_queue (store w)) + busy_procs (procs w)
   + length (result_queue (store w)))%nat.

(** The accounting of the counter. *)
Definition accounted (w : World) : Prop :=
  outstanding_jobs w = Z.of_nat (dispatched (trace w)) - Z.of_nat (drained (trace w))
  ∧ Z.of_nat (in_flight w) ≤ outstanding_jobs w
  ∧ phase_barrier (trace w).

(** *** Invariants that the methods keep

    [stable I] lists what a property [I] of the state has to survive to
    hold at every point of [render_all], [setup_tilesets], [dispatch] and
    [finish_work]: the steps of the workers and each update these methods
    make. A phase after the first only starts when the counter is not
    positive. *)
Record stable (I : World → Prop) : Prop := {
  stable_step : ∀ w i, I w → I (step_proc w i);
  stable_oracle : ∀ w o, I w → I (set_oracle o w);
  stable_manager : ∀ w m, I w → I (set_manager (Some m) w);
  stable_tileset_data : ∀ w f, I w → I (set_store (set_tileset_data f) w);
  stable_put : ∀ w j, I w →
    I (record (EvDispatch j)
         (set_outstanding_jobs (λ n, n + 1)
            (set_store (set_job_queue (λ q, q ++ [Some j])) w)));
  stable_get : ∀ w r q, I w → result_queue (store w) = r :: q →
    I (record (EvResult r)
         (set_outstanding_jobs (λ n, n - 1)
            (set_store (set_result_queue (λ _, q)) w)));
  stable_preprocess : ∀ w tileset, I w → I (record (EvPreprocess tileset) w);
  stable_phase : ∀ w p, I w → p = 0%nat ∨ outstanding_jobs w ≤ 0 →
    I (record (EvPhase p) w);
}.

(** The same for [close]. *)
Record stable_close (I : World → Prop) : Prop := {
  stable_sentinel : ∀ w, I w → I (set_store (set_job_queue (λ q, q ++ [None])) w);
  stable_shutdown : ∀ w, I w → I (set_pool None (set_manager None w));
}.

(** [m] keeps [I]: from a state in [I] it ends in a state in [I], however
    it ends. *)
Definition keeps {A : Type} (I : World → Prop) (m : M World A) : Prop :=
  ∀ w, I w → I (final (m w)).

(** *** Workers *)

(** What a worker has cached. *)
Definition cache (p : Process) : list TileSet * Z :=
  (MultiprocessingDispatcherProcess.tilesets p,
   MultiprocessingDispatcherProcess.tileset_version p).

(** A worker about to do a job holds the version the job was stamped
    with. *)
Definition reconciled (p : Process) : Prop :=
  ∀ tv ti workitem,
    MultiprocessingDispatcherProcess.at_pc p
      = MultiprocessingDispatcherProcess.Working (tv, ti, workitem) →
    MultiprocessingDispatcherProcess.tileset_version p = tv.

(** *** The two statements of the specification that the code does not meet *)

(** Atomic publish, as specified: whatever a worker has cached after a
    publish is what it had cached before, the pair stored before the
    publish, or the pair stored after it. *)
Definition publish_is_atomic (w : World) (new : list TileSet) : Prop :=
  ∀ i p' , procs (final (set_tilesets new w)) !! i = Some p' →
    (∃ p, procs w !! i = Some p ∧ cache p' = cache p)
    ∨ cache p' = tileset_data (store w)
    ∨ cache p' = tileset_data (store (final (set_tilesets new w))).

End Runs.

(** ** A concrete kind of tileset, to run the model on *)

Module Example.
(** A tileset with a name and, for each of its phases, the work items of
    the phase; work items and results are numbers, and the work on item
    [n] gives [n + 100]. *)
Record tileset : Type := { name : nat; work : list (list nat) }.

(** [==] on tilesets. *)
#[global] Instance tileset_eq : EqDecision tileset := λ x y,
  match x, y with
  | Build_tileset n1 w1, Build_tileset n2 w2 =>
      match decide (n1 = n2), decide (w1 = w2) with
      | left Hn, left Hw => left (f_equal2 Build_tileset Hn Hw)
      | right Hn, _ =>
          right (λ H : Build_tileset n1 w1 = Build_tileset n2 w2, Hn (f_equal name H))
      | _, right Hw =>
          right (λ H : Build_tileset n1 w1 = Build_tileset n2 w2, Hw (f_equal work H))
      end
  end.

#[global] Instance ops : TileSetOps tileset nat nat := {|
  get_num_phases tset := Z.of_nat (length (work tset));
  iterate_work_items tset phase := nth phase (work tset) [];
  do_work tset workitem := Some (workitem + 100)%nat;
|}.

(** The scenario of the specification: [A] has the items 1 and 2 in phase
    0 and the item 3 in phase 1; [B] has the item 11 in phase 0. *)
Definition A : tileset := {| name := 0; work := [[1; 2]; [3]]%nat |}.
Definition B : tileset := {| name := 1; work := [[11]]%nat |}.

(** Three tilesets with 3, 1 and 2 items in their only phase. *)
Definition X : tileset := {| name := 2; work := [[21; 22; 23]]%nat |}.
Definition Y : tileset := {| name := 3; work := [[31]]%nat |}.
Definition Z' : tileset := {| name := 4; work := [[41; 42]]%nat |}.

(** A dispatcher with two workers. *)
Definition fresh : World tileset nat nat := MultiprocessingDispatcher.init 2 1.

(** An oracle under which both workers are busy all the time: at every
    scheduling point each takes four steps. *)
Definition eager (n : nat) : list (list nat) := replicate n [0; 1; 0; 1; 0; 1; 0; 1]%nat.

(** A run of [render_all] on [A] and [B]. *)
Definition start : World tileset nat nat := set_oracle (eager 20) fresh.
Definition rendered : outcome (World tileset nat nat) unit :=
  exec (CallRenderAll [A; B]) start.

(** An oracle under which no worker ever runs. *)
Definition quiet (n : nat) : list (list nat) := replicate n [].

(** A dispatcher with one worker that has published [A] and dispatched
    ten jobs while the worker did not get to run: the counter stands at
    the threshold [local_procs * 10]. *)
Definition loaded : World tileset nat nat :=
  final ((MultiprocessingDispatcher.setup_tilesets [A] ;;
          for_each (seq 0 10) (λ n, MultiprocessingDispatcher.dispatch A n))
           (set_oracle (quiet 12) (MultiprocessingDispatcher.init 1 1))).

(** The eleventh job: the worker starts and does one job while
    [dispatch] waits for a result. *)
Definition overflow : outcome (World tileset nat nat) unit :=
  MultiprocessingDispatcher.dispatch A 10%nat
    (set_oracle [[]; [0; 0; 0; 0]; []]%nat loaded).

(** A dispatcher with one worker, which takes its first snapshot between
    the two writes of a publish. *)
Definition racing : World tileset nat nat :=
  set_oracle [[]; [0]]%nat (MultiprocessingDispatcher.init 1 1).

(** A worker whose cache is at version 0 and that has pulled a job
    stamped with version 1; the shared objects with [A] published under
    version 1, and with [A] published under version 2. *)
Definition stale : MultiprocessingDispatcherProcess.t tileset nat :=
  {| MultiprocessingDispatcherProcess.tilesets := [];
     MultiprocessingDispatcherProcess.tileset_version := 0;
     MultiprocessingDispatcherProcess.at_pc :=
       MultiprocessingDispatcherProcess.Unpacked (1, 0%nat, 5%nat) |}.
Definition shelf (version : Z) : Store tileset nat nat :=
  {| tileset_data := ([A], version); job_queue := []; result_queue := [] |}.

(** [close] on the fresh dispatcher, while both workers run. *)
Definition closing : outcome (World tileset nat nat) unit :=
  MultiprocessingDispatcher.close (set_oracle (eager 2) fresh).
End Example.

(** ** What a run dispatches and drains, and triples for the methods *)

Section More.
Context {TileSet WorkItem Result : Type} `{!TileSetOps TileSet WorkItem Result}.
Local Abbreviation World := (World TileSet WorkItem Result).
Local Abbreviation event := (event TileSet WorkItem Result).

(** The jobs dispatched and the results drained in a history, in order. *)
Definition jobs_of (t : list event) : list (@Job WorkItem) :=
  omap (λ e, match e with EvDispatch j => Some j | _ => None end) t.
Definition results_of (t : list event) : list Result :=
  omap (λ e, match e with EvResult r => Some r | _ => None end) t.


(** [triple P m Q E C]: from a state in [P], [m] returns [a] in a state in
    [Q a], raises [e] in a state in [E e], or is cut in a state in [C]. *)
Definition triple {A : Type} (P : World → Prop) (m : M World A)
    (Q : A → World → Prop) (E : exn → World → Prop) (C : World → Prop) : Prop :=
  ∀ w, P w →
    match m w with
    | Ret a w' => Q a w'
    | Raise e w' => E e w'
    | Cut w' => C w'
    end.
End More.

(** ** A tileset whose work can fail *)

Module Faulty.
(** The work on item 0 raises; the work on any other item gives the item
    back. Every tileset has the items 0 and 1 in its only phase. *)
Record tileset : Type := { name : nat }.

#[global] Instance tileset_eq : EqDecision tileset := λ x y,
  match x, y with
  | Build_tileset n1, Build_tileset n2 =>
      match decide (n1 = n2) with
      | left Hn => left (f_equal Build_tileset Hn)
      | right Hn => right (λ H : Build_tileset n1 = Build_tileset n2, Hn (f_equal name H))
      end
  end.

#[global] Instance ops : TileSetOps tileset nat nat := {|
  get_num_phases tset := 1;
  iterate_work_items tset phase := match phase with O => [0; 1]%nat | S _ => [] end;
  do_work tset workitem := match workitem with O => None | S _ => Some workitem end;
|}.

Definition T : tileset := {| name := 0 |}.


(** The same, call after call: the dispatcher with one worker, [T]
    published, the item 0 dispatched, and the worker run until it has done
    the job: it has died of it. *)
Definition opened : World tileset nat nat :=
  set_oracle (replicate 3 []) (MultiprocessingDispatcher.init 1 1).
Definition published : World tileset nat nat :=
  final (exec (CallSetupTilesets [T]) opened).
End Faulty.

(** ** The jobs of a run of [render_all] *)

Section Order.
Context {TileSet WorkItem Result : Type} `{!TileSetOps TileSet WorkItem Result}.

(** The position [l.index(x)] gives. *)
Definition position (x : TileSet) (l : list TileSet) : nat :=
  match list_find (λ y, y = x) l with
  | Some (i, _) => i
  | None => 0%nat
  end.

(** The number of phases [render_all] goes through: [max(num_phases)]. *)
Definition max_phases (tilesetlist : list TileSet) : Z :=
  match map get_num_phases tilesetlist with
  | [] => 0
  | x :: l' => foldl Z.max x l'
  end.

(** The work of a phase, in the order of the merge, and the jobs it makes
    under the version [v]. *)
Definition phase_work (tilesetlist : list TileSet) (phase : nat)
  : list (TileSet * WorkItem) :=
  roundrobin (work_iterators tilesetlist (map get_num_phases tilesetlist) phase).

Definition phase_jobs (v : Z) (tilesetlist : list TileSet) (phase : nat)
  : list (@Job WorkItem) :=
  map (λ '(tileset, workitem), (v, position tileset tilesetlist, workitem))
      (phase_work tilesetlist phase).

Definition all_jobs (v : Z) (tilesetlist : list TileSet) : list (@Job WorkItem) :=
  concat (map (phase_jobs v tilesetlist) (xrange (max_phases tilesetlist))).
End Order.

(** ** The dispatcher of one process *)

Section Base.
Context {TileSet WorkItem Result : Type} `{!TileSetOps TileSet WorkItem Result}.

(** The work on an item does not raise. *)
Definition work_ok (work : TileSet * WorkItem) : bool :=
  match do_work work.1 work.2 with Some _ => true | None => false end.

(** Every work item of the phase can be done. *)
Definition phase_ok (tilesetlist : list TileSet) (phase : nat) : bool :=
  forallb work_ok (phase_work tilesetlist phase).

(** What [render_all] of the class [Dispatcher] itself comes to, from the
    history [h]: the calls of [do_preprocessing], then the phases one after
    the other, up to the first phase in which a work item fails. *)
Definition render_all_base (tilesetlist : list TileSet)
    (h : list (event TileSet WorkItem Result))
  : outcome (list (event TileSet WorkItem Result)) unit :=
  match tilesetlist with
  | [] => Raise ValueError h
  | _ =>
      let h' := h ++ map EvPreprocess tilesetlist in
      match list_find (λ phase, phase_ok tilesetlist phase = false)
                      (xrange (max_phases tilesetlist)) with
      | None => Ret () (h' ++ map EvPhase (xrange (max_phases tilesetlist)))
      | Some (_, phase) => Raise WorkError (h' ++ map EvPhase (seq 0 (S phase)))
      end
  end.
End Base.

(** ** Several steps of one worker *)

Section Steps.
Context {TileSet WorkItem Result : Type} `{!TileSetOps TileSet WorkItem Result}.

(** [n] steps of the [run] of a worker that is alone with the shared
    objects. *)
Definition run_steps (n : nat)
    (ps : MultiprocessingDispatcherProcess.t TileSet WorkItem * Store TileSet WorkItem Result)
  : MultiprocessingDispatcherProcess.t TileSet WorkItem * Store TileSet WorkItem Result :=
  Nat.iter n (λ ps, MultiprocessingDispatcherProcess.run ps.1 ps.2) ps.
End Steps.

(** ** A dispatcher that is only used through [render_all] *)

Section Discipline.
Context {TileSet WorkItem Result : Type} `{!TileSetOps TileSet WorkItem Result}.
Local Abbreviation World := (World TileSet WorkItem Result).
Local Abbreviation Process := (MultiprocessingDispatcherProcess.t TileSet WorkItem).
Local Abbreviation event := (event TileSet WorkItem Result).

(** The states between the calls, when [render_all] is the only method
    called. *)
Inductive disciplined : World → Prop :=
  | disciplined_init local_procs cpu_count :
      0 < cpu_count →
      disciplined (MultiprocessingDispatcher.init local_procs cpu_count)
  | disciplined_ret w tilesetlist w' :
      disciplined w →
      render_all MultiprocessingDispatcher.self tilesetlist w = Ret () w' →
      disciplined w'
  | disciplined_raise w tilesetlist e w' :
      disciplined w →
      render_all MultiprocessingDispatcher.self tilesetlist w = Raise e w' →
      disciplined w'
  | disciplined_workers w sched :
      disciplined w → disciplined (run_procs sched w)
  | disciplined_oracle w o :
      disciplined w → disciplined (set_oracle o w).

(** Every point of such a run. *)
Inductive disciplined_point : World → Prop :=
  | disciplined_between w : disciplined w → disciplined_point w
  | disciplined_in w tilesetlist :
      disciplined w →
      disciplined_point (final (render_all MultiprocessingDispatcher.self tilesetlist w)).

(** What the job [(tv, ti, workitem)] gives when it is done on the list
    [l]: the result of [l[ti].do_work(workitem)], or nothing when the index
    is out of range or the work raises. *)
Definition img (l : list TileSet) (j : @Job WorkItem) : option Result :=
  l !! j.1.2 ≫= λ tileset, do_work tileset j.2.

(** The job a worker holds, the jobs the workers hold, the jobs that wait
    on the job queue. *)
Definition held (p : Process) : list (@Job WorkItem) :=
  match MultiprocessingDispatcherProcess.at_pc p with
  | MultiprocessingDispatcherProcess.Unpacked j
  | MultiprocessingDispatcherProcess.Working j => [j]
  | _ => []
  end.
Definition held_jobs (ps : list Process) : list (@Job WorkItem) := flat_map held ps.
Definition queued_jobs (q : list (option (@Job WorkItem))) : list (@Job WorkItem) :=
  omap id q.

(** What is still to come out of the pool: the results that wait on the
    result queue, and what the jobs held and the jobs waiting give. *)
Definition to_come (l : list TileSet) (w : World) : list (option Result) :=
  (Some <$> result_queue (store w))
  ++ (img l <$> held_jobs (procs w))
  ++ (img l <$> queued_jobs (job_queue (store w))).

(** A job made from the list [l] under the version [v]. *)
Definition job_ok (l : list TileSet) (v : Z) (j : option (@Job WorkItem)) : Prop :=
  match j with
  | None => True
  | Some (tv, ti, _) => tv = v ∧ (ti < length l)%nat
  end.

(** The cache of a worker is the pair [(l, v)] or of an older version. *)
Definition coherent (l : list TileSet) (v : Z) (p : Process) : Prop :=
  cache p = (l, v) ∨ MultiprocessingDispatcherProcess.tileset_version p < v.

(** A worker while [(l, v)] is the pair published last: what it holds is a
    job of this version, it does a job only with this pair cached, and it
    has died only of its work. *)
Definition worker_ok (l : list TileSet) (v : Z) (p : Process) : Prop :=
  match MultiprocessingDispatcherProcess.at_pc p with
  | MultiprocessingDispatcherProcess.Starting
  | MultiprocessingDispatcherProcess.Returned => True
  | MultiprocessingDispatcherProcess.Polling => coherent l v p
  | MultiprocessingDispatcherProcess.Unpacked j => coherent l v p ∧ job_ok l v (Some j)
  | MultiprocessingDispatcherProcess.Working j => cache p = (l, v) ∧ job_ok l v (Some j)
  | MultiprocessingDispatcherProcess.Died e => e = WorkError
  end.

(** The dispatcher at work on the list [l] published under the version
    [v], with [t0] the history before this publish: the results drained
    since, and what is still to come, are results of jobs dispatched
    since, each job counted at most once. *)
Definition working (l : list TileSet) (v : Z) (t0 : list event) (w : World) : Prop :=
  accounted w
  ∧ manager w = Some {| tilesets := l; tileset_version := v |}
  ∧ tileset_data (store w) = (l, v)
  ∧ Forall (job_ok l v) (job_queue (store w))
  ∧ Forall (worker_ok l v) (procs w)
  ∧ ∃ t, trace w = t0 ++ t
      ∧ (Some <$> results_of t) ++ to_come l w ⊆+ img l <$> jobs_of t.

(** The dispatcher at rest: nothing is outstanding, and the manager and
    the shared pair agree. *)
Definition at_rest (w : World) : Prop :=
  outstanding_jobs w = 0
  ∧ ∃ m, working (tilesets m) (tileset_version m) (trace w) w.

(** A worker during the publish of [l] over the version [v0]: it holds no
    job, and its cache is of a version up to [v0] or the new pair. *)
Definition worker_mid (l : list TileSet) (v0 : Z) (p : Process) : Prop :=
  match MultiprocessingDispatcherProcess.at_pc p with
  | MultiprocessingDispatcherProcess.Starting
  | MultiprocessingDispatcherProcess.Returned => True
  | MultiprocessingDispatcherProcess.Polling =>
      MultiprocessingDispatcherProcess.tileset_version p ≤ v0 ∨ cache p = (l, v0 + 1)
  | MultiprocessingDispatcherProcess.Unpacked _
  | MultiprocessingDispatcherProcess.Working _ => False
  | MultiprocessingDispatcherProcess.Died e => e = WorkError
  end.

(** The dispatcher during the publish of [l] over the pair [(l0, v0)]. *)
Definition publishing (l0 : list TileSet) (v0 : Z) (l : list TileSet)
    (t0 : list event) (w : World) : Prop :=
  accounted w
  ∧ outstanding_jobs w = 0
  ∧ manager w = Some {| tilesets := l; tileset_version := v0 + 1 |}
  ∧ (tileset_data (store w) = (l0, v0) ∨ tileset_data (store w) = (l, v0)
     ∨ tileset_data (store w) = (l, v0 + 1))
  ∧ Forall (worker_mid l v0) (procs w)
  ∧ trace w = t0.

(** All the work of a list of tilesets, phase after phase. *)
Definition all_work (tilesetlist : list TileSet) : list (TileSet * WorkItem) :=
  concat (map (phase_work tilesetlist) (xrange (max_phases tilesetlist))).

(** What a property of the state has to survive to hold all through the
    phases of [render_all]; [H] is what is known of the state at the start
    of a phase. *)
Record work_stable (I H : World → Prop) : Prop := {
  ws_step : ∀ w i, I w → I (step_proc w i);
  ws_oracle : ∀ w o, I w → I (set_oracle o w);
  ws_put : ∀ w m i tileset workitem,
    I w → manager w = Some m → tilesets m !! i = Some tileset →
    I (record (EvDispatch (tileset_version m, i, workitem))
         (set_outstanding_jobs (λ n, n + 1)
            (set_store (set_job_queue (λ q, q ++ [Some (tileset_version m, i, workitem)])) w)));
  ws_get : ∀ w r q, I w → result_queue (store w) = r :: q →
    I (record (EvResult r)
         (set_outstanding_jobs (λ n, n - 1)
            (set_store (set_result_queue (λ _, q)) w)));
  ws_preprocess : ∀ w tileset, I w → H w →
    I (record (EvPreprocess tileset) w) ∧ H (record (EvPreprocess tileset) w);
  ws_phase : ∀ w p, I w → H w → I (record (EvPhase p) w);
  ws_drained : ∀ w, I w → outstanding_jobs w ≤ 0 → H w;
}.
End Discipline.

(** ** The order of the versions *)

Section Versions.
Context {TileSet WorkItem Result : Type} `{!TileSetOps TileSet WorkItem Result}.
Local Abbreviation World := (World TileSet WorkItem Result).
Local Abbreviation Process := (MultiprocessingDispatcherProcess.t TileSet WorkItem).

(** The version a job was stamped with, and the version in the shared
    pair. *)
Definition stamp (j : @Job WorkItem) : Z := j.1.1.
Definition stored_version (w : World) : Z := (tileset_data (store w)).2.

(** A job on the queue is not ahead of the version [sv]. *)
Definition job_behind (sv : Z) (j : option (@Job WorkItem)) : Prop :=
  match j with
  | Some j => stamp j ≤ sv
  | None => True
  end.

(** A worker is not ahead of the version [sv]: neither the version it has
    cached, once it has taken its first snapshot, nor the job it holds. *)
Definition worker_behind (sv : Z) (p : Process) : Prop :=
  match MultiprocessingDispatcherProcess.at_pc p with
  | MultiprocessingDispatcherProcess.Starting => True
  | MultiprocessingDispatcherProcess.Unpacked j
  | MultiprocessingDispatcherProcess.Working j =>
      MultiprocessingDispatcherProcess.tileset_version p ≤ sv ∧ stamp j ≤ sv
  | _ => MultiprocessingDispatcherProcess.tileset_version p ≤ sv
  end.

(** Nothing in the pool is ahead of the shared pair. *)
Definition versions_ordered (w : World) : Prop :=
  Forall (job_behind (stored_version w)) (job_queue (store w))
  ∧ Forall (worker_behind (stored_version w)) (procs w).

(** The manager object and the shared pair hold the same list and
    version. *)
Definition in_step (w : World) : Prop :=
  ∀ m, manager w = Some m → tileset_data (store w) = (tilesets m, tileset_version m).

(** The shared pair is at most one version behind the manager object. *)
Definition publish_lag (w : World) : Prop :=
  ∀ m, manager w = Some m →
    stored_version w ≤ tileset_version m ≤ stored_version w + 1.
End Versions.

(** ** The bound on the outstanding jobs *)

Section Bound.
Context {TileSet WorkItem Result : Type} `{!TileSetOps TileSet WorkItem Result}.

(** The counter stands at most [slack] above the threshold of [dispatch],
    [local_procs * 10]. *)
Definition within (slack : Z) (w : World TileSet WorkItem Result) : Prop :=
  0 ≤ local_procs w ∧ outstanding_jobs w ≤ local_procs w * 10 + slack.
End Bound.

(** ** Workers that died, and the exact count *)

Section Tally.
Context {TileSet WorkItem Result : Type} `{!TileSetOps TileSet WorkItem Result}.
Local Abbreviation World := (World TileSet WorkItem Result).
Local Abbreviation Process := (MultiprocessingDispatcherProcess.t TileSet WorkItem).

(** An exception has left the [run] of the worker. *)
Definition died (p : Process) : bool :=
  match MultiprocessingDispatcherProcess.at_pc p with
  | MultiprocessingDispatcherProcess.Died _ => true
  | _ => false
  end.
Definition dead_procs (ps : list Process) : nat := count died ps.

(** Every job that is counted is in flight or was lost with the worker
    that held it. *)
Definition tally (w : World) : Prop :=
  outstanding_jobs w = Z.of_nat (in_flight w + dead_procs (procs w)).

(** No sentinel was ever put, and there are workers. *)
Definition pool_open (w : World) : Prop :=
  (sentinels (job_queue (store w)) + returned_procs (procs w) = 0)%nat
  ∧ (0 < length (procs w))%nat.

End Tally.

(** ** One worker that keeps up *)

Section Calm.
Context {TileSet WorkItem Result : Type} `{!TileSetOps TileSet WorkItem Result}.
Local Abbreviation World := (World TileSet WorkItem Result).
Local Abbreviation Process := (MultiprocessingDispatcherProcess.t TileSet WorkItem).

(** The schedule under which the first worker takes four steps. *)
Definition first_worker : list nat := replicate 4 0%nat.

(** A job of the pair [(l, v)] whose work does not raise. *)
Definition doable (l : list TileSet) (v : Z) (j : @Job WorkItem) : Prop :=
  job_ok l v (Some j) ∧ is_Some (img l j).

(** A worker that is alive and in order, and whose job can be done. *)
Definition fit (l : list TileSet) (v : Z) (p : Process) : Prop :=
  match MultiprocessingDispatcherProcess.at_pc p with
  | MultiprocessingDispatcherProcess.Starting => True
  | MultiprocessingDispatcherProcess.Polling => coherent l v p
  | MultiprocessingDispatcherProcess.Unpacked j => coherent l v p ∧ doable l v j
  | MultiprocessingDispatcherProcess.Working j => cache p = (l, v) ∧ doable l v j
  | MultiprocessingDispatcherProcess.Returned
  | MultiprocessingDispatcherProcess.Died _ => False
  end.

(** The number of steps after which a worker that runs alone polls an
    empty job queue: three steps for each job on the queue, and what is
    left of the steps of the job it holds. *)
Definition rank (p : Process) (q : list (option (@Job WorkItem))) : nat :=
  (3 * length q
   + match MultiprocessingDispatcherProcess.at_pc p with
     | MultiprocessingDispatcherProcess.Starting => 1
     | MultiprocessingDispatcherProcess.Unpacked _ => 2
     | MultiprocessingDispatcherProcess.Working _ => 1
     | _ => 0
     end)%nat.

(** The same for the first worker of a state, and the jobs that are with
    it or on the queues. *)
Definition rank_of (w : World) : nat :=
  match procs w !! 0%nat with
  | Some p => rank p (job_queue (store w))
  | None => 0%nat
  end.
Definition load (w : World) : nat :=
  (length (job_queue (store w))
   + match procs w !! 0%nat with
     | Some p => bit (MultiprocessingDispatcherProcess.busy p)
     | None => 0
     end
   + length (result_queue (store w)))%nat.

(** The pair [(l, v)] is published, the first worker is fit, and every
    job on the queue can be done. *)
Definition served (l : list TileSet) (v : Z) (w : World) : Prop :=
  tileset_data (store w) = (l, v)
  ∧ Forall (λ j, ∃ job, j = Some job ∧ doable l v job) (job_queue (store w))
  ∧ ∃ p, procs w !! 0%nat = Some p ∧ fit l v p.

(** The dispatcher and its first worker, which alone does the work and is
    at most [r] steps behind: no job is lost, and at every scheduling point
    to come the first worker takes four steps. *)
Definition calm (l : list TileSet) (v : Z) (r : nat) (w : World) : Prop :=
  0 ≤ local_procs w
  ∧ manager w = Some {| tilesets := l; tileset_version := v |}
  ∧ served l v w
  ∧ outstanding_jobs w = Z.of_nat (load w)
  ∧ Forall (λ sched, sched = first_worker) (oracle w)
  ∧ (rank_of w ≤ r)%nat.

(** The scheduling points a run can still go through, less the jobs it
    has to get back. *)
Definition credit (w : World) : Z :=
  Z.of_nat (length (oracle w)) - outstanding_jobs w.
End Calm.

(** ** More runs of the concrete tilesets *)

Module Scenario.

(** A publish of [A] on the dispatcher [Example.racing]. *)
Definition published : outcome (World Example.tileset nat nat) unit :=
  set_tilesets [Example.A] Example.racing.

(** [render_all] of the empty list. *)
Definition nothing : outcome (World Example.tileset nat nat) unit :=
  render_all MultiprocessingDispatcher.self []
    (set_oracle (Example.eager 3) Example.fresh).

(** A worker that polls with an empty cache of version 0, and the shared
    objects with [A] published under version 1 and one job for it. *)
Definition polling : MultiprocessingDispatcherProcess.t Example.tileset nat :=
  {| MultiprocessingDispatcherProcess.tilesets := [];
     MultiprocessingDispatcherProcess.tileset_version := 0;
     MultiprocessingDispatcherProcess.at_pc := MultiprocessingDispatcherProcess.Polling |}.
Definition one_job : Store Example.tileset nat nat :=
  {| tileset_data := ([Example.A], 1);
     job_queue := [Some (1, 0%nat, 5%nat)];
     result_queue := [] |}.


(** [render_all] of [A] and [B] with an oracle that ends while the first
    worker does its first job. *)
Definition midway : outcome (World Example.tileset nat nat) unit :=
  render_all MultiprocessingDispatcher.self [Example.A; Example.B]
    (set_oracle [[]; []; [0]; [0; 0]]%nat Example.fresh).

(** A job that goes out of date. A dispatcher with one worker, which has
    started; [A] is published and one job dispatched; the worker pulls the
    job; then [A] is published once more. *)
Definition started : World Example.tileset nat nat :=
  set_oracle [[]; []; []] (run_procs [0%nat] (MultiprocessingDispatcher.init 1 1)).
Definition first_publish : World Example.tileset nat nat :=
  final (exec (CallSetupTilesets [Example.A]) started).
Definition one_dispatched : World Example.tileset nat nat :=
  final (exec (CallDispatch Example.A 1%nat) first_publish).
Definition pulled : World Example.tileset nat nat :=
  set_oracle [[]; []] (run_procs [0%nat] one_dispatched).
Definition outdated : World Example.tileset nat nat :=
  final (exec (CallSetupTilesets [Example.A]) pulled).

(** The fresh dispatcher with sixteen scheduling points to come, at each
    of which the first worker takes four steps. *)
Definition keeping_up : World Example.tileset nat nat :=
  set_oracle (replicate 16 first_worker) Example.fresh.
End Scenario.

(** * Proofs *)

(** ** The round-robin merger *)

Section RoundRobin.
Context {A : Type}.
Implicit Types (pending ls xs acc rest : list (list A)).

Lemma roundrobin_size_cons_nil pending :
  roundrobin_size ([] :: pending) = S (roundrobin_size pending).
Proof. reflexivity. Qed.

Lemma roundrobin_size_rotate x (it : list A) pending :
  roundrobin_size ((x :: it) :: pending) = S (roundrobin_size (pending ++ [it])).
Proof.
  unfold roundrobin_size. cbn [concat length app].
  rewrite concat_app, !length_app. cbn. rewrite app_nil_r. lia.
Qed.

(** Enough fuel is as good as more fuel. *)
Lemma roundrobin_steps_fuel n m pending :
  (roundrobin_size pending ≤ n)%nat → (roundrobin_size pending ≤ m)%nat →
  roundrobin_steps n pending = roundrobin_steps m pending.
Proof.
  revert m pending. induction n as [|n IH]; intros m pending Hn Hm.
  - destruct pending; [by destruct m | unfold roundrobin_size in Hn; cbn in Hn; lia].
  - destruct m as [|m]; [destruct pending; [done | unfold roundrobin_size in Hm; cbn in Hm; lia]|].
    destruct pending as [|[|x it] rest]; cbn [roundrobin_steps]; [done | |].
    + rewrite roundrobin_size_cons_nil in Hn, Hm. apply IH; lia.
    + rewrite roundrobin_size_rotate in Hn, Hm. f_equal. apply IH; lia.
Qed.

(** Going once through the sequences [xs] at the front of the rotation
    emits their heads and leaves their tails at the back. *)
Lemma roundrobin_steps_rotation xs acc n :
  (roundrobin_size (xs ++ acc) ≤ n)%nat →
  roundrobin_steps n (xs ++ acc)
  = heads xs ++ roundrobin_steps (n - length xs) (acc ++ tails xs).
Proof.
  revert acc n. induction xs as [|[|x it] xs IH]; intros acc n Hn.
  - cbn. by rewrite Nat.sub_0_r, app_nil_r.
  - cbn [app] in *. rewrite roundrobin_size_cons_nil in Hn.
    destruct n as [|n]; [lia|]. cbn [roundrobin_steps length Nat.sub].
    rewrite IH by lia. done.
  - cbn [app] in *. rewrite roundrobin_size_rotate in Hn.
    destruct n as [|n]; [lia|]. cbn [roundrobin_steps length Nat.sub].
    rewrite <- (assoc_L (++) xs acc [it]) in *. rewrite IH by lia.
    cbn. by rewrite <- (assoc_L (++) acc [it]).
Qed.

Lemma roundrobin_size_tails ls :
  roundrobin_size (tails ls) = length (concat ls).
Proof.
  unfold roundrobin_size. induction ls as [|[|x it] ls IH]; [done..|].
  change (tails ((x :: it) :: ls)) with (it :: tails ls).
  cbn [concat length]. rewrite !length_app. cbn [length]. lia.
Qed.

(** The merged sequence is one element of every live sequence, in input
    order, followed by the merge of what is left of them. *)
Lemma roundrobin_unfold ls :
  roundrobin ls = heads ls ++ roundrobin (tails ls).
Proof.
  unfold roundrobin at 1.
  rewrite <- (app_nil_r ls) at 2. rewrite roundrobin_steps_rotation
    by (by rewrite app_nil_r).
  f_equal. cbn [app]. apply roundrobin_steps_fuel.
  - rewrite roundrobin_size_tails. unfold roundrobin_size. lia.
  - done.
Qed.

Lemma roundrobin_steps_perm n pending :
  (roundrobin_size pending ≤ n)%nat →
  roundrobin_steps n pending ≡ₚ concat pending.
Proof.
  revert pending. induction n as [|n IH]; intros pending Hn.
  - destruct pending; [done | unfold roundrobin_size in Hn; cbn in Hn; lia].
  - destruct pending as [|[|x it] rest]; cbn [roundrobin_steps]; [done | |].
    + rewrite roundrobin_size_cons_nil in Hn. cbn. apply IH. lia.
    + rewrite roundrobin_size_rotate in Hn. rewrite IH by lia.
      rewrite concat_app. cbn. rewrite app_nil_r.
      by rewrite (comm (++) (concat rest)).
Qed.

(** Nothing is lost and nothing is emitted twice. *)
Lemma roundrobin_perm ls : roundrobin ls ≡ₚ concat ls.
Proof. by apply roundrobin_steps_perm. Qed.
End RoundRobin.

(** ** The monad *)

Section Monad.
Context {Σ : Type}.
Implicit Types (I : Σ → Prop).

Lemma final_bind {A B : Type} (m : M Σ A) (k : A → M Σ B) σ :
  final (bind m k σ)
  = match m σ with Ret a σ' => final (k a σ') | _ => final (m σ) end.
Proof. unfold bind. by destruct (m σ). Qed.

Lemma bind_ret_inv {A B : Type} (m : M Σ A) (k : A → M Σ B) σ b σ2 :
  bind m k σ = Ret b σ2 → ∃ a σ1, m σ = Ret a σ1 ∧ k a σ1 = Ret b σ2.
Proof. unfold bind. destruct (m σ) as [a σ1| |]; [eauto | done..]. Qed.

Lemma bind_assoc {A B C : Type} (m : M Σ A) (k : A → M Σ B) (h : B → M Σ C) σ :
  bind (bind m k) h σ = bind m (λ a, bind (k a) h) σ.
Proof. unfold bind. by destruct (m σ). Qed.

Lemma bind_modify {B : Type} (f : Σ → Σ) (k : unit → M Σ B) σ :
  bind (modify f) k σ = k () (f σ).
Proof. reflexivity. Qed.

(** To show [P] of the state a sequence ends in: show it of the state the
    first part ends in, and of the state the rest ends in when the first
    part returns. *)
Lemma final_bind_cases {A B : Type} (m : M Σ A) (k : A → M Σ B) σ (P : Σ → Prop) :
  (∀ a σ', m σ = Ret a σ' → P (final (k a σ'))) →
  P (final (m σ)) →
  P (final (bind m k σ)).
Proof. unfold bind. destruct (m σ); eauto. Qed.

End Monad.

(** ** Workers and the shared objects *)

Section Workers.
Context {TileSet WorkItem Result : Type} `{!TileSetOps TileSet WorkItem Result}.
Local Abbreviation World := (World TileSet WorkItem Result).
Local Abbreviation Process := (MultiprocessingDispatcherProcess.t TileSet WorkItem).
Local Abbreviation Store := (Store TileSet WorkItem Result).
Import MultiprocessingDispatcherProcess.
Implicit Types (p : Process) (s : Store) (w : World).

(** Counting in a list whose element [i] is replaced. *)
Lemma count_insert {A : Type} (f : A → bool) (l : list A) i x y :
  l !! i = Some x →
  (count f (<[i := y]> l) + bit (f x) = count f l + bit (f y))%nat.
Proof.
  revert i. induction l as [|a l IH]; intros [|i] Hi; try done.
  - injection Hi as ->. cbn. lia.
  - change (<[S i := y]> (a :: l)) with (a :: <[i := y]> l).
    specialize (IH i Hi). cbn [count]. lia.
Qed.

Lemma count_app {A : Type} (f : A → bool) (l1 l2 : list A) :
  count f (l1 ++ l2) = (count f l1 + count f l2)%nat.
Proof. induction l1 as [|a l1 IH]; cbn; [done | lia]. Qed.

(** A step of a worker never writes the tileset list. *)
Lemma run_tileset_data p s : tileset_data (run p s).2 = tileset_data s.
Proof.
  unfold run. destruct p as [ts v [| |[[tv ti] wi]|[[tv ti] wi]| |e]]; cbn.
  - done.
  - by destruct (job_queue s) as [|[j|] q].
  - unfold update_tilesets. destruct (get_tilesets s). by repeat case_decide.
  - destruct (ts !! ti) as [t|]; [|done]. by destruct (do_work t wi).
  - done.
  - done.
Qed.

(** A step of a worker creates no job: the jobs in flight do not grow. *)
Lemma run_in_flight p s :
  (real_jobs (job_queue (run p s).2) + bit (busy (run p s).1)
     + length (result_queue (run p s).2)
   ≤ real_jobs (job_queue s) + bit (busy p) + length (result_queue s))%nat.
Proof.
  unfold run, busy, real_jobs.
  destruct p as [ts v [| |[[tv ti] wi]|[[tv ti] wi]| |e]]; cbn.
  - destruct (get_tilesets s); cbn; lia.
  - destruct (job_queue s) as [|[j|] q] eqn:Hq; cbn; rewrite ?Hq; cbn; lia.
  - unfold update_tilesets. destruct (get_tilesets s).
    repeat case_decide; cbn; lia.
  - destruct (ts !! ti) as [t|]; cbn; [|lia].
    destruct (do_work t wi); cbn; rewrite ?length_app; cbn; lia.
  - lia.
  - lia.
Qed.

(** A sentinel leaves the queue exactly when a worker returns. *)
Lemma run_sentinels p s :
  (sentinels (job_queue (run p s).2) + bit (returned (run p s).1)
   = sentinels (job_queue s) + bit (returned p))%nat.
Proof.
  unfold run, returned, sentinels.
  destruct p as [ts v [| |[[tv ti] wi]|[[tv ti] wi]| |e]]; cbn.
  - destruct (get_tilesets s); cbn; lia.
  - destruct (job_queue s) as [|[j|] q] eqn:Hq; cbn; rewrite ?Hq; cbn; lia.
  - unfold update_tilesets. destruct (get_tilesets s).
    repeat case_decide; cbn; lia.
  - destruct (ts !! ti) as [t|]; cbn; [|lia].
    destruct (do_work t wi); cbn; lia.
  - lia.
  - lia.
Qed.

(** What a step of worker [i] leaves alone. *)
Lemma step_proc_frame w i :
  local_procs (step_proc w i) = local_procs w
  ∧ outstanding_jobs (step_proc w i) = outstanding_jobs w
  ∧ manager (step_proc w i) = manager w
  ∧ pool (step_proc w i) = pool w
  ∧ oracle (step_proc w i) = oracle w
  ∧ trace (step_proc w i) = trace w
  ∧ tileset_data (store (step_proc w i)) = tileset_data (store w)
  ∧ length (procs (step_proc w i)) = length (procs w).
Proof.
  unfold step_proc. destruct (procs w !! i) as [p|] eqn:Hp; [|done].
  pose proof (run_tileset_data p (store w)) as Htd.
  destruct (run p (store w)) as [p' s']. cbn in *.
  by rewrite length_insert.
Qed.

Lemma step_proc_in_flight w i : (in_flight (step_proc w i) ≤ in_flight w)%nat.
Proof.
  unfold step_proc, in_flight. destruct (procs w !! i) as [p|] eqn:Hp; [|done].
  pose proof (run_in_flight p (store w)) as Hrun.
  destruct (run p (store w)) as [p' s']. cbn in *.
  pose proof (count_insert busy (procs w) i p p' Hp) as Hc.
  unfold busy_procs. lia.
Qed.

Lemma step_proc_sentinels w i :
  (sentinels (job_queue (store (step_proc w i))) + returned_procs (procs (step_proc w i))
   = sentinels (job_queue (store w)) + returned_procs (procs w))%nat.
Proof.
  unfold step_proc. destruct (procs w !! i) as [p|] eqn:Hp; [|done].
  pose proof (run_sentinels p (store w)) as Hrun.
  destruct (run p (store w)) as [p' s']. cbn in *.
  pose proof (count_insert returned (procs w) i p p' Hp) as Hc.
  unfold returned_procs. lia.
Qed.

Lemma run_procs_cons w i sched :
  run_procs (i :: sched) w = run_procs sched (step_proc w i).
Proof. reflexivity. Qed.

(** A property kept by every step is kept by every schedule. *)
Lemma run_procs_ind (I : World → Prop) sched w :
  (∀ w i, I w → I (step_proc w i)) → I w → I (run_procs sched w).
Proof.
  intros Hstep. revert w. induction sched as [|i sched IH]; intros w Hw; [done|].
  rewrite run_procs_cons. by apply IH, Hstep.
Qed.

Lemma run_procs_oracle sched w : oracle (run_procs sched w) = oracle w.
Proof.
  revert w. induction sched as [|i sched IH]; intros w; [done|].
  rewrite run_procs_cons, IH. apply step_proc_frame.
Qed.
End Workers.

(** ** What the methods keep *)

Section Keeps.
Context {TileSet WorkItem Result : Type} `{!TileSetOps TileSet WorkItem Result}.
Local Abbreviation World := (World TileSet WorkItem Result).
Implicit Types (w : World) (I : World → Prop).

Lemma keeps_ret {A : Type} I (a : A) : keeps I (ret a).
Proof. by intros w Hw. Qed.

Lemma keeps_modify I (f : World → World) :
  (∀ w, I w → I (f w)) → keeps I (modify f).
Proof. intros Hf w Hw. by apply Hf. Qed.

Lemma keeps_bind {A B : Type} I (m : M World A) (k : A → M World B) :
  keeps I m → (∀ a, keeps I (k a)) → keeps I (bind m k).
Proof.
  intros Hm Hk w Hw. rewrite final_bind. specialize (Hm w Hw).
  destruct (m w) as [a w'| |]; [by apply Hk | done..].
Qed.

Lemma keeps_for_each {A : Type} I (l : list A) (body : A → M World unit) :
  (∀ x, keeps I (body x)) → keeps I (for_each l body).
Proof.
  intros Hbody. induction l as [|x l IH]; [apply keeps_ret|].
  cbn [for_each]. by apply keeps_bind.
Qed.

Lemma keeps_get_manager I : keeps I get_manager.
Proof. intros w Hw. unfold get_manager. by destruct (manager w). Qed.

Lemma keeps_index I x l : keeps I (index x l).
Proof. intros w Hw. unfold index. by destruct (list_find _ l) as [[i y]|]. Qed.

Lemma keeps_py_max I l : keeps I (py_max l).
Proof. intros w Hw. by destruct l. Qed.

(** A scheduling point keeps what every step of a worker keeps. *)
Lemma yield_keeps I :
  (∀ w i, I w → I (step_proc w i)) → (∀ w o, I w → I (set_oracle o w)) →
  keeps I yield.
Proof.
  intros Hstep Ho w Hw. unfold yield. destruct (oracle w) as [|sched o]; [done|].
  by apply run_procs_ind, Ho.
Qed.

Lemma yield_ret_inv w w' :
  yield w = Ret () w' →
  ∃ sched o, oracle w = sched :: o ∧ w' = run_procs sched (set_oracle o w).
Proof.
  unfold yield. destruct (oracle w) as [|sched o]; [done|]. intros [= <-]. eauto.
Qed.

(** A loop that returns has seen its condition fail. *)
Lemma MultiprocessingDispatcher_while_fuel_ret n cond w w' :
  MultiprocessingDispatcher.while_fuel n cond w = Ret () w' → cond w' = false.
Proof.
  revert w. induction n as [|n IH]; intros w; cbn [MultiprocessingDispatcher.while_fuel];
    destruct (cond w) eqn:Hc; try done; try by intros [= <-].
  intros (_ & w1 & _ & Hk)%bind_ret_inv. by apply IH in Hk.
Qed.

Lemma MultiprocessingDispatcher_while_ret cond w w' :
  MultiprocessingDispatcher.while cond w = Ret () w' → cond w' = false.
Proof. apply MultiprocessingDispatcher_while_fuel_ret. Qed.

Section Stable.
Context (I : World → Prop) (HI : stable I).

Lemma stable_run_procs sched w : I w → I (run_procs sched w).
Proof. apply run_procs_ind, HI. Qed.

Lemma keeps_yield : keeps I yield.
Proof. apply yield_keeps; apply HI. Qed.

Lemma keeps_set_tilesets new : keeps I (set_tilesets new).
Proof.
  unfold set_tilesets.
  apply keeps_bind; [apply keeps_get_manager | intros m].
  apply keeps_bind; [apply keeps_modify; intros; by apply HI | intros _].
  apply keeps_bind; [apply keeps_yield | intros _].
  apply keeps_bind; [apply keeps_modify; intros; by apply HI | intros _].
  apply keeps_bind; [apply keeps_yield | intros _].
  apply keeps_modify; intros; by apply HI.
Qed.

Lemma keeps_handle_messages_loop o w :
  I w → I (final (MultiprocessingDispatcher.handle_messages_loop o w)).
Proof.
  revert w. induction o as [|sched o IH]; intros w Hw; [done|].
  cbn [MultiprocessingDispatcher.handle_messages_loop].
  assert (I (run_procs sched (set_oracle o w))) as Hw1
    by by apply stable_run_procs, HI.
  destruct (result_queue (store (run_procs sched (set_oracle o w))))
    as [|r q] eqn:Hq; [done|].
  by apply IH, HI.
Qed.

Lemma keeps_handle_messages : keeps I MultiprocessingDispatcher._handle_messages.
Proof. intros w Hw. by apply keeps_handle_messages_loop. Qed.

Lemma keeps_while_fuel n cond : keeps I (MultiprocessingDispatcher.while_fuel n cond).
Proof.
  induction n as [|n IH]; intros w Hw; cbn [MultiprocessingDispatcher.while_fuel];
    destruct (cond w); try done.
  by apply (keeps_bind I); [apply keeps_handle_messages | |].
Qed.

Lemma keeps_while cond : keeps I (MultiprocessingDispatcher.while cond).
Proof. intros w Hw. by apply keeps_while_fuel. Qed.

Lemma keeps_dispatch tileset workitem :
  keeps I (MultiprocessingDispatcher.dispatch tileset workitem).
Proof.
  unfold MultiprocessingDispatcher.dispatch.
  apply keeps_bind; [apply keeps_get_manager | intros m].
  apply keeps_bind; [apply keeps_index | intros i].
  intros w Hw. pose proof (keeps_yield w Hw) as Hy.
  unfold put_job, bind, modify.
  destruct (yield w) as [[] w1| |]; [|done..].
  by apply keeps_while, HI.
Qed.

Lemma keeps_finish_work : keeps I MultiprocessingDispatcher.finish_work.
Proof. apply keeps_while. Qed.

(** The phase loop of [render_all], from phase [k] on: a phase after
    the first is entered with a counter that is not positive. *)
Lemma keeps_phases tilesetlist num_phases n k w :
  I w → k = 0%nat ∨ outstanding_jobs w ≤ 0 →
  I (final (for_each (seq k n) (λ phase,
       note MultiprocessingDispatcher.self (EvPhase phase) ;;
       for_each (roundrobin (work_iterators tilesetlist num_phases phase))
         (λ '(tileset, workitem),
            dispatch MultiprocessingDispatcher.self tileset workitem) ;;
       finish_work MultiprocessingDispatcher.self) w)).
Proof.
  revert k w. induction n as [|n IH]; intros k w Hw Hk; [done|].
  cbn [seq for_each note dispatch finish_work MultiprocessingDispatcher.self].
  rewrite bind_assoc, bind_modify, bind_assoc.
  assert (I (record (EvPhase k) w)) as Hw1 by by apply HI.
  assert (keeps I (for_each (roundrobin (work_iterators tilesetlist num_phases k))
            (λ '(tileset, workitem),
               MultiprocessingDispatcher.dispatch tileset workitem))) as Hd.
  { apply keeps_for_each. intros [tileset workitem]. apply keeps_dispatch. }
  specialize (Hd _ Hw1).
  apply final_bind_cases; [intros [] w2 Hw2 | done]. rewrite Hw2 in Hd.
  pose proof (keeps_finish_work w2 Hd) as Hf.
  apply final_bind_cases; [intros [] w3 Hw3 | done]. rewrite Hw3 in Hf.
  apply IH; [done|]. right.
  unfold MultiprocessingDispatcher.finish_work in Hw3.
  apply MultiprocessingDispatcher_while_ret in Hw3.
  apply bool_decide_eq_false in Hw3. lia.
Qed.

Lemma keeps_render_all tilesetlist :
  keeps I (render_all MultiprocessingDispatcher.self tilesetlist).
Proof.
  unfold render_all.
  apply keeps_bind; [apply keeps_set_tilesets | intros _].
  apply keeps_bind; [|intros _].
  { apply keeps_for_each. intros tileset. apply keeps_modify. intros; by apply HI. }
  apply keeps_bind; [apply keeps_py_max | intros n].
  intros w Hw. apply keeps_phases; auto.
Qed.

Lemma keeps_close : stable_close I → keeps I MultiprocessingDispatcher.close.
Proof.
  intros HC. unfold MultiprocessingDispatcher.close.
  apply keeps_bind; [|intros p].
  { intros w Hw. by destruct (pool w). }
  apply keeps_bind; [|intros _].
  { apply keeps_for_each. intros _. unfold put_job.
    apply keeps_bind; [apply keeps_yield | intros _].
    apply keeps_modify. intros; by apply HC. }
  apply keeps_bind; [apply keeps_get_manager | intros _].
  intros w Hw. by apply HC.
Qed.

Lemma keeps_exec c : stable_close I → keeps I (exec c).
Proof.
  intros HC. destruct c; cbn [exec].
  - apply keeps_render_all.
  - apply keeps_set_tilesets.
  - apply keeps_dispatch.
  - apply keeps_finish_work.
  - by apply keeps_close.
Qed.

(** A stable property that holds after [__init__] holds between any two
    calls, and at every point of every call. *)
Lemma idle_stable w :
  stable_close I →
  (∀ local_procs cpu_count, 0 < cpu_count →
     I (MultiprocessingDispatcher.init local_procs cpu_count)) →
  idle w → I w.
Proof.
  intros HC Hinit. induction 1 as [lp cpu Hcpu|w c w' _ IH Hc|w c e w' _ IH Hc|w sched _ IH|w o _ IH].
  - by apply Hinit.
  - pose proof (keeps_exec c HC w IH) as Hk. by rewrite Hc in Hk.
  - pose proof (keeps_exec c HC w IH) as Hk. by rewrite Hc in Hk.
  - by apply stable_run_procs.
  - by apply HI.
Qed.

Lemma reachable_stable w :
  stable_close I →
  (∀ local_procs cpu_count, 0 < cpu_count →
     I (MultiprocessingDispatcher.init local_procs cpu_count)) →
  reachable w → I w.
Proof.
  intros HC Hinit [w' Hw'|w' c Hw'].
  - by apply idle_stable.
  - apply keeps_exec; [done|]. by apply idle_stable.
Qed.
End Stable.
End Keeps.

(** ** The accounting of outstanding jobs *)

Section Accounting.
Context {TileSet WorkItem Result : Type} `{!TileSetOps TileSet WorkItem Result}.
Local Abbreviation World := (World TileSet WorkItem Result).
Local Abbreviation event := (event TileSet WorkItem Result).
Implicit Types (w : World) (t : list event) (e : event).

Lemma phase_barrier_nil : phase_barrier (@nil event).
Proof. intros t1 p t2 Ht. by destruct t1. Qed.

(** The barrier is kept by an event that is no start of a later phase,
    and by such a start when the counts agree. *)
Lemma phase_barrier_snoc t e :
  phase_barrier t →
  (∀ p, e = EvPhase (S p) → drained t = dispatched t) →
  phase_barrier (t ++ [e]).
Proof.
  intros Ht He t1 p t2 Heq.
  destruct t2 as [|x t2 _] using rev_ind.
  - apply app_inj_tail in Heq as [-> ->]. by apply (He p).
  - change (t1 ++ EvPhase (S p) :: t2 ++ [x])
      with (t1 ++ (EvPhase (S p) :: t2) ++ [x]) in Heq.
    rewrite (assoc_L (++)) in Heq. apply app_inj_tail in Heq as [-> _].
    by apply (Ht t1 p t2).
Qed.

Lemma accounted_stable : stable (accounted : World → Prop).
Proof.
  split.
  - intros w i (Hacc & Hfl & Hbar).
    pose proof (step_proc_frame w i) as (_ & Ho & _ & _ & _ & Ht & _).
    pose proof (step_proc_in_flight w i).
    unfold accounted. rewrite Ho, Ht. repeat split; [done | lia | done].
  - by intros w o H.
  - by intros w m H.
  - by intros w f H.
  - intros w j (Hacc & Hfl & Hbar).
    split_and!; [..| by apply phase_barrier_snoc];
      unfold in_flight, real_jobs, busy_procs, dispatched, drained in *; cbn;
      rewrite ?count_app; cbn; lia.
  - intros w r q (Hacc & Hfl & Hbar) Hq.
    split_and!; [..| by apply phase_barrier_snoc];
      unfold in_flight, real_jobs, busy_procs, dispatched, drained in *; cbn;
      rewrite Hq in Hfl; cbn in Hfl; rewrite ?count_app; cbn; lia.
  - intros w tileset (Hacc & Hfl & Hbar).
    split_and!; [..| by apply phase_barrier_snoc];
      unfold in_flight, real_jobs, busy_procs, dispatched, drained in *; cbn;
      rewrite ?count_app; cbn; lia.
  - intros w p (Hacc & Hfl & Hbar) Hp.
    split_and!.
    + unfold dispatched, drained in *; cbn; rewrite ?count_app; cbn; lia.
    + done.
    + apply phase_barrier_snoc; [done|].
      intros p' [= ->]. destruct Hp as [|Hp]; [done | lia].
Qed.

Lemma accounted_stable_close : stable_close (accounted : World → Prop).
Proof.
  split.
  - intros w (Hacc & Hfl & Hbar).
    split_and!; [done | | done].
    unfold in_flight, real_jobs, busy_procs in *; cbn; rewrite ?count_app; cbn; lia.
  - by intros w H.
Qed.

Lemma accounted_init local_procs0 cpu_count :
  accounted (MultiprocessingDispatcher.init local_procs0 cpu_count : World).
Proof.
  unfold accounted, in_flight. cbn. repeat split; [|apply phase_barrier_nil].
  unfold busy_procs. generalize (Z.to_nat (if decide (local_procs0 ≤ 0) then cpu_count else local_procs0)).
  intros n. induction n as [|n IH]; cbn in *; lia.
Qed.

Lemma reachable_accounted w : reachable w → accounted w.
Proof.
  apply reachable_stable.
  - apply accounted_stable.
  - apply accounted_stable_close.
  - intros. apply accounted_init.
Qed.
End Accounting.

(** ** The loops of the dispatcher use the oracle up *)

Section Fuel.
Context {TileSet WorkItem Result : Type} `{!TileSetOps TileSet WorkItem Result}.
Local Abbreviation World := (World TileSet WorkItem Result).
Implicit Types (w : World).

(** A call of [_handle_messages] that returns has used at least one entry
    of the oracle. *)
Lemma handle_messages_loop_oracle o w w' :
  MultiprocessingDispatcher.handle_messages_loop o w = Ret () w' →
  (length (oracle w') < length o)%nat.
Proof.
  revert w. induction o as [|sched o IH]; intros w; [done|].
  cbn [MultiprocessingDispatcher.handle_messages_loop].
  destruct (result_queue (store (run_procs sched (set_oracle o w)))) as [|r q].
  - intros [= <-]. rewrite run_procs_oracle. cbn. lia.
  - intros Hw'%IH. cbn. lia.
Qed.

Lemma while_fuel_enough n m cond w :
  (length (oracle w) < n)%nat → (length (oracle w) < m)%nat →
  MultiprocessingDispatcher.while_fuel n cond w
  = MultiprocessingDispatcher.while_fuel m cond w.
Proof.
  revert m w. induction n as [|n IH]; intros [|m] w Hn Hm; try lia.
  cbn [MultiprocessingDispatcher.while_fuel]. destruct (cond w); [|done].
  unfold bind, MultiprocessingDispatcher._handle_messages.
  destruct (MultiprocessingDispatcher.handle_messages_loop (oracle w) w)
    as [[] w1| |] eqn:Hh; [|done..].
  apply handle_messages_loop_oracle in Hh. apply IH; lia.
Qed.

(** The loop equation of [while cond: self._handle_messages()]. *)
Lemma while_unfold cond w :
  MultiprocessingDispatcher.while cond w
  = if cond w
    then (MultiprocessingDispatcher._handle_messages ;;
          MultiprocessingDispatcher.while cond) w
    else Ret () w.
Proof.
  unfold MultiprocessingDispatcher.while at 1.
  cbn [MultiprocessingDispatcher.while_fuel]. destruct (cond w); [|done].
  unfold bind, MultiprocessingDispatcher._handle_messages.
  destruct (MultiprocessingDispatcher.handle_messages_loop (oracle w) w)
    as [[] w1| |] eqn:Hh; [|done..].
  apply handle_messages_loop_oracle in Hh.
  unfold MultiprocessingDispatcher.while. apply while_fuel_enough; lia.
Qed.
End Fuel.

(** ** The claims *)

Section Claims.
Context {TileSet WorkItem Result : Type} `{!TileSetOps TileSet WorkItem Result}.
Local Abbreviation World := (World TileSet WorkItem Result).
Local Abbreviation Process := (MultiprocessingDispatcherProcess.t TileSet WorkItem).
Local Abbreviation Store := (Store TileSet WorkItem Result).
Implicit Types (w : World) (p : Process) (s : Store).


(** C1, the phase barrier. For a dispatcher that is between two calls,
    in every run of [render_all] on a list that is not empty, whether the
    run has ended or not, every start of a phase after the first finds as
    many results counted as jobs were dispatched before it; and
    [finish_work], which [render_all] calls at the end of every phase,
    returns only with the counter at 0, when no job is left on a queue or
    with a worker. *)
Theorem phase_barrier_render_all w tilesetlist :
  idle w → tilesetlist ≠ [] →
  phase_barrier (trace (final (render_all MultiprocessingDispatcher.self tilesetlist w)))
  ∧ match MultiprocessingDispatcher.finish_work w with
    | Ret _ w' => outstanding_jobs w' = 0 ∧ in_flight w' = 0%nat
    | _ => True
    end.
Proof.
  intros Hw _. split.
  - by apply (reachable_accounted _ (reachable_in w (CallRenderAll tilesetlist) Hw)).
  - destruct (MultiprocessingDispatcher.finish_work w) as [[] w'| |] eqn:Hf; [|done..].
    assert (reachable w') as (Hacc & Hfl & _)%reachable_accounted.
    { rewrite <- (f_equal final Hf : final _ = w'). by apply (reachable_in w CallFinishWork). }
    unfold MultiprocessingDispatcher.finish_work in Hf.
    apply MultiprocessingDispatcher_while_ret, bool_decide_eq_false in Hf. lia.
Qed.

(** C5, the backpressure bound. When [dispatch] returns, the counter of
    outstanding jobs is at most [local_procs * 10], and [local_procs] is
    what it was. *)
Theorem backpressure_bound w tileset workitem w' :
  MultiprocessingDispatcher.dispatch tileset workitem w = Ret () w' →
  outstanding_jobs w' ≤ local_procs w' * 10 ∧ local_procs w' = local_procs w.
Proof.
  intros Hd. split.
  - unfold MultiprocessingDispatcher.dispatch in Hd.
    repeat (apply bind_ret_inv in Hd as (? & ? & _ & Hd)).
    apply MultiprocessingDispatcher_while_ret, bool_decide_eq_false in Hd. lia.
  - assert (stable (λ w0 : World, local_procs w0 = local_procs w)) as HI.
    { split; try done. intros w0 i <-. apply step_proc_frame. }
    pose proof (keeps_dispatch _ HI tileset workitem w eq_refl) as Hk.
    by rewrite Hd in Hk.
Qed.

(** C7, resolution failure. [dispatch] of a tileset that is not in the
    list published last raises [ValueError] and leaves everything as it
    was: no job is put on the queue and the counter is not changed. *)
Theorem dispatch_unknown_tileset w m tileset workitem :
  manager w = Some m → tileset ∉ tilesets m →
  MultiprocessingDispatcher.dispatch tileset workitem w = Raise ValueError w.
Proof.
  intros Hm Hnot. unfold MultiprocessingDispatcher.dispatch, bind, get_manager.
  rewrite Hm. unfold index.
  destruct (list_find _ (tilesets m)) as [[i y]|] eqn:Hfind; [|done].
  apply list_find_Some in Hfind as (Hi & -> & _).
  by apply list_elem_of_lookup_2 in Hi.
Qed.
(** What a schedule of worker steps leaves alone. *)
Lemma run_procs_frame sched w :
  local_procs (run_procs sched w) = local_procs w
  ∧ outstanding_jobs (run_procs sched w) = outstanding_jobs w
  ∧ manager (run_procs sched w) = manager w
  ∧ pool (run_procs sched w) = pool w
  ∧ trace (run_procs sched w) = trace w
  ∧ tileset_data (store (run_procs sched w)) = tileset_data (store w)
  ∧ length (procs (run_procs sched w)) = length (procs w).
Proof.
  apply (run_procs_ind (λ w', local_procs w' = local_procs w
    ∧ outstanding_jobs w' = outstanding_jobs w
    ∧ manager w' = manager w
    ∧ pool w' = pool w
    ∧ trace w' = trace w
    ∧ tileset_data (store w') = tileset_data (store w)
    ∧ length (procs w') = length (procs w))); [|done].
  intros w0 i (H1 & H2 & H3 & H4 & H5 & H6 & H7).
  pose proof (step_proc_frame w0 i) as (F1 & F2 & F3 & F4 & _ & F5 & F6 & F7).
  split_and!; congruence.
Qed.

Lemma run_procs_sentinels sched w :
  (sentinels (job_queue (store (run_procs sched w))) + returned_procs (procs (run_procs sched w))
   = sentinels (job_queue (store w)) + returned_procs (procs w))%nat.
Proof.
  apply (run_procs_ind (λ w',
    (sentinels (job_queue (store w')) + returned_procs (procs w')
     = sentinels (job_queue (store w)) + returned_procs (procs w))%nat)); [|done].
  intros w0 i <-. apply step_proc_sentinels.
Qed.

(** A publish that is not cut short returns, with the new list and the
    next version stored, and touches neither the counter nor the
    history. *)
Lemma set_tilesets_ret w m new :
  manager w = Some m → (2 ≤ length (oracle w))%nat →
  ∃ w', set_tilesets new w = Ret () w'
    ∧ tileset_data (store w') = (new, tileset_version m + 1)
    ∧ manager w' = Some {| tilesets := new; tileset_version := tileset_version m + 1 |}
    ∧ trace w' = trace w
    ∧ outstanding_jobs w' = outstanding_jobs w.
Proof.
  intros Hm Ho. destruct (oracle w) as [|s1 [|s2 o]] eqn:Hw; cbn in Ho; try lia.
  unfold set_tilesets, bind at 1, get_manager. rewrite Hm. rewrite bind_modify.
  unfold bind at 1, yield at 1. cbn [oracle set_manager]. rewrite Hw.
  rewrite bind_modify. unfold bind at 1, yield at 1. cbn [oracle set_store].
  rewrite run_procs_oracle. cbn [oracle set_oracle]. unfold modify.
  eexists. split; [reflexivity|].
  match goal with |- context [run_procs s2 ?x] =>
    pose proof (run_procs_frame s2 x) as (_ & F2 & F3 & _ & F5 & F6 & _) end.
  match goal with |- context [run_procs s1 ?x] =>
    pose proof (run_procs_frame s1 x) as (_ & G2 & G3 & _ & G5 & G6 & _) end.
  cbn in *. rewrite F2, F3, F5, F6, G2, G3, G5. by cbn.
Qed.

(** C10, the empty tileset list. [render_all] never returns normally on
    the empty list; when the publish is not cut short it raises
    [ValueError] in the state the publish ends in: the empty list is
    published under the next version, and nothing was dispatched. *)
Theorem render_all_empty_list w m :
  manager w = Some m → (2 ≤ length (oracle w))%nat →
  (∀ w', render_all MultiprocessingDispatcher.self [] w ≠ Ret () w')
  ∧ ∃ w', render_all MultiprocessingDispatcher.self [] w = Raise ValueError w'
      ∧ set_tilesets [] w = Ret () w'
      ∧ tileset_data (store w') = ([], tileset_version m + 1)
      ∧ trace w' = trace w
      ∧ outstanding_jobs w' = outstanding_jobs w.
Proof.
  intros Hm Ho.
  destruct (set_tilesets_ret w m [] Hm Ho) as (w' & Hs & Htd & _ & Ht & Hout).
  assert (render_all MultiprocessingDispatcher.self [] w = Raise ValueError w') as Hr.
  { unfold render_all. cbn [setup_tilesets MultiprocessingDispatcher.self].
    unfold MultiprocessingDispatcher.setup_tilesets, bind at 1. by rewrite Hs. }
  split; [intros w''; by rewrite Hr | eauto 10].
Qed.


(** A step of a worker leaves its cache alone or replaces it by the
    stored pair. *)
Lemma run_cache p s :
  cache (MultiprocessingDispatcherProcess.run p s).1 = cache p
  ∨ cache (MultiprocessingDispatcherProcess.run p s).1 = tileset_data s.
Proof.
  unfold MultiprocessingDispatcherProcess.run, cache,
    MultiprocessingDispatcherProcess.update_tilesets, get_tilesets.
  destruct p as [ts v [| |[[tv ti] wi]|[[tv ti] wi]| |e]]; cbn.
  - right. by destruct (tileset_data s).
  - left. by destruct (job_queue s) as [|[j|] q].
  - destruct (tileset_data s) as [l n]. repeat case_decide; cbn; auto.
  - left. destruct (ts !! ti) as [t|]; [|done]. by destruct (do_work t wi).
  - by left.
  - by left.
Qed.

(** C3, as the code has it. [set_tilesets] writes the list and then the
    version, in two accesses to the shared pair. At whatever point of a
    publish a worker takes its snapshot, what it has cached afterwards is
    what it had cached before, the pair stored before the publish, the new
    list with the version stored before, or the new list with the new
    version; the stored list is written before the stored version, so the
    list stored before is never seen with the new version. *)
Theorem publish_is_ordered w m new i p' :
  manager w = Some m →
  procs (final (set_tilesets new w)) !! i = Some p' →
  (∃ p, procs w !! i = Some p ∧ cache p' = cache p)
  ∨ cache p' = tileset_data (store w)
  ∨ cache p' = (new, (tileset_data (store w)).2)
  ∨ cache p' = (new, tileset_version m + 1).
Proof.
  intros Hm. revert i p'.
  set (allowed := λ c : list TileSet * Z,
    c = tileset_data (store w) ∨ c = (new, (tileset_data (store w)).2)
    ∨ c = (new, tileset_version m + 1)).
  set (J := λ w0 : World, allowed (tileset_data (store w0))
    ∧ ∀ i p', procs w0 !! i = Some p' →
        (∃ p, procs w !! i = Some p ∧ cache p' = cache p) ∨ allowed (cache p')).
  set (J' := λ w0 : World, J w0 ∧ (tileset_data (store w0)).1 = new).
  assert (∀ w0 i, J w0 → J (step_proc w0 i)) as Hstep.
  { intros w0 i [Htd Hps]. unfold step_proc.
    destruct (procs w0 !! i) as [p|] eqn:Hp; [|done].
    pose proof (run_cache p (store w0)) as Hc.
    pose proof (run_tileset_data p (store w0)) as Hd.
    destruct (MultiprocessingDispatcherProcess.run p (store w0)) as [q s']. cbn in *.
    split; cbn; [by rewrite Hd|].
    intros j q' [(-> & -> & _)|(_ & Hj)]%list_lookup_insert_Some; [|by eauto].
    destruct Hc as [->| ->]; [by eauto | by right]. }
  assert (∀ w0 i, J' w0 → J' (step_proc w0 i)) as Hstep'.
  { intros w0 i [HJ Hn]. split; [by apply Hstep|].
    pose proof (step_proc_frame w0 i) as (_ & _ & _ & _ & _ & _ & -> & _). done. }
  enough (J (final (set_tilesets new w))) as [_ HJ].
  { intros i p' Hp. destruct (HJ i p' Hp) as [|H]; [by left | right; exact H]. }
  unfold set_tilesets, bind at 1, get_manager. rewrite Hm. rewrite bind_modify.
  assert (J (set_manager (Some {| tilesets := new; tileset_version := tileset_version m + 1 |}) w))
    as HJ1.
  { split; [by left | eauto]. }
  pose proof (yield_keeps J Hstep (λ _ _ H, H) _ HJ1) as HJ2.
  apply final_bind_cases; [intros [] w2 Hw2 | done]. rewrite Hw2 in HJ2. cbn in HJ2.
  rewrite bind_modify.
  assert (J' (set_store (set_tileset_data (λ d, (new, d.2))) w2)) as HJ3.
  { destruct HJ2 as [Htd Hps]. split; [split|done]; [|done]. cbn.
    destruct Htd as [->|[->| ->]]; cbn; unfold allowed; auto. }
  pose proof (yield_keeps J' Hstep' (λ _ _ H, H) _ HJ3) as HJ4.
  apply final_bind_cases; [intros [] w4 Hw4 | apply HJ4]. rewrite Hw4 in HJ4.
  destruct HJ4 as [[Htd Hps] Hn]. cbn in *. split; [|done]. cbn.
  rewrite Hn. right; by right.
Qed.

(** A worker that is reconciled stays so. *)
Lemma run_reconciled p s :
  reconciled p → reconciled (MultiprocessingDispatcherProcess.run p s).1.
Proof.
  unfold reconciled, MultiprocessingDispatcherProcess.run,
    MultiprocessingDispatcherProcess.update_tilesets, get_tilesets.
  destruct p as [ts v [| |[[tv ti] wi]|[[tv ti] wi]| |e]]; cbn; intros Hp.
  - by destruct (tileset_data s).
  - by destruct (job_queue s) as [|[j|] q].
  - destruct (tileset_data s) as [l n]. repeat case_decide; cbn in *; try done.
    + by intros ??? [= <- _ _].
    + intros ??? [= <- _ _]. by destruct (decide (tv = v)).
  - destruct (ts !! ti) as [t|]; [|done]. by destruct (do_work t wi).
  - done.
  - done.
Qed.

Lemma reachable_reconciled w i p :
  reachable w → procs w !! i = Some p → reconciled p.
Proof.
  intros Hw. revert i p.
  apply (reachable_stable (λ w0 : World, ∀ i p, procs w0 !! i = Some p → reconciled p));
    [| |intros lp cpu _|done].
  - split; try done. intros w0 i Hw0 j q. unfold step_proc.
    destruct (procs w0 !! i) as [p|] eqn:Hp; [|by apply Hw0].
    pose proof (run_reconciled p (store w0) (Hw0 i p Hp)) as Hr.
    destruct (MultiprocessingDispatcherProcess.run p (store w0)) as [p1 s1]. cbn.
    intros [(-> & -> & _)|(_ & Hj)]%list_lookup_insert_Some; [done | by eapply Hw0].
  - by split.
  - intros i p [-> _]%lookup_replicate. done.
Qed.

(** C6, version reconciliation in the worker. For a worker that has
    pulled the job [(tv, ti, workitem)]: its next step touches no shared
    object but the snapshot; when [tv] is the cached version the cache is
    kept and the job is taken up; otherwise the cache is replaced, once,
    by the stored pair, and the job is taken up when the new version is
    [tv], while the worker dies of the failed assertion when it is not. A
    dead worker takes no further step, so the job is not tried again. The
    job is done on the cached list: the work is done by the tileset at
    index [ti] of the cache, and at every point of every run a worker that
    has taken up a job holds the version stamped on it. *)
Theorem worker_version_reconciliation p s tv ti workitem :
  MultiprocessingDispatcherProcess.at_pc p
    = MultiprocessingDispatcherProcess.Unpacked (tv, ti, workitem) →
  let p' := (MultiprocessingDispatcherProcess.run p s).1 in
  (MultiprocessingDispatcherProcess.run p s).2 = s
  ∧ (tv = MultiprocessingDispatcherProcess.tileset_version p →
       p' = MultiprocessingDispatcherProcess.goto
              (MultiprocessingDispatcherProcess.Working (tv, ti, workitem)) p)
  ∧ (tv ≠ MultiprocessingDispatcherProcess.tileset_version p →
       cache p' = get_tilesets s
       ∧ (tv = (get_tilesets s).2 →
            MultiprocessingDispatcherProcess.at_pc p'
            = MultiprocessingDispatcherProcess.Working (tv, ti, workitem))
       ∧ (tv ≠ (get_tilesets s).2 →
            MultiprocessingDispatcherProcess.at_pc p'
            = MultiprocessingDispatcherProcess.Died AssertionError
            ∧ ∀ s', MultiprocessingDispatcherProcess.run p' s' = (p', s')))
  ∧ (∀ p0 s0 tileset result,
       MultiprocessingDispatcherProcess.at_pc p0
         = MultiprocessingDispatcherProcess.Working (tv, ti, workitem) →
       MultiprocessingDispatcherProcess.tilesets p0 !! ti = Some tileset →
       do_work tileset workitem = Some result →
       MultiprocessingDispatcherProcess.run p0 s0
       = (MultiprocessingDispatcherProcess.goto MultiprocessingDispatcherProcess.Polling p0,
          set_result_queue (λ q, q ++ [result]) s0))
  ∧ (∀ w i p0, reachable w → procs w !! i = Some p0 →
       MultiprocessingDispatcherProcess.at_pc p0
         = MultiprocessingDispatcherProcess.Working (tv, ti, workitem) →
       MultiprocessingDispatcherProcess.tileset_version p0 = tv).
Proof.
  intros Hpc. destruct p as [ts v l]. cbn in Hpc. subst l.
  unfold MultiprocessingDispatcherProcess.run, cache,
    MultiprocessingDispatcherProcess.update_tilesets. cbn.
  destruct (get_tilesets s) as [l n] eqn:Hg. cbn.
  split_and!.
  - by repeat case_decide.
  - intros ->. by rewrite decide_False by auto.
  - intros Hne. rewrite decide_True by done. split_and!.
    + by case_decide.
    + intros ->. by rewrite decide_True.
    + intros Hn. by rewrite decide_False.
  - intros p0 s0 tileset result Hp0 Ht Hw.
    unfold MultiprocessingDispatcherProcess.run. by rewrite Hp0, Ht, Hw.
  - intros w i p0 Hw Hp0 Hpc. by apply (reachable_reconciled w i p0 Hw Hp0 tv ti workitem).
Qed.

(** Putting one sentinel per element of [p]: every sentinel put is on the
    queue or has made a worker return. *)
Lemma for_each_put_sentinel (workers : list nat) w w' :
  for_each workers (λ _, put_job None) w = Ret () w' →
  (sentinels (job_queue (store w')) + returned_procs (procs w')
   = sentinels (job_queue (store w)) + returned_procs (procs w) + length workers)%nat
  ∧ pool w' = pool w ∧ manager w' = manager w.
Proof.
  revert w. induction workers as [|x workers IH]; intros w; cbn [for_each].
  - intros [= <-]. cbn. split; [lia | done].
  - intros ([] & w1 & Hput & Hrest)%bind_ret_inv.
    apply IH in Hrest as (Hsum & Hp' & Hm'). rewrite Hp', Hm'.
    apply bind_ret_inv in Hput as ([] & w0 & (sched & o & _ & ->)%yield_ret_inv & [= <-]).
    pose proof (run_procs_sentinels sched (set_oracle o w)) as Hs.
    pose proof (run_procs_frame sched (set_oracle o w)) as (_ & _ & Hm & Hp & _).
    unfold sentinels, returned_procs in *. cbn in *.
    rewrite count_app in Hsum. cbn in Hsum. split; [lia | done].
Qed.

Lemma reachable_pool w (workers : list nat) :
  reachable w → pool w = Some workers →
  length workers = Z.to_nat (local_procs w) ∧ length workers = length (procs w).
Proof.
  intros Hw. revert workers.
  apply (reachable_stable (λ w0 : World, ∀ l : list nat, pool w0 = Some l →
    length l = Z.to_nat (local_procs w0) ∧ length l = length (procs w0)));
    [| |intros lp cpu _|done].
  - split; try done. intros w0 i Hw0 l.
    pose proof (step_proc_frame w0 i) as (-> & _ & _ & -> & _ & _ & _ & ->). apply Hw0.
  - by split.
  - intros l [= <-]. cbn. by rewrite length_seq, length_replicate.
Qed.

(** With an oracle entry for every put, the sentinels are all put. *)
Lemma for_each_put_sentinel_ret (workers : list nat) w :
  (length workers ≤ length (oracle w))%nat →
  ∃ w', for_each workers (λ _, put_job None) w = Ret () w'.
Proof.
  revert w. induction workers as [|x workers IH]; intros w Hlen; [by eexists|].
  destruct (oracle w) as [|sched o] eqn:Ho; cbn in Hlen; [lia|].
  cbn [for_each]. unfold put_job, bind at 1 2, yield at 1. rewrite Ho.
  unfold modify at 1. apply IH. cbn. rewrite run_procs_oracle. cbn. lia.
Qed.

(** C9, the shutdown protocol. [close] on a dispatcher that is open, run
    with a scheduling decision for every put, returns and has put one
    sentinel on the job queue for every worker of the pool: the sentinels on
    the queue and the workers that have returned are, together, as many more
    than before as the pool has workers, which is [local_procs] many; the
    pool and the manager are released. A worker that pulls a sentinel
    returns from its loop at once, with nothing put on the result queue, and
    takes no step after that. *)
Theorem shutdown_protocol w (workers : list nat) m :
  pool w = Some workers → manager w = Some m →
  (length workers ≤ length (oracle w))%nat →
  (∃ w', MultiprocessingDispatcher.close w = Ret () w'
     ∧ (sentinels (job_queue (store w')) + returned_procs (procs w')
        = sentinels (job_queue (store w)) + returned_procs (procs w) + length workers)%nat
     ∧ pool w' = None ∧ manager w' = None)
  ∧ (reachable w →
       length workers = Z.to_nat (local_procs w) ∧ length workers = length (procs w))
  ∧ (∀ pr s q,
       MultiprocessingDispatcherProcess.at_pc pr = MultiprocessingDispatcherProcess.Polling →
       job_queue s = None :: q →
       let pr' := MultiprocessingDispatcherProcess.goto
                    MultiprocessingDispatcherProcess.Returned pr in
       MultiprocessingDispatcherProcess.run pr s = (pr', set_job_queue (λ _, q) s)
       ∧ ∀ s', MultiprocessingDispatcherProcess.run pr' s' = (pr', s')).
Proof.
  intros Hp Hm Hlen. split_and!.
  - destruct (for_each_put_sentinel_ret workers w Hlen) as [w1 Hw1].
    pose proof (for_each_put_sentinel workers w w1 Hw1) as (Hsum & Hp1 & Hm1).
    exists (set_pool None (set_manager None w1)). split; [|done].
    unfold MultiprocessingDispatcher.close, bind at 1. rewrite Hp.
    unfold bind at 1. rewrite Hw1. unfold bind, get_manager.
    by rewrite Hm1, Hm.
  - intros Hw. by apply reachable_pool.
  - intros pr s q Hpc Hq. unfold MultiprocessingDispatcherProcess.run.
    by rewrite Hpc, Hq.
Qed.

(** C8, round-robin fairness. The merge of any sequences is one element
    of every sequence that has one, in input order, followed by the merge
    of what is left of these sequences, and it emits every element once;
    for three tilesets that have 3, 1 and 2 work items in a phase, the
    tilesets are served in the order 0, 1, 2, 0, 2, 0. *)
Theorem roundrobin_fairness (X Y Z : TileSet) phase :
  Z.of_nat phase < get_num_phases X →
  Z.of_nat phase < get_num_phases Y →
  Z.of_nat phase < get_num_phases Z →
  length (iterate_work_items X phase) = 3%nat →
  length (iterate_work_items Y phase) = 1%nat →
  length (iterate_work_items Z phase) = 2%nat →
  map fst (roundrobin (work_iterators [X; Y; Z] (map get_num_phases [X; Y; Z]) phase))
  = [X; Y; Z; X; Z; X]
  ∧ ∀ (A : Type) (ls : list (list A)),
      roundrobin ls = heads ls ++ roundrobin (tails ls)
      ∧ roundrobin ls ≡ₚ concat ls.
Proof.
  intros HX HY HZ H3 H1 H2. split.
  - unfold work_iterators. cbn. rewrite !decide_True by done.
    destruct (iterate_work_items X phase) as [|x1 [|x2 [|x3 [|]]]]; try done.
    destruct (iterate_work_items Y phase) as [|y1 [|]]; try done.
    destruct (iterate_work_items Z phase) as [|z1 [|z2 [|]]]; try done.
  - intros A ls. split; [apply roundrobin_unfold | apply roundrobin_perm].
Qed.
End Claims.

(** ** The claims on the concrete tilesets *)

(** The state a run of the example is started from is one a dispatcher can
    be in between calls. *)
Lemma idle_fresh o : idle (set_oracle o Example.fresh).
Proof. apply idle_oracle. apply (idle_init 2 1). lia. Qed.

Lemma idle_start : idle Example.start.
Proof. apply idle_fresh. Qed.


Lemma phase_barrier_render_all_witness :
  idle Example.start
  ∧ [Example.A; Example.B] ≠ []
  ∧ phase_barrier
      (trace (final (render_all MultiprocessingDispatcher.self [Example.A; Example.B]
                       Example.start)))
  ∧ match MultiprocessingDispatcher.finish_work Example.start with
    | Ret _ w' => outstanding_jobs w' = 0 ∧ in_flight w' = 0%nat
    | _ => True
    end.
Proof.
  assert ([Example.A; Example.B] ≠ []) as Hne by discriminate.
  split; [apply idle_start|]. split; [exact Hne|].
  exact (phase_barrier_render_all Example.start _ idle_start Hne).
Defined.

Lemma backpressure_bound_witness :
  MultiprocessingDispatcher.dispatch Example.A 10%nat
    (set_oracle [[]; [0; 0; 0; 0]; []]%nat Example.loaded)
  = Ret () (final Example.overflow)
  ∧ outstanding_jobs (final Example.overflow) ≤ local_procs (final Example.overflow) * 10
  ∧ local_procs (final Example.overflow)
    = local_procs (set_oracle [[]; [0; 0; 0; 0]; []]%nat Example.loaded).
Proof.
  assert (MultiprocessingDispatcher.dispatch Example.A 10%nat
            (set_oracle [[]; [0; 0; 0; 0]; []]%nat Example.loaded)
          = Ret () (final Example.overflow)) as H by (vm_compute; reflexivity).
  split; [exact H | exact (backpressure_bound _ _ _ _ H)].
Defined.

Lemma dispatch_unknown_tileset_witness :
  manager Example.loaded = Some {| tilesets := [Example.A]; tileset_version := 1 |}
  ∧ (Example.B ∉ [Example.A])
  ∧ MultiprocessingDispatcher.dispatch Example.B 7%nat Example.loaded
    = Raise ValueError Example.loaded.
Proof.
  assert (manager Example.loaded
          = Some {| tilesets := [Example.A]; tileset_version := 1 |}) as Hm
    by (vm_compute; reflexivity).
  assert (Example.B ∉ [Example.A]) as Hn.
  { intros H. apply list_elem_of_In in H. destruct H as [H|[]]. discriminate H. }
  split; [exact Hm|]. split; [exact Hn|].
  exact (dispatch_unknown_tileset _ _ Example.B 7%nat Hm Hn).
Defined.

Lemma render_all_empty_list_witness :
  manager (set_oracle (Example.eager 3) Example.fresh)
  = Some {| tilesets := []; tileset_version := 0 |}
  ∧ (2 ≤ length (oracle (set_oracle (Example.eager 3) Example.fresh)))%nat
  ∧ (∀ w', render_all MultiprocessingDispatcher.self []
             (set_oracle (Example.eager 3) Example.fresh) ≠ Ret () w')
  ∧ ∃ w', render_all MultiprocessingDispatcher.self []
            (set_oracle (Example.eager 3) Example.fresh) = Raise ValueError w'
      ∧ set_tilesets [] (set_oracle (Example.eager 3) Example.fresh) = Ret () w'
      ∧ tileset_data (store w') = ([], 0 + 1)
      ∧ trace w' = trace (set_oracle (Example.eager 3) Example.fresh)
      ∧ outstanding_jobs w'
        = outstanding_jobs (set_oracle (Example.eager 3) Example.fresh).
Proof.
  assert (manager (set_oracle (Example.eager 3) Example.fresh)
          = Some {| tilesets := []; tileset_version := 0 |}) as Hm by reflexivity.
  assert (2 ≤ length (oracle (set_oracle (Example.eager 3) Example.fresh)))%nat as Ho
    by (vm_compute; lia).
  split; [exact Hm|]. split; [exact Ho|].
  exact (render_all_empty_list _ _ Hm Ho).
Defined.



(** C3, as specified, fails: the worker that takes its snapshot between the
    two writes caches the new list with the old version, which is neither
    the pair stored before the publish nor the pair stored after it. *)
Lemma publish_is_atomic_fails : ¬ publish_is_atomic Example.racing [Example.A].
Proof.
  intros H.
  specialize (H 0%nat
    {| MultiprocessingDispatcherProcess.tilesets := [Example.A];
       MultiprocessingDispatcherProcess.tileset_version := 0;
       MultiprocessingDispatcherProcess.at_pc := MultiprocessingDispatcherProcess.Polling |}
    eq_refl).
  destruct H as [(p & Hp & Hc)|[Hc|Hc]].
  - vm_compute in Hp. injection Hp as <-. vm_compute in Hc. discriminate Hc.
  - vm_compute in Hc. discriminate Hc.
  - vm_compute in Hc. discriminate Hc.
Qed.

Lemma publish_is_ordered_witness :
  manager Example.racing = Some {| tilesets := []; tileset_version := 0 |}
  ∧ procs (final (set_tilesets [Example.A] Example.racing)) !! 0%nat
    = Some {| MultiprocessingDispatcherProcess.tilesets := [Example.A];
              MultiprocessingDispatcherProcess.tileset_version := 0;
              MultiprocessingDispatcherProcess.at_pc :=
                MultiprocessingDispatcherProcess.Polling |}
  ∧ ((∃ p, procs Example.racing !! 0%nat = Some p ∧ ([Example.A], 0) = cache p)
     ∨ ([Example.A], 0) = tileset_data (store Example.racing)
     ∨ ([Example.A], 0) = ([Example.A], (tileset_data (store Example.racing)).2)
     ∨ ([Example.A], 0) = ([Example.A], 0 + 1)).
Proof.
  split; [reflexivity|]. split; [reflexivity|].
  exact (publish_is_ordered Example.racing _ [Example.A] 0%nat _ eq_refl eq_refl).
Defined.

Lemma worker_version_reconciliation_witness :
  MultiprocessingDispatcherProcess.at_pc Example.stale
  = MultiprocessingDispatcherProcess.Unpacked (1, 0%nat, 5%nat)
  ∧ cache (MultiprocessingDispatcherProcess.run Example.stale (Example.shelf 2)).1
    = get_tilesets (Example.shelf 2)
  ∧ MultiprocessingDispatcherProcess.at_pc
      (MultiprocessingDispatcherProcess.run Example.stale (Example.shelf 2)).1
    = MultiprocessingDispatcherProcess.Died AssertionError
  ∧ MultiprocessingDispatcherProcess.at_pc
      (MultiprocessingDispatcherProcess.run Example.stale (Example.shelf 1)).1
    = MultiprocessingDispatcherProcess.Working (1, 0%nat, 5%nat).
Proof.
  assert (MultiprocessingDispatcherProcess.at_pc Example.stale
          = MultiprocessingDispatcherProcess.Unpacked (1, 0%nat, 5%nat)) as Hpc
    by reflexivity.
  split; [exact Hpc|].
  pose proof (worker_version_reconciliation Example.stale (Example.shelf 2) _ _ _ Hpc)
    as (_ & _ & H2 & _).
  pose proof (worker_version_reconciliation Example.stale (Example.shelf 1) _ _ _ Hpc)
    as (_ & _ & H1 & _).
  assert ((1 : Z) ≠ MultiprocessingDispatcherProcess.tileset_version Example.stale) as Hne
    by discriminate.
  destruct (H2 Hne) as (Hc & _ & Hd). destruct (H1 Hne) as (_ & Hw & _).
  split; [exact Hc|]. split.
  - apply Hd. discriminate.
  - apply Hw. reflexivity.
Defined.

Lemma shutdown_protocol_witness :
  pool (set_oracle (Example.eager 2) Example.fresh) = Some [0; 1]%nat
  ∧ manager (set_oracle (Example.eager 2) Example.fresh)
    = Some {| tilesets := []; tileset_version := 0 |}
  ∧ (length [0; 1]%nat ≤ length (oracle (set_oracle (Example.eager 2) Example.fresh)))%nat
  ∧ ∃ w', MultiprocessingDispatcher.close (set_oracle (Example.eager 2) Example.fresh)
          = Ret () w'
      ∧ (sentinels (job_queue (store w')) + returned_procs (procs w')
         = sentinels (job_queue (store (set_oracle (Example.eager 2) Example.fresh)))
           + returned_procs (procs (set_oracle (Example.eager 2) Example.fresh))
           + length [0; 1]%nat)%nat
      ∧ pool w' = None ∧ manager w' = None.
Proof.
  assert (length [0; 1]%nat
          ≤ length (oracle (set_oracle (Example.eager 2) Example.fresh)))%nat as Hlen
    by (vm_compute; lia).
  split; [reflexivity|]. split; [reflexivity|]. split; [exact Hlen|].
  exact (proj1 (shutdown_protocol (set_oracle (Example.eager 2) Example.fresh) [0; 1]%nat _
                  eq_refl eq_refl Hlen)).
Defined.

Lemma roundrobin_fairness_witness :
  Z.of_nat 0 < get_num_phases Example.X
  ∧ Z.of_nat 0 < get_num_phases Example.Y
  ∧ Z.of_nat 0 < get_num_phases Example.Z'
  ∧ length (iterate_work_items Example.X 0) = 3%nat
  ∧ length (iterate_work_items Example.Y 0) = 1%nat
  ∧ length (iterate_work_items Example.Z' 0) = 2%nat
  ∧ map fst (roundrobin (work_iterators [Example.X; Example.Y; Example.Z']
                           (map get_num_phases [Example.X; Example.Y; Example.Z']) 0))
    = [Example.X; Example.Y; Example.Z'; Example.X; Example.Z'; Example.X].
Proof.
  assert (Z.of_nat 0 < get_num_phases Example.X) as HX by (vm_compute; reflexivity).
  assert (Z.of_nat 0 < get_num_phases Example.Y) as HY by (vm_compute; reflexivity).
  assert (Z.of_nat 0 < get_num_phases Example.Z') as HZ by (vm_compute; reflexivity).
  split_and!; [exact HX | exact HY | exact HZ | reflexivity..|].
  exact (proj1 (roundrobin_fairness Example.X Example.Y Example.Z' 0%nat
                  HX HY HZ eq_refl eq_refl eq_refl)).
Defined.

(** * More of the dispatcher *)

Section MoreProofs.
Context {TileSet WorkItem Result : Type} `{!TileSetOps TileSet WorkItem Result}.
Local Abbreviation World := (World TileSet WorkItem Result).
Local Abbreviation Process := (MultiprocessingDispatcherProcess.t TileSet WorkItem).
Local Abbreviation Store := (Store TileSet WorkItem Result).
Local Abbreviation event := (event TileSet WorkItem Result).
Implicit Types (w : World) (p : Process) (s : Store) (t : list event).

(** ** Draining *)

Lemma handle_messages_loop_ret o w w' :
  MultiprocessingDispatcher.handle_messages_loop o w = Ret () w' →
  ∃ rs : list Result,
    trace w' = trace w ++ map EvResult rs
    ∧ outstanding_jobs w' = outstanding_jobs w - Z.of_nat (length rs)
    ∧ result_queue (store w') = []
    ∧ manager w' = manager w ∧ pool w' = pool w ∧ local_procs w' = local_procs w
    ∧ tileset_data (store w') = tileset_data (store w).
Proof.
  revert w. induction o as [|sched o IH]; intros w; [done|].
  cbn [MultiprocessingDispatcher.handle_messages_loop].
  pose proof (run_procs_frame sched (set_oracle o w)) as (F1 & F2 & F3 & F4 & F5 & F6 & _).
  destruct (result_queue (store (run_procs sched (set_oracle o w)))) as [|r q] eqn:Hq.
  - intros [= <-]. exists []. rewrite app_nil_r, Hq. cbn in *.
    split_and!; try done. lia.
  - intros (rs & Ht & Ho & Hr & Hm & Hp & Hl & Hd)%IH. exists (r :: rs). cbn in *.
    rewrite Ht, Ho, Hm, Hp, Hl, Hd, F1, F2, F3, F4, F5, F6, <- (assoc_L (++)).
    split_and!; try done. lia.
Qed.


Lemma while_fuel_ret n cond w w' :
  MultiprocessingDispatcher.while_fuel n cond w = Ret () w' →
  ∃ rs : list Result,
    trace w' = trace w ++ map EvResult rs
    ∧ outstanding_jobs w' = outstanding_jobs w - Z.of_nat (length rs)
    ∧ manager w' = manager w ∧ pool w' = pool w ∧ local_procs w' = local_procs w
    ∧ tileset_data (store w') = tileset_data (store w)
    ∧ cond w' = false.
Proof.
  revert w. induction n as [|n IH]; intros w;
    cbn [MultiprocessingDispatcher.while_fuel]; destruct (cond w) eqn:Hc; try done.
  - intros [= <-]. exists []. rewrite app_nil_r. cbn. split_and!; try done. lia.
  - intros ([] & w1 & (rs1 & Ht1 & Ho1 & _ & Hm1 & Hp1 & Hl1 & Hd1)%handle_messages_loop_ret
             & (rs2 & Ht2 & Ho2 & Hm2 & Hp2 & Hl2 & Hd2 & Hc2)%IH)%bind_ret_inv.
    exists (rs1 ++ rs2).
    rewrite Ht2, Ht1, Ho2, Ho1, Hm2, Hm1, Hp2, Hp1, Hl2, Hl1, Hd2, Hd1, map_app, length_app,
      <- (assoc_L (++)).
    split_and!; try done. lia.
  - intros [= <-]. exists []. rewrite app_nil_r. cbn. split_and!; try done. lia.
Qed.

(** What a call of [dispatch] that returns has done. *)
Lemma dispatch_ret tileset workitem w w' m :
  manager w = Some m →
  MultiprocessingDispatcher.dispatch tileset workitem w = Ret () w' →
  ∃ (i : nat) (rs : list Result),
    tilesets m !! i = Some tileset
    ∧ (∀ j y, tilesets m !! j = Some y → (j < i)%nat → y ≠ tileset)
    ∧ trace w' = trace w ++ EvDispatch (tileset_version m, i, workitem) :: map EvResult rs
    ∧ outstanding_jobs w' = outstanding_jobs w + 1 - Z.of_nat (length rs)
    ∧ outstanding_jobs w' ≤ local_procs w * 10
    ∧ manager w' = Some m
    ∧ tileset_data (store w') = tileset_data (store w).
Proof.
  intros Hm. unfold MultiprocessingDispatcher.dispatch, bind at 1, get_manager.
  rewrite Hm. unfold bind at 1, index.
  destruct (list_find _ (tilesets m)) as [[i y]|] eqn:Hfind; [|done].
  apply list_find_Some in Hfind as (Hi & -> & Hleast). cbn [ret].
  intros ([] & w1 & Hput & Hrest)%bind_ret_inv.
  apply bind_ret_inv in Hput as ([] & w0 & (sched & o & _ & ->)%yield_ret_inv & [= <-]).
  rewrite !bind_modify in Hrest.
  apply while_fuel_ret in Hrest as (rs & Ht & Ho & Hm' & _ & Hl & Hd & Hc).
  pose proof (run_procs_frame sched (set_oracle o w)) as (F1 & F2 & F3 & _ & F5 & F6 & _).
  cbn in *. apply bool_decide_eq_false in Hc.
  exists i, rs. rewrite Ht, Ho, Hm', Hd, F2, F3, F5, F6, <- (assoc_L (++)).
  split_and!; try done; lia.
Qed.


(** ** After [close], and what a publish stores *)

Lemma close_ret w w' :
  MultiprocessingDispatcher.close w = Ret () w' → pool w' = None ∧ manager w' = None.
Proof.
  unfold MultiprocessingDispatcher.close, bind at 1.
  destruct (pool w) as [workers|]; [|done].
  intros ([] & w1 & _ & Hc)%bind_ret_inv.
  unfold bind, get_manager, modify in Hc.
  destruct (manager w1) as [m|]; [|done]. by injection Hc as <-.
Qed.

(** X3. Once [close] has returned, the dispatcher refuses every further
    use and is not changed by it: [dispatch], [setup_tilesets] and
    [render_all] raise [AttributeError], a second [close] raises
    [TypeError]. *)
Theorem use_after_close w w' :
  MultiprocessingDispatcher.close w = Ret () w' →
  (∀ tileset workitem,
     MultiprocessingDispatcher.dispatch tileset workitem w' = Raise AttributeError w')
  ∧ (∀ tilesets, MultiprocessingDispatcher.setup_tilesets tilesets w' = Raise AttributeError w')
  ∧ (∀ tilesetlist,
       render_all MultiprocessingDispatcher.self tilesetlist w' = Raise AttributeError w')
  ∧ MultiprocessingDispatcher.close w' = Raise TypeError w'.
Proof.
  intros (Hp & Hm)%close_ret.
  assert (∀ l, set_tilesets l w' = Raise AttributeError w') as Hs.
  { intros l. unfold set_tilesets, bind, get_manager. by rewrite Hm. }
  split_and!.
  - intros tileset workitem.
    unfold MultiprocessingDispatcher.dispatch, bind, get_manager. by rewrite Hm.
  - done.
  - intros l. unfold render_all. cbn [setup_tilesets MultiprocessingDispatcher.self].
    unfold MultiprocessingDispatcher.setup_tilesets, bind at 1. by rewrite Hs.
  - unfold MultiprocessingDispatcher.close, bind. by rewrite Hp.
Qed.

Lemma set_tilesets_ret_oracle new w w' :
  set_tilesets new w = Ret () w' → (2 ≤ length (oracle w))%nat.
Proof.
  unfold set_tilesets, bind at 1, get_manager. destruct (manager w) as [m|]; [|done].
  rewrite bind_modify. unfold bind at 1, yield at 1. cbn [oracle set_manager].
  destruct (oracle w) as [|s1 [|s2 o]]; [done| |cbn; lia].
  rewrite bind_modify. unfold bind at 1, yield at 1. cbn [oracle set_store].
  by rewrite run_procs_oracle.
Qed.

(** What a publish that returns has done. *)
Lemma set_tilesets_ret_inv new w w' :
  set_tilesets new w = Ret () w' →
  ∃ m, manager w = Some m
    ∧ manager w' = Some {| tilesets := new; tileset_version := tileset_version m + 1 |}
    ∧ tileset_data (store w') = (new, tileset_version m + 1)
    ∧ trace w' = trace w
    ∧ outstanding_jobs w' = outstanding_jobs w.
Proof.
  intros Hs. pose proof (set_tilesets_ret_oracle _ _ _ Hs) as Ho.
  destruct (manager w) as [m|] eqn:Hm.
  - destruct (set_tilesets_ret w m new Hm Ho) as (w'' & Hs' & Htd & Hm' & Ht & Hout).
    rewrite Hs in Hs'. injection Hs' as <-. by exists m.
  - unfold set_tilesets, bind, get_manager in Hs. by rewrite Hm in Hs.
Qed.

(** X4. A publish that returns has stored the new list and the version
    one above the last one, in the manager and in the shared pair alike,
    whatever the workers did meanwhile; it changes neither the counter nor
    the history. *)
Theorem publish_stores_next_version new w w' :
  set_tilesets new w = Ret () w' →
  ∃ m, manager w = Some m
    ∧ manager w' = Some {| tilesets := new; tileset_version := tileset_version m + 1 |}
    ∧ tileset_data (store w') = (new, tileset_version m + 1)
    ∧ trace w' = trace w
    ∧ outstanding_jobs w' = outstanding_jobs w.
Proof. apply set_tilesets_ret_inv. Qed.

(** ** A lost job *)




(** ** Triples *)

Lemma triple_intro {A : Type} (P : World → Prop) (m : M World A)
    (Q : A → World → Prop) (E : exn → World → Prop) :
  (∀ w a w', P w → m w = Ret a w' → Q a w') →
  (∀ w e w', P w → m w = Raise e w' → E e w') →
  triple P m Q E (λ _, True).
Proof.
  intros HQ HE w Hw. destruct (m w) as [a w'|e w'|w'] eqn:Hm; eauto.
Qed.

Lemma triple_bind {A B : Type} (P : World → Prop) (m : M World A) (k : A → M World B)
    (Q : A → World → Prop) (R : B → World → Prop) E C :
  triple P m Q E C → (∀ a, triple (Q a) (k a) R E C) → triple P (bind m k) R E C.
Proof.
  intros Hm Hk w Hw. specialize (Hm w Hw). unfold bind.
  destruct (m w) as [a w'| |]; [by apply Hk | done..].
Qed.

Lemma triple_bind_ret {A B : Type} (P : World → Prop) (a : A) (k : A → M World B) Q E C :
  triple P (k a) Q E C → triple P (bind (ret a) k) Q E C.
Proof. done. Qed.

Lemma triple_conseq {A : Type} (P P' : World → Prop) (m : M World A)
    (Q Q' : A → World → Prop) (E E' : exn → World → Prop) (C C' : World → Prop) :
  triple P' m Q' E' C' →
  (∀ w, P w → P' w) → (∀ a w, Q' a w → Q a w) → (∀ e w, E' e w → E e w) →
  (∀ w, C' w → C w) →
  triple P m Q E C.
Proof.
  intros Hm HP HQ HE HC w Hw. specialize (Hm w (HP w Hw)).
  destruct (m w); eauto.
Qed.

Lemma triple_modify (P : World → Prop) (f : World → World) E C :
  triple (λ w, P (f w)) (modify f) (λ _, P) E C.
Proof. by intros w Hw. Qed.

(** A loop over a list, with an invariant that knows the part of the list
    that is done. *)
Lemma triple_for_each_from {A : Type} (I : list A → World → Prop) (l0 l : list A)
    (body : A → M World unit) E C :
  (∀ l1 x l2, l = l1 ++ x :: l2 →
     triple (I (l0 ++ l1)) (body x) (λ _, I (l0 ++ l1 ++ [x])) E C) →
  triple (I l0) (for_each l body) (λ _, I (l0 ++ l)) E C.
Proof.
  revert l0. induction l as [|x l IH]; intros l0 Hbody.
  - intros w Hw. cbn. by rewrite app_nil_r.
  - cbn [for_each]. eapply triple_bind.
    + specialize (Hbody [] x l eq_refl). rewrite app_nil_r in Hbody. apply Hbody.
    + intros []. cbn [app]. replace (l0 ++ x :: l) with ((l0 ++ [x]) ++ l)
        by by rewrite <- (assoc_L (++)).
      apply IH. intros l1 y l2 Hl.
      specialize (Hbody (x :: l1) y l2 (f_equal (cons x) Hl)).
      by rewrite <- !(assoc_L (++)).
Qed.

Lemma triple_for_each {A : Type} (I : list A → World → Prop) (l : list A)
    (body : A → M World unit) E C :
  (∀ l1 x l2, l = l1 ++ x :: l2 → triple (I l1) (body x) (λ _, I (l1 ++ [x])) E C) →
  triple (I []) (for_each l body) (λ _, I l) E C.
Proof. intros Hbody. by apply (triple_for_each_from I [] l). Qed.

(** ** The order of the jobs *)

Lemma jobs_of_app t1 t2 : jobs_of (t1 ++ t2) = jobs_of t1 ++ jobs_of t2.
Proof. apply omap_app. Qed.

Lemma jobs_of_dispatch j t : jobs_of (EvDispatch j :: t) = j :: jobs_of t.
Proof. reflexivity. Qed.

Lemma jobs_of_snoc_other t e :
  is_dispatch e = false → jobs_of (t ++ [e]) = jobs_of t.
Proof. intros He. rewrite jobs_of_app. destruct e; try done; apply app_nil_r. Qed.

Lemma jobs_of_results (rs : list Result) : jobs_of (map EvResult rs : list event) = [].
Proof. by induction rs. Qed.

Lemma bind_raise_inv {A B : Type} (m : M World A) (k : A → M World B) w e w' :
  bind m k w = Raise e w' →
  m w = Raise e w' ∨ ∃ a w1, m w = Ret a w1 ∧ k a w1 = Raise e w'.
Proof.
  unfold bind. intros H. destruct (m w) as [a w1|e0 w0|w0];
    [right; eauto | injection H as -> ->; by left | done].
Qed.

Lemma put_job_no_raise j w e w' : put_job j w ≠ Raise e w'.
Proof. unfold put_job, bind, yield, modify. by destruct (oracle w). Qed.

Lemma handle_messages_loop_no_raise o w e w' :
  MultiprocessingDispatcher.handle_messages_loop o w ≠ Raise e w'.
Proof.
  revert w. induction o as [|sched o IH]; intros w; [done|].
  cbn [MultiprocessingDispatcher.handle_messages_loop].
  by destruct (result_queue (store (run_procs sched (set_oracle o w)))).
Qed.

Lemma while_fuel_no_raise n cond w e w' :
  MultiprocessingDispatcher.while_fuel n cond w ≠ Raise e w'.
Proof.
  revert w. induction n as [|n IH]; intros w;
    cbn [MultiprocessingDispatcher.while_fuel]; destruct (cond w); try done.
  unfold bind, MultiprocessingDispatcher._handle_messages.
  destruct (MultiprocessingDispatcher.handle_messages_loop (oracle w) w) eqn:Hh;
    [apply IH | by apply handle_messages_loop_no_raise in Hh | done].
Qed.

Lemma elem_of_concat {A : Type} (x : A) (ls : list (list A)) :
  x ∈ concat ls → ∃ l, x ∈ l ∧ l ∈ ls.
Proof.
  induction ls as [|l ls IH]; cbn; [by intros ?%elem_of_nil|].
  intros [Hx|Hx]%elem_of_app.
  - exists l. split; [done | by left].
  - destruct (IH Hx) as (l' & ? & ?). exists l'. split; [done | by right].
Qed.

(** The work of a phase is work of tilesets of the list that have the
    phase. *)
Lemma phase_work_elem tilesetlist phase tileset (workitem : WorkItem) :
  (tileset, workitem) ∈ phase_work tilesetlist phase →
  tileset ∈ tilesetlist
  ∧ Z.of_nat phase < get_num_phases tileset
  ∧ workitem ∈ iterate_work_items tileset phase.
Proof.
  unfold phase_work. rewrite roundrobin_perm. unfold work_iterators.
  intros (it & Hin & Hit)%elem_of_concat.
  apply list_elem_of_omap in Hit as ([ts n] & Hz & Hsome).
  case_decide as Hlt; [|done]. injection Hsome as <-.
  apply list_elem_of_fmap in Hin as (wi & [= -> ->] & Hwi).
  pose proof (elem_of_zip_l _ _ _ _ Hz) as Hts.
  apply list_elem_of_lookup_1 in Hz as [i Hi].
  apply lookup_zip_with_Some in Hi as (ts' & n' & [= <- <-] & Hts' & Hn').
  rewrite list_lookup_fmap, Hts' in Hn'. injection Hn' as <-. done.
Qed.

(** [l.index(x)] and [l[i]]: the position found holds the value. *)
Lemma position_lookup (x : TileSet) (l : list TileSet) :
  x ∈ l → l !! position x l = Some x.
Proof.
  intros [i Hi]%list_elem_of_lookup_1. unfold position.
  destruct (list_find _ l) as [[j y]|] eqn:Hfind.
  - by apply list_find_Some in Hfind as (Hj & -> & _).
  - apply list_find_None in Hfind. by destruct (Forall_lookup_1 _ _ _ _ Hfind Hi).
Qed.

(** [dispatch] of a tileset of the published list adds one job to the
    history and does not raise. *)
Lemma dispatch_triple tileset workitem (l : list TileSet) v J :
  tileset ∈ l →
  triple (λ w, manager w = Some {| tilesets := l; tileset_version := v |}
               ∧ jobs_of (trace w) = J)
    (MultiprocessingDispatcher.dispatch tileset workitem)
    (λ _ w, manager w = Some {| tilesets := l; tileset_version := v |}
            ∧ jobs_of (trace w) = J ++ [(v, position tileset l, workitem)])
    (λ _ _, False) (λ _, True).
Proof.
  intros Hin. apply triple_intro.
  - intros w [] w' [Hm <-] Hd.
    destruct (dispatch_ret _ _ _ _ _ Hm Hd) as (i & rs & Hi & Hleast & Ht & _ & _ & Hm' & _).
    split; [done|]. rewrite Ht, jobs_of_app, jobs_of_dispatch, jobs_of_results.
    do 3 f_equal. unfold position.
    destruct (list_find _ l) as [[i' y]|] eqn:Hfind.
    + apply list_find_Some in Hfind as (Hi' & -> & Hleast'). cbn in *.
      destruct (Nat.lt_trichotomy i i') as [Hlt|[->|Hlt]]; [|done|].
      * by destruct (Hleast' _ _ Hi Hlt).
      * by destruct (Hleast _ _ Hi' Hlt).
    + apply list_find_None in Hfind.
      by destruct (Forall_lookup_1 _ _ _ _ Hfind Hi).
  - intros w e w' [Hm _]. unfold MultiprocessingDispatcher.dispatch, bind at 1, get_manager.
    rewrite Hm. unfold bind at 1, index. cbn [tilesets].
    destruct (list_find _ l) as [[i y]|] eqn:Hfind.
    + cbn [ret]. intros [Hput|([] & w1 & _ & Hrest)]%bind_raise_inv.
      * by apply put_job_no_raise in Hput.
      * rewrite !bind_modify in Hrest. by apply while_fuel_no_raise in Hrest.
    + apply list_find_None in Hfind.
      apply list_elem_of_lookup_1 in Hin as [i Hi].
      by destruct (Forall_lookup_1 _ _ _ _ Hfind Hi).
Qed.

Lemma finish_work_triple (l : list TileSet) v J :
  triple (λ w, manager w = Some {| tilesets := l; tileset_version := v |}
               ∧ jobs_of (trace w) = J)
    MultiprocessingDispatcher.finish_work
    (λ _ w, manager w = Some {| tilesets := l; tileset_version := v |}
            ∧ jobs_of (trace w) = J)
    (λ _ _, False) (λ _, True).
Proof.
  apply triple_intro.
  - intros w [] w' [Hm <-] (rs & Ht & _ & Hm' & _)%while_fuel_ret.
    rewrite Hm', Ht, jobs_of_app, jobs_of_results, app_nil_r. done.
  - intros w e w' _. apply while_fuel_no_raise.
Qed.

Lemma set_tilesets_no_raise new w m e w' :
  manager w = Some m → set_tilesets new w ≠ Raise e w'.
Proof.
  intros Hm. unfold set_tilesets, bind at 1, get_manager. rewrite Hm.
  rewrite bind_modify. unfold bind, yield, modify. cbn [oracle set_manager].
  destruct (oracle w) as [|s1 o]; [done|]. cbn [oracle set_store].
  rewrite run_procs_oracle. cbn. by destruct o.
Qed.

(** [render_all] on an open dispatcher: what it dispatches when it returns,
    and when it raises. *)
Lemma render_all_triple (tilesetlist : list TileSet) m J :
  triple (λ w, manager w = Some m ∧ jobs_of (trace w) = J)
    (render_all MultiprocessingDispatcher.self tilesetlist)
    (λ _ w, manager w = Some {| tilesets := tilesetlist;
                                tileset_version := tileset_version m + 1 |}
            ∧ jobs_of (trace w) = J ++ all_jobs (tileset_version m + 1) tilesetlist)
    (λ e _, tilesetlist = [] ∧ e = ValueError) (λ _, True).
Proof.
  set (v := tileset_version m + 1).
  set (I := λ (js : list (@Job WorkItem)) w,
    manager w = Some {| tilesets := tilesetlist; tileset_version := v |}
    ∧ jobs_of (trace w) = J ++ js).
  unfold render_all. cbn [setup_tilesets dispatch finish_work note MultiprocessingDispatcher.self].
  eapply triple_bind with (Q := λ _, I []).
  { apply triple_intro.
    - intros w [] w' [Hm <-] (m' & Hm' & Hn & _ & Ht & _)%set_tilesets_ret_inv.
      rewrite Hm in Hm'. injection Hm' as <-. split; [done|]. by rewrite app_nil_r, Ht.
    - intros w e w' [Hm _] Hs. by apply set_tilesets_no_raise with (m := m) in Hs. }
  intros _. eapply triple_bind with (Q := λ _, I []).
  { apply (triple_for_each (λ _, I [])).
    intros l1 x l2 _ w [Hm Hj]. unfold modify. split; [exact Hm|].
    unfold record. cbn [trace]. by rewrite jobs_of_snoc_other. }
  intros _. destruct (decide (tilesetlist = [])) as [Hnil|Hne].
  { intros w _. rewrite Hnil. cbn. done. }
  assert (@py_max World (map get_num_phases tilesetlist) = ret (max_phases tilesetlist))
    as -> by (unfold max_phases; by destruct tilesetlist).
  apply triple_bind_ret. unfold all_jobs. generalize (max_phases tilesetlist). intros n.
  eapply triple_conseq with
    (P' := I (concat (map (phase_jobs v tilesetlist) [])))
    (Q' := λ _, I (concat (map (phase_jobs v tilesetlist) (xrange n))))
    (E' := λ _ _, False) (C' := λ _, True);
    [|done..].
  apply (triple_for_each (λ ps, I (concat (map (phase_jobs v tilesetlist) ps)))).
  intros ps phase ps' _.
  rewrite map_app, concat_app. cbn [map concat]. rewrite app_nil_r.
  set (J0 := concat (map (phase_jobs v tilesetlist) ps)).
  eapply triple_bind with (Q := λ _, I J0).
  { intros w [Hm Hj]. unfold modify. split; [exact Hm|].
    unfold record. cbn [trace]. by rewrite jobs_of_snoc_other. }
  intros _. eapply triple_bind with (Q := λ _, I (J0 ++ phase_jobs v tilesetlist phase)).
  - unfold phase_jobs. fold (phase_work tilesetlist phase).
    eapply triple_conseq with
      (P' := I (J0 ++ map (λ '(tileset, workitem), (v, position tileset tilesetlist, workitem)) []))
      (Q' := λ _, I (J0 ++ map (λ '(tileset, workitem), (v, position tileset tilesetlist, workitem))
                            (phase_work tilesetlist phase)))
      (E' := λ _ _, False) (C' := λ _, True);
      [|by (intros w Hw; cbn; rewrite app_nil_r)|done..].
    apply (triple_for_each (λ done, I (J0 ++ map
             (λ '(tileset, workitem), (v, position tileset tilesetlist, workitem)) done))).
    intros l1 [tileset workitem] l2 Hl.
    assert (tileset ∈ tilesetlist) as Hin.
    { eapply (phase_work_elem tilesetlist phase tileset workitem). rewrite Hl.
      apply elem_of_app. right. by left. }
    eapply triple_conseq;
      [apply (dispatch_triple tileset workitem tilesetlist v
                (J ++ J0 ++ map (λ '(tileset, workitem),
                                   (v, position tileset tilesetlist, workitem)) l1) Hin)
      | | | done | done].
    + intros w Hw. exact Hw.
    + intros a w [Hm Hj]. split; [done|]. rewrite Hj, map_app. cbn [map].
      by rewrite <- !(assoc_L (++)).
  - intros _. unfold I. apply finish_work_triple.
Qed.

(** X6. [render_all] of the pooled dispatcher, when it returns, has
    dispatched exactly the work of its tilesets, phase after phase and
    within each phase in the order of the merge, each job stamped with the
    version of this publish, one above the last, and with the position of
    its tileset in the list; and at this position the list holds the
    tileset, which has the phase and the work item. *)
Theorem render_all_dispatch_order tilesetlist w w' :
  render_all MultiprocessingDispatcher.self tilesetlist w = Ret () w' →
  ∃ m, manager w = Some m
    ∧ jobs_of (trace w')
      = jobs_of (trace w) ++ all_jobs (tileset_version m + 1) tilesetlist
    ∧ ∀ tv ti workitem,
        (tv, ti, workitem) ∈ all_jobs (tileset_version m + 1) tilesetlist →
        tv = tileset_version m + 1
        ∧ ∃ tileset phase,
            tilesetlist !! ti = Some tileset
            ∧ Z.of_nat phase < get_num_phases tileset
            ∧ workitem ∈ iterate_work_items tileset phase.
Proof.
  intros Hr. destruct (manager w) as [m|] eqn:Hm; last first.
  { unfold render_all in Hr. cbn [setup_tilesets MultiprocessingDispatcher.self] in Hr.
    unfold MultiprocessingDispatcher.setup_tilesets, set_tilesets, bind, get_manager in Hr.
    by rewrite Hm in Hr. }
  exists m. split; [done|].
  pose proof (render_all_triple tilesetlist m (jobs_of (trace w)) w (conj Hm eq_refl)) as Ht.
  rewrite Hr in Ht. destruct Ht as [_ Ht]. split; [done|].
  intros tv ti workitem (js & Hin & Hjs)%elem_of_concat.
  apply list_elem_of_fmap in Hjs as (phase & -> & _).
  apply list_elem_of_fmap in Hin as ([tileset wi] & [= -> -> ->] & Hwork).
  apply phase_work_elem in Hwork as (Hts & Hphase & Hwi).
  split; [done|]. exists tileset, phase. by rewrite position_lookup.
Qed.

Lemma render_all_raises_only_on_empty_aux tilesetlist w m e w' :
  manager w = Some m →
  render_all MultiprocessingDispatcher.self tilesetlist w = Raise e w' →
  tilesetlist = [] ∧ e = ValueError.
Proof.
  intros Hm Hr.
  pose proof (render_all_triple tilesetlist m (jobs_of (trace w)) w (conj Hm eq_refl)) as Ht.
  by rewrite Hr in Ht.
Qed.

(** X7. On an open dispatcher [render_all] raises only for the empty
    list: no exception of a [do_work] in a worker, and no other failure,
    comes back to the caller. *)
Theorem render_all_raises_only_on_empty tilesetlist w m e w' :
  manager w = Some m →
  render_all MultiprocessingDispatcher.self tilesetlist w = Raise e w' →
  tilesetlist = [] ∧ e = ValueError.
Proof. apply render_all_raises_only_on_empty_aux. Qed.

(** ** The dispatcher of one process *)

Lemma for_each_note_base (l : list TileSet) (h : list event) :
  for_each l (λ tileset, note Dispatcher_base (EvPreprocess tileset)) h
  = Ret () (h ++ map EvPreprocess l).
Proof.
  revert h. induction l as [|x l IH]; intros h; cbn [for_each map].
  - by rewrite app_nil_r.
  - cbn [note Dispatcher_base]. rewrite bind_modify, IH. by rewrite <- (assoc_L (++)).
Qed.

Lemma for_each_dispatch_base (items : list (TileSet * WorkItem)) (h : list event) :
  for_each items (λ '(tileset, workitem), dispatch Dispatcher_base tileset workitem) h
  = if forallb work_ok items then Ret () h else Raise WorkError h.
Proof.
  induction items as [|[tileset workitem] items IH]; [done|].
  cbn [for_each forallb dispatch Dispatcher_base]. unfold work_ok at 1. cbn [fst snd].
  unfold bind. destruct (do_work tileset workitem); cbn; [exact IH | done].
Qed.

Lemma for_each_phases_base (tilesetlist : list TileSet) (k n : nat) (h : list event) :
  for_each (seq k n) (λ phase,
    note Dispatcher_base (EvPhase phase) ;;
    for_each (phase_work tilesetlist phase)
      (λ '(tileset, workitem), dispatch Dispatcher_base tileset workitem) ;;
    finish_work Dispatcher_base) h
  = match list_find (λ phase, phase_ok tilesetlist phase = false) (seq k n) with
    | None => Ret () (h ++ map EvPhase (seq k n))
    | Some (_, phase) => Raise WorkError (h ++ map EvPhase (seq k (S phase - k)))
    end.
Proof.
  revert k h. induction n as [|n IH]; intros k h; cbn [seq for_each list_find].
  - by rewrite app_nil_r.
  - cbn [note finish_work Dispatcher_base]. unfold bind at 1.
    rewrite bind_modify. unfold bind at 1. rewrite for_each_dispatch_base.
    fold (phase_ok tilesetlist k). cbn [list_find]. case_decide as Hok.
    + rewrite Hok. cbn. replace (S k - k)%nat with 1%nat by lia. done.
    + apply not_false_is_true in Hok. rewrite Hok. cbn [ret]. rewrite IH.
      destruct (list_find _ (seq (S k) n)) as [[i phase]|] eqn:Hfind; cbn.
      * apply list_find_Some in Hfind as (Hi & _ & _).
        apply lookup_seq in Hi as [-> _].
        replace (S (S k + i) - k)%nat with (S (S (S k + i) - S k))%nat by lia.
        cbn [seq map]. by rewrite <- (assoc_L (++)).
      * by rewrite <- (assoc_L (++)).
Qed.

(** [render_all] of the class [Dispatcher] itself, in closed form. *)
Lemma render_all_base_eq (tilesetlist : list TileSet) (h : list event) :
  render_all Dispatcher_base tilesetlist h = render_all_base tilesetlist h.
Proof.
  unfold render_all, render_all_base. cbn [setup_tilesets Dispatcher_base ret].
  unfold bind at 1. cbn [ret]. unfold bind at 1. rewrite for_each_note_base.
  destruct (decide (tilesetlist = [])) as [->|Hne]; [cbn; by rewrite app_nil_r|].
  assert (@py_max (list event) (map get_num_phases tilesetlist)
          = ret (max_phases tilesetlist)) as ->
    by (unfold max_phases; by destruct tilesetlist).
  unfold bind at 1. cbn [ret].
  pose proof (for_each_phases_base tilesetlist 0 (Z.to_nat (max_phases tilesetlist))
                (h ++ map EvPreprocess tilesetlist)) as Hp.
  unfold phase_work in Hp. unfold xrange. rewrite Hp.
  destruct tilesetlist; [done|].
  destruct (list_find _ _) as [[i phase]|]; [|done].
  by rewrite Nat.sub_0_r.
Qed.

(** X8. [render_all] of the class [Dispatcher] itself, which does every
    work item on the spot: it raises [ValueError] on the empty list;
    otherwise it calls [do_preprocessing] on every tileset in order and
    goes through the phases in order, returns when no work item raises, and
    raises in the first phase that has a work item whose [do_work] raises,
    without starting a later phase. *)
Theorem render_all_one_process (tilesetlist : list TileSet) (h : list event) :
  render_all Dispatcher_base tilesetlist h = render_all_base tilesetlist h.
Proof. apply render_all_base_eq. Qed.

(** ** A worker and its job *)

(** X9. A worker that polls and finds the job [(tv, ti, workitem)] at
    the head of the job queue, while the list [l] is stored under the
    version [tv] and its own cache is either this pair or of another
    version: in three steps it has taken the job off the queue, holds [l]
    and [tv] in its cache, and has put on the result queue what [do_work]
    of the tileset at position [ti] of [l] gives for the work item; it polls
    again. *)
Theorem worker_does_job p s tv ti workitem q (l : list TileSet) tileset result :
  MultiprocessingDispatcherProcess.at_pc p = MultiprocessingDispatcherProcess.Polling →
  job_queue s = Some (tv, ti, workitem) :: q →
  tileset_data s = (l, tv) →
  (MultiprocessingDispatcherProcess.tileset_version p = tv →
     MultiprocessingDispatcherProcess.tilesets p = l) →
  l !! ti = Some tileset →
  do_work tileset workitem = Some result →
  run_steps 3 (p, s)
  = ({| MultiprocessingDispatcherProcess.tilesets := l;
        MultiprocessingDispatcherProcess.tileset_version := tv;
        MultiprocessingDispatcherProcess.at_pc := MultiprocessingDispatcherProcess.Polling |},
     set_result_queue (λ rq, rq ++ [result]) (set_job_queue (λ _, q) s)).
Proof.
  intros Hpc Hq Htd Hcache Hti Hwork. destruct p as [ts v pc]. cbn in Hpc, Hcache. subst pc.
  set (p := {| MultiprocessingDispatcherProcess.tilesets := ts;
               MultiprocessingDispatcherProcess.tileset_version := v;
               MultiprocessingDispatcherProcess.at_pc :=
                 MultiprocessingDispatcherProcess.Polling |}).
  set (job := (tv, ti, workitem)).
  set (p1 := MultiprocessingDispatcherProcess.goto
               (MultiprocessingDispatcherProcess.Unpacked job) p).
  set (s1 := set_job_queue (λ _, q) s).
  set (p2 := {| MultiprocessingDispatcherProcess.tilesets := l;
                MultiprocessingDispatcherProcess.tileset_version := tv;
                MultiprocessingDispatcherProcess.at_pc :=
                  MultiprocessingDispatcherProcess.Working job |}).
  assert (MultiprocessingDispatcherProcess.run p s = (p1, s1)) as H1.
  { unfold MultiprocessingDispatcherProcess.run. cbn. by rewrite Hq. }
  assert (MultiprocessingDispatcherProcess.run p1 s1 = (p2, s1)) as H2.
  { unfold p1, p2, p, MultiprocessingDispatcherProcess.run,
      MultiprocessingDispatcherProcess.update_tilesets, get_tilesets. cbn. rewrite Htd.
    destruct (decide (tv ≠ v)) as [Hne|Heq%dec_stable]; cbn.
    - by rewrite decide_True.
    - subst v. by rewrite (Hcache eq_refl). }
  assert (MultiprocessingDispatcherProcess.run p2 s1
          = (MultiprocessingDispatcherProcess.goto MultiprocessingDispatcherProcess.Polling p2,
             set_result_queue (λ rq, rq ++ [result]) s1)) as H3.
  { unfold MultiprocessingDispatcherProcess.run. cbn. by rewrite Hti, Hwork. }
  unfold run_steps. cbn [Nat.iter nat_rect fst snd]. rewrite H1. cbn [fst snd].
  rewrite H2. cbn [fst snd]. by rewrite H3.
Qed.

(** ** All workers stop *)





(** ** What the phases of [render_all] keep *)

Section WorkStable.
Context (I H : World → Prop) (HI : work_stable I H).

Lemma ws_run_procs sched w : I w → I (run_procs sched w).
Proof. apply run_procs_ind, HI. Qed.

Lemma ws_yield : keeps I yield.
Proof. apply yield_keeps; apply HI. Qed.

Lemma ws_handle_messages_loop o w :
  I w → I (final (MultiprocessingDispatcher.handle_messages_loop o w)).
Proof.
  revert w. induction o as [|sched o IH]; intros w Hw; [done|].
  cbn [MultiprocessingDispatcher.handle_messages_loop].
  assert (I (run_procs sched (set_oracle o w))) as Hw1
    by by apply ws_run_procs, HI.
  destruct (result_queue (store (run_procs sched (set_oracle o w))))
    as [|r q] eqn:Hq; [done|].
  by apply IH, HI.
Qed.

Lemma ws_while_fuel n cond : keeps I (MultiprocessingDispatcher.while_fuel n cond).
Proof.
  induction n as [|n IH]; intros w Hw; cbn [MultiprocessingDispatcher.while_fuel];
    destruct (cond w); try done.
  apply keeps_bind; [|done..]. intros w1 Hw1. by apply ws_handle_messages_loop.
Qed.

Lemma ws_dispatch tileset workitem :
  keeps I (MultiprocessingDispatcher.dispatch tileset workitem).
Proof.
  intros w Hw. unfold MultiprocessingDispatcher.dispatch, bind at 1, get_manager.
  destruct (manager w) as [m|] eqn:Hm; [|done].
  unfold bind at 1, index.
  destruct (list_find _ (tilesets m)) as [[i y]|] eqn:Hfind; [|done].
  apply list_find_Some in Hfind as (Hi & -> & _). cbn [ret].
  unfold put_job. rewrite bind_assoc. unfold bind at 1, yield.
  destruct (oracle w) as [|sched o]; [done|].
  rewrite !bind_modify. apply ws_while_fuel.
  pose proof (run_procs_frame sched (set_oracle o w)) as (_ & _ & Hm' & _).
  apply (ws_put I H HI _ m i tileset workitem); [|by rewrite Hm'|done].
  by apply ws_run_procs, HI.
Qed.

Lemma ws_finish_work : keeps I MultiprocessingDispatcher.finish_work.
Proof. intros w Hw. by apply (ws_while_fuel (S (length (oracle w)))). Qed.

(** The part of [render_all] after the publish: it holds [I] wherever it
    stands, and when it returns the last phase is drained. *)
Lemma ws_phases (tilesetlist : list TileSet) :
  triple (λ w, I w ∧ H w)
    (for_each tilesetlist
       (λ tileset, note MultiprocessingDispatcher.self (EvPreprocess tileset)) ;;
     n <- py_max (map get_num_phases tilesetlist) ;;
     for_each (xrange n) (λ phase,
       note MultiprocessingDispatcher.self (EvPhase phase) ;;
       for_each (roundrobin (work_iterators tilesetlist
                               (map get_num_phases tilesetlist) phase))
                (λ '(tileset, workitem),
                   dispatch MultiprocessingDispatcher.self tileset workitem) ;;
       finish_work MultiprocessingDispatcher.self))
    (λ _ w, I w ∧ H w) (λ _ w, I w) I.
Proof.
  cbn [dispatch finish_work note MultiprocessingDispatcher.self].
  eapply triple_bind with (Q := λ _ w, I w ∧ H w).
  { apply (triple_for_each (λ _ w, I w ∧ H w)).
    intros l1 x l2 _ w [Hw Hh]. unfold modify. by apply HI. }
  intros _. eapply triple_bind with (Q := λ _ w, I w ∧ H w).
  { intros w [Hw Hh]. by destruct (map get_num_phases tilesetlist). }
  intros n. apply (triple_for_each (λ _ w, I w ∧ H w)).
  intros ps phase ps' _.
  eapply triple_bind with (Q := λ _ w, I w).
  { intros w [Hw Hh]. unfold modify. by apply HI. }
  intros _. eapply triple_bind with (Q := λ _ w, I w).
  { apply (triple_for_each (λ _ w, I w)).
    intros l1 [tileset workitem] l2 _ w Hw.
    pose proof (ws_dispatch tileset workitem w Hw) as Hk.
    by destruct (MultiprocessingDispatcher.dispatch tileset workitem w). }
  intros _ w Hw. pose proof (ws_finish_work w Hw) as Hk.
  destruct (MultiprocessingDispatcher.finish_work w) as [[] w'| |] eqn:Hf; try done.
  split; [done|]. apply (ws_drained I H HI); [done|].
  unfold MultiprocessingDispatcher.finish_work in Hf.
  apply MultiprocessingDispatcher_while_ret in Hf. apply bool_decide_eq_false in Hf. lia.
Qed.

(** [render_all], given what the publish does. *)
Lemma ws_render_all (P : World → Prop) (tilesetlist : list TileSet)
    (E : exn → World → Prop) (C : World → Prop) :
  triple P (set_tilesets tilesetlist) (λ _ w, I w ∧ H w) E C →
  (∀ e w, I w → E e w) → (∀ w, I w → C w) →
  triple P (render_all MultiprocessingDispatcher.self tilesetlist)
    (λ _ w, I w ∧ H w) E C.
Proof.
  intros Hpub HE HC. unfold render_all at 1.
  eapply triple_bind; [exact Hpub|]. intros [].
  eapply triple_conseq; [apply ws_phases | done | done | exact HE | exact HC].
Qed.
End WorkStable.

(** ** The dispatcher at work *)

Lemma results_of_app t1 t2 : results_of (t1 ++ t2) = results_of t1 ++ results_of t2.
Proof. apply omap_app. Qed.

Lemma dispatched_jobs_of t : dispatched t = length (jobs_of t).
Proof.
  unfold dispatched, jobs_of. induction t as [|[] t IH]; cbn in *; by rewrite ?IH.
Qed.

Lemma drained_results_of t : drained t = length (results_of t).
Proof.
  unfold drained, results_of. induction t as [|[] t IH]; cbn in *; by rewrite ?IH.
Qed.

Lemma real_jobs_queued (q : list (option (@Job WorkItem))) :
  real_jobs q = length (queued_jobs q).
Proof.
  unfold real_jobs, queued_jobs. induction q as [|[j|] q IH]; cbn in *; by rewrite ?IH.
Qed.

Lemma busy_procs_held (ps : list Process) : busy_procs ps = length (held_jobs ps).
Proof.
  unfold busy_procs, held_jobs. induction ps as [|p ps IH]; [done|].
  cbn [count flat_map]. rewrite length_app, IH. f_equal.
  unfold MultiprocessingDispatcherProcess.busy, held.
  by destruct (MultiprocessingDispatcherProcess.at_pc p).
Qed.

Lemma to_come_length (l : list TileSet) w : length (to_come l w) = in_flight w.
Proof.
  unfold to_come, in_flight.
  rewrite !length_app, !length_fmap, real_jobs_queued, busy_procs_held. lia.
Qed.

Lemma no_real_jobs_ok (l : list TileSet) v (q : list (option (@Job WorkItem))) :
  real_jobs q = 0%nat → Forall (job_ok l v) q.
Proof.
  unfold real_jobs. induction q as [|[j|] q IH]; cbn; intros Hq; try done.
  constructor; [done | by apply IH].
Qed.

(** One step of a worker while [(l, v)] is published and every job around
    is a job of this pair: the worker stays in order, and what is to come
    from it and the queues does not grow. *)
Lemma run_working (l : list TileSet) v p s :
  worker_ok l v p → Forall (job_ok l v) (job_queue s) → tileset_data s = (l, v) →
  worker_ok l v (MultiprocessingDispatcherProcess.run p s).1
  ∧ Forall (job_ok l v) (job_queue (MultiprocessingDispatcherProcess.run p s).2)
  ∧ (Some <$> result_queue (MultiprocessingDispatcherProcess.run p s).2)
    ++ (img l <$> held (MultiprocessingDispatcherProcess.run p s).1)
    ++ (img l <$> queued_jobs (job_queue (MultiprocessingDispatcherProcess.run p s).2))
    ⊆+ (Some <$> result_queue s) ++ (img l <$> held p)
       ++ (img l <$> queued_jobs (job_queue s)).
Proof.
  intros Hp Hq Htd.
  destruct p as [ts ver [| |[[tv ti] wi]|[[tv ti] wi]| |e]];
    unfold MultiprocessingDispatcherProcess.run, worker_ok, coherent, cache, held in *;
    cbn in *.
  - unfold MultiprocessingDispatcherProcess.update_tilesets, get_tilesets.
    rewrite Htd. cbn. split_and!; [by left | done | done].
  - destruct (job_queue s) as [|[[[tv ti] wi]|] q] eqn:Hjq; cbn; rewrite ?Hjq.
    + done.
    + apply Forall_cons_1 in Hq as [Hj Hq]. done.
    + apply Forall_cons_1 in Hq as [_ Hq]. done.
  - destruct Hp as (Hc & -> & Hti).
    unfold MultiprocessingDispatcherProcess.update_tilesets, get_tilesets.
    rewrite Htd. case_decide as Hv; cbn.
    + rewrite decide_True by done. cbn. done.
    + assert (v = ver) as <- by (destruct (decide (v = ver)); [done | by destruct Hv]).
      destruct Hc as [[= ->]|]; [done | lia].
  - destruct Hp as ([= -> ->] & -> & Hti).
    destruct (lookup_lt_is_Some_2 l ti Hti) as [tileset Hts]. rewrite Hts.
    unfold img. cbn. rewrite Hts. cbn.
    destruct (do_work tileset wi) as [r|]; cbn.
    + split_and!; [by left | done |]. rewrite fmap_app. cbn.
      by rewrite <- !(assoc_L (++)).
    + split_and!; [done | done |]. apply submseteq_skips_l. by constructor.
  - done.
  - done.
Qed.

Lemma step_proc_run w i p :
  procs w !! i = Some p →
  procs (step_proc w i) = <[i := (MultiprocessingDispatcherProcess.run p (store w)).1]> (procs w)
  ∧ store (step_proc w i) = (MultiprocessingDispatcherProcess.run p (store w)).2.
Proof.
  intros Hp. unfold step_proc. rewrite Hp.
  by destruct (MultiprocessingDispatcherProcess.run p (store w)).
Qed.

Lemma step_proc_none w i : procs w !! i = None → step_proc w i = w.
Proof. intros Hp. unfold step_proc. by rewrite Hp. Qed.

Lemma insert_middle_split (ps : list Process) i p p' :
  ps !! i = Some p →
  ∃ ps1 ps2, ps = ps1 ++ p :: ps2 ∧ <[i := p']> ps = ps1 ++ p' :: ps2.
Proof.
  intros Hp. exists (take i ps), (drop (S i) ps). split.
  - by rewrite take_drop_middle.
  - apply insert_take_drop. by eapply lookup_lt_Some.
Qed.

Lemma working_stable (l : list TileSet) v t0 :
  work_stable (working l v t0) (λ w, outstanding_jobs w ≤ 0).
Proof.
  split.
  - intros w i Hw.
    destruct (procs w !! i) as [p|] eqn:Hp; [|by rewrite step_proc_none].
    destruct Hw as (Hacc & Hm & Htd & Hq & Hps & t & Ht & Hsub).
    pose proof (stable_step _ accounted_stable w i Hacc) as Hacc'.
    pose proof (step_proc_frame w i) as (_ & _ & Hm' & _ & _ & Ht' & Htd' & _).
    destruct (step_proc_run w i p Hp) as [Hprocs Hstore].
    destruct (run_working l v p (store w)) as (Hp' & Hq' & Hsub');
      [by eapply Forall_lookup_1 | done | done |].
    split_and!; [done | by rewrite Hm' | by rewrite Htd' | by rewrite Hstore
                | rewrite Hprocs; by apply Forall_insert |].
    exists t. split; [by rewrite Ht'|].
    etrans; [|exact Hsub]. apply submseteq_skips_l.
    unfold to_come. rewrite Hprocs, Hstore.
    destruct (insert_middle_split (procs w) i p
                (MultiprocessingDispatcherProcess.run p (store w)).1 Hp)
      as (ps1 & ps2 & -> & ->).
    unfold held_jobs. rewrite !flat_map_app. cbn [flat_map]. rewrite !fmap_app.
    set (a := img l <$> flat_map held ps1). set (b := img l <$> flat_map held ps2).
    etrans; [|etrans; [apply (submseteq_skips_l (a ++ b)), Hsub'|]];
      apply Permutation_submseteq; solve_Permutation.
  - intros w o (Hacc & Hm & Htd & Hq & Hps & t & Ht & Hsub). by split_and!; [..|exists t].
  - intros w m i tileset workitem (Hacc & Hm & Htd & Hq & Hps & t & Ht & Hsub) Hm' Hi.
    rewrite Hm in Hm'. injection Hm' as <-. cbn in Hi |- *.
    split_and!; [by apply (stable_put _ accounted_stable) | done | done | | done |].
    + cbn. apply Forall_app. split; [done|]. constructor; [|done].
      split; [done | by eapply lookup_lt_Some].
    + exists (t ++ [EvDispatch (v, i, workitem)]). cbn. split.
      { by rewrite Ht, <- (assoc_L (++)). }
      rewrite results_of_app, jobs_of_app. cbn. rewrite app_nil_r.
      unfold to_come in *. cbn. unfold queued_jobs in *. rewrite omap_app, !fmap_app. cbn.
      etrans; [|apply submseteq_app; [exact Hsub | reflexivity]].
      apply Permutation_submseteq. solve_Permutation.
  - intros w r q (Hacc & Hm & Htd & Hq & Hps & t & Ht & Hsub) Hr.
    split_and!; [by apply (stable_get _ accounted_stable) | done..|].
    exists (t ++ [EvResult r]). cbn. split.
    { by rewrite Ht, <- (assoc_L (++)). }
    rewrite results_of_app, jobs_of_app. cbn. rewrite app_nil_r.
    unfold to_come in *. cbn. rewrite Hr in Hsub. cbn in Hsub.
    etrans; [|exact Hsub]. rewrite fmap_app. cbn. by rewrite <- (assoc_L (++)).
  - intros w tileset (Hacc & Hm & Htd & Hq & Hps & t & Ht & Hsub) Hout.
    split; [|done].
    split_and!; [by apply (stable_preprocess _ accounted_stable) | done..|].
    exists (t ++ [EvPreprocess tileset]). cbn. split.
    { by rewrite Ht, <- (assoc_L (++)). }
    rewrite results_of_app, jobs_of_app. cbn. by rewrite !app_nil_r.
  - intros w ph (Hacc & Hm & Htd & Hq & Hps & t & Ht & Hsub) Hout.
    split_and!; [apply (stable_phase _ accounted_stable); [done | by right] | done..|].
    exists (t ++ [EvPhase ph]). cbn. split.
    { by rewrite Ht, <- (assoc_L (++)). }
    rewrite results_of_app, jobs_of_app. cbn. by rewrite !app_nil_r.
  - done.
Qed.

(** ** The publish, from a dispatcher at rest *)

Lemma count_zero_lookup {A : Type} (f : A → bool) (l : list A) i x :
  count f l = 0%nat → l !! i = Some x → f x = false.
Proof.
  revert i. induction l as [|a l IH]; intros [|i]; cbn; try done.
  - intros Hc [= ->]. destruct (f x); [cbn in Hc; lia | done].
  - intros Hc. apply IH. lia.
Qed.

Lemma nothing_to_come (l : list TileSet) w : in_flight w = 0%nat → to_come l w = [].
Proof. intros Hfl. apply nil_length_inv. by rewrite to_come_length. Qed.

Lemma at_rest_in_flight w : accounted w → outstanding_jobs w ≤ 0 →
  outstanding_jobs w = 0 ∧ in_flight w = 0%nat.
Proof. intros (_ & Hfl & _) Hout. lia. Qed.

(** A step of a worker during a publish. *)
Lemma run_publishing (l0 l : list TileSet) v0 p s :
  worker_mid l v0 p → real_jobs (job_queue s) = 0%nat →
  tileset_data s = (l0, v0) ∨ tileset_data s = (l, v0) ∨ tileset_data s = (l, v0 + 1) →
  worker_mid l v0 (MultiprocessingDispatcherProcess.run p s).1.
Proof.
  intros Hp Hq Htd.
  destruct p as [ts ver [| |[[tv ti] wi]|[[tv ti] wi]| |e]];
    unfold MultiprocessingDispatcherProcess.run, worker_mid, cache in *; cbn in *;
    try done.
  - unfold MultiprocessingDispatcherProcess.update_tilesets, get_tilesets.
    destruct Htd as [->|[->| ->]]; cbn; [left; lia | left; lia | by right].
  - destruct (job_queue s) as [|[j|] q]; cbn in *; [done | lia | done].
Qed.

Lemma publishing_step (l0 l : list TileSet) v0 t0 w i :
  publishing l0 v0 l t0 w → publishing l0 v0 l t0 (step_proc w i).
Proof.
  intros Hw. destruct (procs w !! i) as [p|] eqn:Hp; [|by rewrite step_proc_none].
  destruct Hw as (Hacc & Hout & Hm & Htd & Hps & Ht).
  pose proof (stable_step _ accounted_stable w i Hacc) as Hacc'.
  pose proof (step_proc_frame w i) as (_ & Hout' & Hm' & _ & _ & Ht' & Htd' & _).
  destruct (step_proc_run w i p Hp) as [Hprocs Hstore].
  split_and!; [done | by rewrite Hout' | by rewrite Hm' | by rewrite Htd' | | by rewrite Ht'].
  rewrite Hprocs. apply Forall_insert; [done|].
  apply (run_publishing l0); [by eapply Forall_lookup_1 | | done].
  destruct Hacc as (_ & Hfl & _). unfold in_flight in Hfl. lia.
Qed.

Lemma publishing_run_procs (l0 l : list TileSet) v0 t0 sched w :
  publishing l0 v0 l t0 w → publishing l0 v0 l t0 (run_procs sched w).
Proof. apply run_procs_ind. intros. by apply publishing_step. Qed.

Lemma publishing_write (l0 l : list TileSet) v0 t0 w
    (f : list TileSet * Z → list TileSet * Z) :
  publishing l0 v0 l t0 w →
  f (tileset_data (store w)) = (l0, v0) ∨ f (tileset_data (store w)) = (l, v0)
    ∨ f (tileset_data (store w)) = (l, v0 + 1) →
  publishing l0 v0 l t0 (set_store (set_tileset_data f) w).
Proof.
  intros (Hacc & Hout & Hm & Htd & Hps & Ht) Hf.
  split_and!; [by apply (stable_tileset_data _ accounted_stable) | done..].
Qed.

(** The publish is over: the dispatcher is at work on the new pair. *)
Lemma publishing_done (l0 l : list TileSet) v0 t0 w :
  publishing l0 v0 l t0 w → tileset_data (store w) = (l, v0 + 1) →
  working l (v0 + 1) t0 w ∧ outstanding_jobs w ≤ 0.
Proof.
  intros (Hacc & Hout & Hm & _ & Hps & Ht) Htd. split; [|lia].
  destruct (at_rest_in_flight w Hacc) as [_ Hfl]; [lia|].
  split_and!; [done..| | |].
  - apply no_real_jobs_ok. unfold in_flight in Hfl. lia.
  - eapply Forall_impl; [|exact Hps]. intros p.
    unfold worker_mid, worker_ok, coherent.
    destruct (MultiprocessingDispatcherProcess.at_pc p); try done.
    intros [?|?]; [right; lia | by left].
  - exists []. rewrite app_nil_r. split; [done|]. cbn. by rewrite nothing_to_come.
Qed.

(** The first assignment of the publish, on a dispatcher at rest. *)
Lemma at_rest_publishing (l : list TileSet) m0 w :
  at_rest w → manager w = Some m0 →
  publishing (tilesets m0) (tileset_version m0) l (trace w)
    (set_manager (Some {| tilesets := l; tileset_version := tileset_version m0 + 1 |}) w)
  ∧ tileset_data (store w) = (tilesets m0, tileset_version m0).
Proof.
  intros (Hout & m & Hacc & Hm & Htd & Hq & Hps & _) Hm0.
  rewrite Hm in Hm0. injection Hm0 as <-. cbn. split; [|done].
  destruct (at_rest_in_flight w Hacc) as [_ Hfl]; [lia|].
  split_and!; [by apply (stable_manager _ accounted_stable) | done | done | by left | | done].
  cbn. apply Forall_lookup. intros i p Hp.
  pose proof (Forall_lookup_1 _ _ _ _ Hps Hp) as Hok.
  assert (MultiprocessingDispatcherProcess.busy p = false) as Hbusy.
  { apply (count_zero_lookup _ (procs w) i); [|done].
    unfold in_flight, busy_procs in Hfl. lia. }
  unfold worker_ok, worker_mid, coherent, cache, MultiprocessingDispatcherProcess.busy in *.
  destruct (MultiprocessingDispatcherProcess.at_pc p); try done.
  destruct Hok as [[= _ ->]|?]; left; lia.
Qed.

Lemma set_tilesets_disciplined (l : list TileSet) m0 t0 :
  triple (λ w, at_rest w ∧ manager w = Some m0 ∧ trace w = t0)
    (set_tilesets l)
    (λ _ w, working l (tileset_version m0 + 1) t0 w ∧ outstanding_jobs w ≤ 0)
    (λ _ _, False)
    (publishing (tilesets m0) (tileset_version m0) l t0).
Proof.
  intros w (Hrest & Hm & <-).
  destruct (at_rest_publishing l m0 w Hrest Hm) as [Hpub Htd].
  unfold set_tilesets, bind at 1, get_manager. rewrite Hm. rewrite bind_modify.
  set (w1 := set_manager _ w) in *.
  unfold bind at 1, yield at 1. destruct (oracle w1) as [|s1 o]; [done|].
  rewrite bind_modify.
  set (w2 := run_procs s1 (set_oracle o w1)).
  assert (publishing (tilesets m0) (tileset_version m0) l (trace w) w2) as Hpub2.
  { apply publishing_run_procs.
    destruct Hpub as (? & ? & ? & ? & ? & ?). by split_and!. }
  assert (tileset_data (store w2) = (tilesets m0, tileset_version m0)) as Htd2.
  { pose proof (run_procs_frame s1 (set_oracle o w1)) as (_ & _ & _ & _ & _ & Hd & _).
    unfold w2. by rewrite Hd. }
  set (w3 := set_store _ w2).
  assert (publishing (tilesets m0) (tileset_version m0) l (trace w) w3) as Hpub3.
  { apply publishing_write; [done|]. rewrite Htd2. by right; left. }
  assert (tileset_data (store w3) = (l, tileset_version m0)) as Htd3.
  { unfold w3. cbn. by rewrite Htd2. }
  assert (oracle w3 = o) as Ho3.
  { unfold w3, w2. cbn. by rewrite run_procs_oracle. }
  unfold bind at 1, yield at 1. rewrite Ho3. destruct o as [|s2 o]; [done|].
  unfold modify.
  set (w4 := run_procs s2 (set_oracle o w3)).
  assert (publishing (tilesets m0) (tileset_version m0) l (trace w) w4) as Hpub4.
  { apply publishing_run_procs.
    destruct Hpub3 as (? & ? & ? & ? & ? & ?). by split_and!. }
  assert (tileset_data (store w4) = (l, tileset_version m0)) as Htd4.
  { pose proof (run_procs_frame s2 (set_oracle o w3)) as (_ & _ & _ & _ & _ & Hd & _).
    unfold w4. by rewrite Hd. }
  apply (publishing_done (tilesets m0)).
  - apply publishing_write; [done|]. rewrite Htd4. by right; right.
  - cbn. by rewrite Htd4.
Qed.

(** [render_all] from a dispatcher at rest. *)
Lemma render_all_disciplined (tilesetlist : list TileSet) m0 t0 :
  triple (λ w, at_rest w ∧ manager w = Some m0 ∧ trace w = t0)
    (render_all MultiprocessingDispatcher.self tilesetlist)
    (λ _ w, working tilesetlist (tileset_version m0 + 1) t0 w ∧ outstanding_jobs w ≤ 0)
    (λ _ w, working tilesetlist (tileset_version m0 + 1) t0 w)
    (λ w, publishing (tilesets m0) (tileset_version m0) tilesetlist t0 w
          ∨ working tilesetlist (tileset_version m0 + 1) t0 w).
Proof.
  apply (ws_render_all _ _ (working_stable tilesetlist (tileset_version m0 + 1) t0)).
  - eapply triple_conseq; [apply set_tilesets_disciplined | | | |].
    + intros w Hw. exact Hw.
    + intros a w Hw. exact Hw.
    + intros e w [].
    + intros w Hw. by left.
  - by intros e w Hw.
  - intros w Hw. by right.
Qed.

(** *** The dispatcher at rest *)

Lemma working_at_rest (l : list TileSet) v t0 w :
  working l v t0 w → outstanding_jobs w ≤ 0 → at_rest w.
Proof.
  intros (Hacc & Hm & Htd & Hq & Hps & _) Hout.
  destruct (at_rest_in_flight w Hacc Hout) as [Hout' Hfl].
  split; [done|]. exists {| tilesets := l; tileset_version := v |}. cbn.
  split_and!; [done..|]. exists []. rewrite app_nil_r. split; [done|].
  cbn. by rewrite nothing_to_come.
Qed.

Lemma at_rest_step w i : at_rest w → at_rest (step_proc w i).
Proof.
  intros (Hout & m & Hw).
  pose proof (step_proc_frame w i) as (_ & Hout' & _ & _ & _ & Ht' & _).
  split; [by rewrite Hout'|]. exists m. rewrite Ht'.
  by apply (ws_step _ _ (working_stable _ _ _)).
Qed.

Lemma at_rest_init local_procs0 cpu_count :
  at_rest (MultiprocessingDispatcher.init local_procs0 cpu_count : World).
Proof.
  split; [done|]. exists {| tilesets := []; tileset_version := 0 |}.
  split_and!; [apply accounted_init | done | done | by constructor | |].
  - cbn. apply Forall_replicate. unfold worker_ok. by cbn.
  - exists []. split; [done|]. rewrite nothing_to_come; [done|].
    pose proof (accounted_init local_procs0 cpu_count) as (_ & Hfl & _).
    change (outstanding_jobs _) with 0 in Hfl. lia.
Qed.

Lemma render_all_raise_publish (tilesetlist : list TileSet) w m e w' :
  manager w = Some m →
  render_all MultiprocessingDispatcher.self tilesetlist w = Raise e w' →
  set_tilesets tilesetlist w = Ret () w'.
Proof.
  intros Hm Hr.
  destruct (render_all_raises_only_on_empty_aux tilesetlist w m e w' Hm Hr) as [-> ->].
  apply bind_raise_inv in Hr as [Hs|([] & w1 & Hs & Hrest)].
  - by apply set_tilesets_no_raise with (m := m) in Hs.
  - cbn in Hs. unfold MultiprocessingDispatcher.setup_tilesets in Hs.
    rewrite Hs. cbn in Hrest. by injection Hrest as ->.
Qed.

Lemma disciplined_at_rest w : disciplined w → at_rest w.
Proof.
  induction 1 as [lp cpu Hcpu|w l w' _ IH Hr|w l e w' _ IH Hr|w sched _ IH|w o _ IH].
  - apply at_rest_init.
  - destruct IH as (Hout & m & Hw). pose proof Hw as (_ & Hm & _).
    pose proof (render_all_disciplined l _ (trace w) w
                  (conj (conj Hout (ex_intro _ m Hw)) (conj Hm eq_refl))) as Ht.
    rewrite Hr in Ht. destruct Ht as [Hw' Hout']. by eapply working_at_rest.
  - destruct IH as (Hout & m & Hw). pose proof Hw as (_ & Hm & _).
    apply (render_all_raise_publish _ _ _ _ _ Hm) in Hr.
    pose proof (set_tilesets_disciplined l _ (trace w) w
                  (conj (conj Hout (ex_intro _ m Hw)) (conj Hm eq_refl))) as Ht.
    rewrite Hr in Ht. destruct Ht as [Hw' Hout']. by eapply working_at_rest.
  - revert IH. apply run_procs_ind. intros. by apply at_rest_step.
  - destruct IH as (Hout & m & Hw). split; [done|]. exists m.
    by apply (ws_oracle _ _ (working_stable _ _ _)).
Qed.

(** *** What a run of [render_all] gets done *)

Lemma img_position (l : list TileSet) v (ws : list (TileSet * WorkItem)) :
  (∀ tileset workitem, (tileset, workitem) ∈ ws → tileset ∈ l) →
  img l <$> map (λ '(tileset, workitem), (v, position tileset l, workitem)) ws
  = (λ work, do_work work.1 work.2) <$> ws.
Proof.
  induction ws as [|[tileset workitem] ws IH]; intros Hin; [done|].
  cbn [map fmap list_fmap]. f_equal.
  - unfold img. cbn. rewrite position_lookup; [done|].
    apply (Hin tileset workitem). by left.
  - apply IH. intros ts wi Hts. apply (Hin ts wi). by right.
Qed.

Lemma img_all_jobs (l : list TileSet) v :
  img l <$> all_jobs v l = (λ work, do_work work.1 work.2) <$> all_work l.
Proof.
  unfold all_jobs, all_work. generalize (xrange (max_phases l)). intros ps.
  induction ps as [|phase ps IH]; [done|].
  cbn [map concat]. rewrite !fmap_app, IH. f_equal.
  unfold phase_jobs. apply img_position.
  intros tileset workitem Hin. by apply phase_work_elem in Hin as [? _].
Qed.

Lemma count_length_app_eq t0 t :
  Z.of_nat (dispatched t0) - Z.of_nat (drained t0) = 0 →
  Z.of_nat (dispatched (t0 ++ t)) - Z.of_nat (drained (t0 ++ t)) = 0 →
  length (jobs_of t) = length (results_of t).
Proof.
  unfold dispatched, drained at 2. rewrite !count_app.
  rewrite <- dispatched_jobs_of, <- drained_results_of. unfold dispatched, drained. lia.
Qed.

(** At every point of a disciplined run the dispatcher is at work or in
    the middle of a publish. *)
Lemma disciplined_point_cases w :
  disciplined_point w →
  (∃ l v t0, working l v t0 w) ∨ (∃ l0 v0 l t0, publishing l0 v0 l t0 w).
Proof.
  intros [w' Hw|w' tilesetlist Hw]; apply disciplined_at_rest in Hw.
  - destruct Hw as (_ & m & Hw). left. eauto.
  - pose proof Hw as (Hout & m & Hwk). pose proof Hwk as (_ & Hm & _).
    pose proof (render_all_disciplined tilesetlist _ (trace w') w'
                  (conj Hw (conj Hm eq_refl))) as Ht.
    destruct (render_all MultiprocessingDispatcher.self tilesetlist w') as [[] w1|e w1|w1];
      cbn [final].
    + destruct Ht as [Ht _]. left. eauto.
    + left. eauto.
    + destruct Ht as [Ht|Ht]; [right | left]; eauto 6.
Qed.

(** X11. In a dispatcher that is only used through [render_all], at
    every point of every run, no worker fails the assertion on the version
    and no worker finds its index out of range: a worker dies only of an
    exception of [do_work], and a worker that does a job holds the list and
    the version of the manager, the version is the one of the job, and the
    list has a tileset at the index of the job. *)
Theorem disciplined_workers_sound w i p :
  disciplined_point w → procs w !! i = Some p →
  (∀ e, MultiprocessingDispatcherProcess.at_pc p = MultiprocessingDispatcherProcess.Died e →
        e = WorkError)
  ∧ (∀ tv ti workitem,
       MultiprocessingDispatcherProcess.at_pc p
         = MultiprocessingDispatcherProcess.Working (tv, ti, workitem) →
       ∃ m, manager w = Some m
         ∧ cache p = (tilesets m, tileset_version m)
         ∧ tv = tileset_version m
         ∧ is_Some (tilesets m !! ti)).
Proof.
  intros Hw Hp.
  destruct (disciplined_point_cases w Hw)
    as [(l & v & t0 & _ & Hm & _ & _ & Hps & _)|(l0 & v0 & l & t0 & _ & _ & _ & _ & Hps & _)].
  - pose proof (Forall_lookup_1 _ _ _ _ Hps Hp) as Hok. unfold worker_ok in Hok.
    split.
    + intros e He. by rewrite He in Hok.
    + intros tv ti workitem Hpc. rewrite Hpc in Hok. destruct Hok as (Hc & -> & Hti).
      eexists. split; [exact Hm|]. cbn. split_and!; [done | done |].
      by apply lookup_lt_is_Some_2.
  - pose proof (Forall_lookup_1 _ _ _ _ Hps Hp) as Hok. unfold worker_mid in Hok.
    split.
    + intros e He. by rewrite He in Hok.
    + intros tv ti workitem Hpc. by rewrite Hpc in Hok.
Qed.

(** What a call of [render_all] that returns has drained. *)
Lemma render_all_drains_work tilesetlist w w' :
  disciplined w →
  render_all MultiprocessingDispatcher.self tilesetlist w = Ret () w' →
  ∃ t, trace w' = trace w ++ t
    ∧ Some <$> results_of t
      ≡ₚ (λ work, do_work work.1 work.2) <$> all_work tilesetlist
    ∧ Forall (λ work, is_Some (do_work work.1 work.2)) (all_work tilesetlist).
Proof.
  intros Hw Hr. apply disciplined_at_rest in Hw.
  pose proof Hw as (Hout & m & Hwk). pose proof Hwk as (Hacc & Hm & _).
  pose proof (render_all_disciplined tilesetlist _ (trace w) w
                (conj Hw (conj Hm eq_refl))) as Ht.
  pose proof (render_all_triple tilesetlist _ (jobs_of (trace w)) w (conj Hm eq_refl)) as Hj.
  rewrite Hr in Ht, Hj. cbn in Ht, Hj.
  destruct Ht as [(Hacc' & _ & _ & _ & _ & t & Ht & Hsub) Hout'].
  destruct Hj as [_ Hj].
  destruct (at_rest_in_flight w' Hacc' Hout') as [Hout0 Hfl].
  rewrite nothing_to_come, app_nil_r in Hsub by done.
  rewrite Ht, jobs_of_app in Hj. apply app_inv_head in Hj.
  assert (Some <$> results_of t ≡ₚ img tilesetlist <$> jobs_of t) as Hperm.
  { apply submseteq_length_Permutation; [done|]. rewrite !length_fmap.
    destruct Hacc as (Hc & _), Hacc' as (Hc' & _). rewrite Ht in Hc'.
    rewrite (count_length_app_eq (trace w) t); [done | lia | lia]. }
  rewrite Hj, img_all_jobs in Hperm.
  exists t. split_and!; [done | done |].
  apply Forall_lookup. intros k work Hin%list_elem_of_lookup_2.
  assert (do_work work.1 work.2 ∈ Some <$> results_of t) as Hin'.
  { rewrite Hperm. apply list_elem_of_fmap. by exists work. }
  apply list_elem_of_fmap in Hin' as (r & -> & _). by eexists.
Qed.

(** X12. In a dispatcher that is only used through [render_all], a call
    of [render_all] that returns has drained, as a multiset, exactly the
    results of [do_work] on the work items of its tilesets, each work item
    done once and on its own tileset; so no [do_work] raised. *)
Theorem render_all_does_all_work tilesetlist w w' :
  disciplined w →
  render_all MultiprocessingDispatcher.self tilesetlist w = Ret () w' →
  ∃ t, trace w' = trace w ++ t
    ∧ Some <$> results_of t
      ≡ₚ (λ work, do_work work.1 work.2) <$> all_work tilesetlist
    ∧ Forall (λ work, is_Some (do_work work.1 work.2)) (all_work tilesetlist).
Proof. apply render_all_drains_work. Qed.

(** ** The order of the versions, in every use of the dispatcher *)

Lemma job_behind_mono sv sv' (j : option (@Job WorkItem)) :
  sv ≤ sv' → job_behind sv j → job_behind sv' j.
Proof. destruct j as [j|]; cbn; [lia | done]. Qed.

Lemma worker_behind_mono sv sv' p :
  sv ≤ sv' → worker_behind sv p → worker_behind sv' p.
Proof.
  unfold worker_behind. destruct (MultiprocessingDispatcherProcess.at_pc p); lia.
Qed.

Lemma run_behind sv p s :
  (tileset_data s).2 = sv →
  worker_behind sv p → Forall (job_behind sv) (job_queue s) →
  worker_behind sv (MultiprocessingDispatcherProcess.run p s).1
  ∧ Forall (job_behind sv) (job_queue (MultiprocessingDispatcherProcess.run p s).2).
Proof.
  intros Hsv Hp Hq.
  destruct p as [ts ver [| |[[tv ti] wi]|[[tv ti] wi]| |e]];
    unfold MultiprocessingDispatcherProcess.run, worker_behind, stamp in *; cbn in *.
  - unfold MultiprocessingDispatcherProcess.update_tilesets, get_tilesets.
    destruct (tileset_data s) as [l v]. cbn in *. split; [lia | done].
  - destruct (job_queue s) as [|[j|] q] eqn:Hjq; cbn; rewrite ?Hjq; [done|..];
      apply Forall_cons_1 in Hq as [Hj Hq]; done.
  - unfold MultiprocessingDispatcherProcess.update_tilesets, get_tilesets.
    destruct (tileset_data s) as [l v]. cbn in *.
    repeat case_decide; cbn; split; try done; lia.
  - destruct (ts !! ti) as [tileset|]; cbn; [|split; [lia | done]].
    destruct (do_work tileset wi); cbn; split; try done; lia.
  - done.
  - done.
Qed.

Lemma versions_ordered_step w i : versions_ordered w → versions_ordered (step_proc w i).
Proof.
  intros Hw. destruct (procs w !! i) as [p|] eqn:Hp; [|by rewrite step_proc_none].
  destruct Hw as [Hq Hps].
  pose proof (step_proc_frame w i) as (_ & _ & _ & _ & _ & _ & Htd & _).
  destruct (step_proc_run w i p Hp) as [Hprocs Hstore].
  destruct (run_behind (stored_version w) p (store w)) as [Hp' Hq'];
    [done | by eapply Forall_lookup_1 | done |].
  unfold versions_ordered, stored_version. rewrite Htd, Hprocs, Hstore.
  split; [done | by apply Forall_insert].
Qed.

Lemma versions_ordered_write w (f : list TileSet * Z → list TileSet * Z) :
  (tileset_data (store w)).2 ≤ (f (tileset_data (store w))).2 →
  versions_ordered w → versions_ordered (set_store (set_tileset_data f) w).
Proof.
  intros Hle [Hq Hps]. unfold versions_ordered, stored_version in *. cbn. split.
  - eapply Forall_impl; [|exact Hq]. intros j. by apply job_behind_mono.
  - eapply Forall_impl; [|exact Hps]. intros p. by apply worker_behind_mono.
Qed.

Lemma in_step_lag w : in_step w → publish_lag w.
Proof. intros Hs m Hm. unfold stored_version. rewrite (Hs m Hm). cbn. lia. Qed.

Lemma in_order_stable :
  work_stable (λ w, versions_ordered w ∧ in_step w) (λ _, True).
Proof.
  split; try done.
  - intros w i [Ho Hs]. split; [by apply versions_ordered_step|].
    pose proof (step_proc_frame w i) as (_ & _ & Hm & _ & _ & _ & Htd & _).
    unfold in_step. by rewrite Hm, Htd.
  - intros w m i tileset workitem [[Hq Hps] Hs] Hm Hi. split; [|done].
    split; [|done]. cbn. apply Forall_app. split; [done|].
    constructor; [|done]. unfold job_behind, stamp, stored_version. cbn.
    rewrite (Hs m Hm). done.
Qed.

(** The publish: in order where it ends, at most one version behind
    where it is cut. *)
Lemma set_tilesets_versions (l : list TileSet) :
  triple (λ w, versions_ordered w ∧ in_step w)
    (set_tilesets l)
    (λ _ w, versions_ordered w ∧ in_step w)
    (λ _ w, versions_ordered w ∧ in_step w)
    (λ w, versions_ordered w ∧ publish_lag w).
Proof.
  intros w [Ho Hs]. unfold set_tilesets, bind at 1, get_manager.
  destruct (manager w) as [m|] eqn:Hm; [|done].
  pose proof (Hs m Hm) as Htd. rewrite bind_modify.
  set (m' := {| tilesets := l; tileset_version := tileset_version m + 1 |}).
  set (w1 := set_manager (Some m') w).
  assert (∀ w', versions_ordered w' → manager w' = Some m' →
            (tileset_data (store w')).2 = tileset_version m →
            versions_ordered w' ∧ publish_lag w') as Hcut.
  { intros w' Ho' Hm' Hv. split; [done|]. intros m0 Hm0. rewrite Hm' in Hm0.
    injection Hm0 as <-. unfold stored_version. rewrite Hv. cbn. lia. }
  unfold bind at 1, yield at 1. destruct (oracle w1) as [|s1 o] eqn:Ho1.
  { apply Hcut; [done | done | unfold w1; cbn; by rewrite Htd]. }
  rewrite bind_modify.
  set (w2 := run_procs s1 (set_oracle o w1)).
  pose proof (run_procs_frame s1 (set_oracle o w1)) as (_ & _ & Hm2 & _ & _ & Htd2 & _).
  fold w2 in Hm2, Htd2. cbn in Hm2, Htd2.
  assert (versions_ordered w2) as Ho2.
  { apply run_procs_ind; [apply versions_ordered_step | done]. }
  set (w3 := set_store _ w2).
  assert (versions_ordered w3) as Ho3 by (by apply versions_ordered_write).
  assert (tileset_data (store w3) = (l, tileset_version m)) as Htd3.
  { unfold w3. cbn. by rewrite Htd2, Htd. }
  assert (oracle w3 = o) as Ho3'.
  { unfold w3, w2. cbn. by rewrite run_procs_oracle. }
  unfold bind at 1, yield at 1. rewrite Ho3'. destruct o as [|s2 o].
  { apply Hcut; [done | done | by rewrite Htd3]. }
  unfold modify.
  set (w4 := run_procs s2 (set_oracle o w3)).
  pose proof (run_procs_frame s2 (set_oracle o w3)) as (_ & _ & Hm4 & _ & _ & Htd4 & _).
  fold w4 in Hm4, Htd4.
  assert (tileset_data (store w4) = (l, tileset_version m)) as Htd4'
    by (rewrite Htd4; exact Htd3).
  assert (manager w4 = Some m') as Hm4' by (rewrite Hm4; exact Hm2).
  assert (versions_ordered w4) as Ho4.
  { apply run_procs_ind; [apply versions_ordered_step | done]. }
  split.
  - apply versions_ordered_write; [|done]. rewrite Htd4'. cbn. lia.
  - intros m0 Hm0. change (manager w4 = Some m0) in Hm0. rewrite Hm4' in Hm0.
    injection Hm0 as <-. cbn. by rewrite Htd4'.
Qed.

Lemma close_versions :
  keeps (λ w, versions_ordered w ∧ in_step w) MultiprocessingDispatcher.close.
Proof.
  unfold MultiprocessingDispatcher.close.
  apply keeps_bind; [intros w Hw; by destruct (pool w) | intros workers].
  apply keeps_bind.
  { apply keeps_for_each. intros _. unfold put_job.
    apply keeps_bind; [apply (ws_yield _ _ in_order_stable) | intros _].
    apply keeps_modify. intros w [[Hq Hps] Hs]. split; [|done]. split; [|done].
    cbn. apply Forall_app. split; [done|]. by constructor. }
  intros _. apply keeps_bind; [apply keeps_get_manager | intros _].
  apply keeps_bind; apply keeps_modify || intros _.
  - intros w [Ho Hs]. by split.
  - apply keeps_modify. intros w [Ho Hs]. by split.
Qed.

Lemma exec_versions c :
  triple (λ w, versions_ordered w ∧ in_step w)
    (exec c)
    (λ _ w, versions_ordered w ∧ in_step w)
    (λ _ w, versions_ordered w ∧ in_step w)
    (λ w, versions_ordered w ∧ publish_lag w).
Proof.
  assert (∀ m : M World unit,
            keeps (λ w, versions_ordered w ∧ in_step w) m →
            triple (λ w, versions_ordered w ∧ in_step w) m
              (λ _ w, versions_ordered w ∧ in_step w)
              (λ _ w, versions_ordered w ∧ in_step w)
              (λ w, versions_ordered w ∧ publish_lag w)) as Hkeeps.
  { intros m Hk w Hw. specialize (Hk w Hw).
    destruct (m w); cbn in Hk; [done | done |].
    destruct Hk as [Ho Hs]. split; [done | by apply in_step_lag]. }
  destruct c as [l|l|tileset workitem| |]; cbn [exec].
  - eapply triple_conseq;
      [apply (ws_render_all _ _ in_order_stable _ l
                (λ _ w, versions_ordered w ∧ in_step w)
                (λ w, versions_ordered w ∧ publish_lag w)) | | | |].
    + eapply triple_conseq; [apply set_tilesets_versions | | | |].
      * intros w Hw. exact Hw.
      * intros a w Hw. split; [exact Hw | exact Logic.I].
      * intros e w Hw. exact Hw.
      * intros w Hw. exact Hw.
    + intros e w Hw. exact Hw.
    + intros w [Ho Hs]. split; [done | by apply in_step_lag].
    + intros w Hw. exact Hw.
    + intros a w [Hw _]. exact Hw.
    + intros e w Hw. exact Hw.
    + intros w Hw. exact Hw.
  - apply set_tilesets_versions.
  - apply Hkeeps, (ws_dispatch _ _ in_order_stable).
  - apply Hkeeps, (ws_finish_work _ _ in_order_stable).
  - apply Hkeeps, close_versions.
Qed.

Lemma idle_in_order w : idle w → versions_ordered w ∧ in_step w.
Proof.
  induction 1 as [lp cpu Hcpu|w c w' _ IH Hc|w c e w' _ IH Hc|w sched _ IH|w o _ IH].
  - split.
    + split; [by constructor|]. cbn. apply Forall_replicate. by unfold worker_behind.
    + intros m [= <-]. done.
  - pose proof (exec_versions c w IH) as Ht. by rewrite Hc in Ht.
  - pose proof (exec_versions c w IH) as Ht. by rewrite Hc in Ht.
  - revert IH. apply (run_procs_ind (λ w, versions_ordered w ∧ in_step w)).
    intros w1 i. exact (ws_step _ _ in_order_stable w1 i).
  - exact (ws_oracle _ _ in_order_stable w o IH).
Qed.

Lemma reachable_in_order w : reachable w → versions_ordered w ∧ publish_lag w.
Proof.
  intros [w' Hw'|w' c Hw']; apply idle_in_order in Hw'.
  - destruct Hw' as [Ho Hs]. split; [done | by apply in_step_lag].
  - pose proof (exec_versions c w' Hw') as Ht.
    destruct (exec c w'); cbn [final]; try done;
      destruct Ht as [Ho Hs]; (split; [done | by apply in_step_lag]).
Qed.

(** X13. In every use of the dispatcher the versions are in order.
    Between calls the manager object and the shared pair hold the same
    list and version. At every point the shared version is the one of the
    manager object or one behind it, no job on the queue or in the hands of
    a worker is stamped with a later version than the shared one, and no
    worker has cached a later version than the shared one. *)
Theorem versions_in_order w :
  reachable w →
  (idle w → in_step w)
  ∧ publish_lag w
  ∧ (∀ j, Some j ∈ job_queue (store w) → stamp j ≤ stored_version w)
  ∧ (∀ i p, procs w !! i = Some p →
       MultiprocessingDispatcherProcess.at_pc p ≠ MultiprocessingDispatcherProcess.Starting →
       MultiprocessingDispatcherProcess.tileset_version p ≤ stored_version w
       ∧ ∀ j, j ∈ held p → stamp j ≤ stored_version w).
Proof.
  intros Hw. split; [by intros [_ Hs]%idle_in_order|].
  apply reachable_in_order in Hw as [[Hq Hps] Hlag]. split; [done|]. split.
  - intros j [k Hj]%list_elem_of_lookup_1.
    by pose proof (Forall_lookup_1 _ _ _ _ Hq Hj).
  - intros i p Hp Hpc. pose proof (Forall_lookup_1 _ _ _ _ Hps Hp) as Hb.
    unfold worker_behind, held in *.
    destruct (MultiprocessingDispatcherProcess.at_pc p); try done;
      (split; [lia|]); intros j Hj; try by apply elem_of_nil in Hj.
    + apply list_elem_of_singleton in Hj as ->. lia.
    + apply list_elem_of_singleton in Hj as ->. lia.
Qed.


(** ** The bound on the outstanding jobs, in every use of the dispatcher *)

(** What the loops that drain keep. *)
Section Drain.
Context (I : World → Prop).
Context (Hstep : ∀ w i, I w → I (step_proc w i)).
Context (Horacle : ∀ w o, I w → I (set_oracle o w)).
Context (Hget : ∀ w r q, I w → result_queue (store w) = r :: q →
  I (record (EvResult r)
       (set_outstanding_jobs (λ n, n - 1) (set_store (set_result_queue (λ _, q)) w)))).

Lemma drain_handle_messages_loop o w :
  I w → I (final (MultiprocessingDispatcher.handle_messages_loop o w)).
Proof.
  revert w. induction o as [|sched o IH]; intros w Hw; [done|].
  cbn [MultiprocessingDispatcher.handle_messages_loop].
  assert (I (run_procs sched (set_oracle o w))) as Hw1
    by by apply run_procs_ind, Horacle.
  destruct (result_queue (store (run_procs sched (set_oracle o w))))
    as [|r q] eqn:Hq; [done|].
  by apply IH, Hget.
Qed.

Lemma drain_while_fuel n cond : keeps I (MultiprocessingDispatcher.while_fuel n cond).
Proof.
  induction n as [|n IH]; intros w Hw; cbn [MultiprocessingDispatcher.while_fuel];
    destruct (cond w); try done.
  apply keeps_bind; [|done..]. intros w1 Hw1. by apply drain_handle_messages_loop.
Qed.
End Drain.

Lemma within_step slack w i : within slack w → within slack (step_proc w i).
Proof.
  pose proof (step_proc_frame w i) as (Hl & Ho & _). unfold within. by rewrite Hl, Ho.
Qed.

Lemma within_while_fuel slack n cond :
  0 ≤ slack → keeps (within slack) (MultiprocessingDispatcher.while_fuel n cond).
Proof.
  intros Hs. apply drain_while_fuel.
  - intros w i. apply within_step.
  - by intros w o.
  - intros w r q [Hl Ho] _. unfold within in *. cbn. lia.
Qed.

Lemma within_yield slack : keeps (within slack) yield.
Proof. apply yield_keeps; [intros w i; apply within_step | by intros w o]. Qed.

Lemma within_set_tilesets slack (l : list TileSet) : keeps (within slack) (set_tilesets l).
Proof.
  unfold set_tilesets.
  apply keeps_bind; [apply keeps_get_manager | intros m].
  apply keeps_bind; [by apply keeps_modify | intros _].
  apply keeps_bind; [apply within_yield | intros _].
  apply keeps_bind; [by apply keeps_modify | intros _].
  apply keeps_bind; [apply within_yield | intros _].
  by apply keeps_modify.
Qed.

Lemma within_close slack : keeps (within slack) MultiprocessingDispatcher.close.
Proof.
  unfold MultiprocessingDispatcher.close.
  apply keeps_bind; [intros w Hw; by destruct (pool w) | intros workers].
  apply keeps_bind.
  { apply keeps_for_each. intros _. unfold put_job.
    apply keeps_bind; [apply within_yield | intros _]. by apply keeps_modify. }
  intros _. apply keeps_bind; [apply keeps_get_manager | intros _].
  apply keeps_bind; [by apply keeps_modify | intros _]. by apply keeps_modify.
Qed.

Lemma within_finish_work : keeps (within 0) MultiprocessingDispatcher.finish_work.
Proof. intros w Hw. by apply (within_while_fuel 0 (S (length (oracle w)))). Qed.

Lemma within_weaken w : within 0 w → within 1 w.
Proof. unfold within. lia. Qed.

(** [dispatch] goes one above the threshold and comes back under it. *)
Lemma dispatch_within tileset workitem :
  triple (within 0) (MultiprocessingDispatcher.dispatch tileset workitem)
    (λ _, within 0) (λ _, within 0) (within 1).
Proof.
  intros w Hw. unfold MultiprocessingDispatcher.dispatch, bind at 1, get_manager.
  destruct (manager w) as [m|] eqn:Hm; [|done].
  unfold bind at 1, index.
  destruct (list_find _ (tilesets m)) as [[i y]|] eqn:Hfind; [|done]. cbn [ret].
  unfold put_job. rewrite bind_assoc. unfold bind at 1, yield.
  destruct (oracle w) as [|sched o]; [by apply within_weaken|].
  rewrite !bind_modify.
  set (w1 := record _ _).
  assert (within 1 w1) as Hw1.
  { pose proof (run_procs_frame sched (set_oracle o w)) as (Hl & Ho & _).
    destruct Hw as [Hlp Hout]. unfold within, w1. cbn in *. rewrite Hl, Ho. lia. }
  pose proof (within_while_fuel 1 (S (length (oracle w1)))
                (λ w, bool_decide (outstanding_jobs w > local_procs w * 10))
                ltac:(lia) w1 Hw1) as Hk.
  change (MultiprocessingDispatcher.while ?c w1)
    with (MultiprocessingDispatcher.while_fuel (S (length (oracle w1))) c w1).
  destruct (MultiprocessingDispatcher.while_fuel _ _ w1) as [[] w'|e w'|w'] eqn:Hwh;
    cbn [final] in Hk.
  - apply MultiprocessingDispatcher_while_fuel_ret, bool_decide_eq_false in Hwh.
    destruct Hk as [Hl _]. split; [done | lia].
  - by apply while_fuel_no_raise in Hwh.
  - done.
Qed.

Lemma exec_within c :
  triple (within 0) (exec c) (λ _, within 0) (λ _, within 0) (within 1).
Proof.
  assert (∀ m : M World unit, keeps (within 0) m →
            triple (within 0) m (λ _, within 0) (λ _, within 0) (within 1)) as Hkeeps.
  { intros m Hk w Hw. specialize (Hk w Hw).
    destruct (m w); cbn in Hk; [done | done | by apply within_weaken]. }
  destruct c as [l|l|tileset workitem| |]; cbn [exec].
  - unfold render_all.
    cbn [setup_tilesets dispatch finish_work note MultiprocessingDispatcher.self].
    eapply triple_bind with (Q := λ _, within 0);
      [apply Hkeeps, within_set_tilesets|]. intros _.
    eapply triple_bind with (Q := λ _, within 0).
    { apply (triple_for_each (λ _, within 0)). by intros l1 x l2 _ w Hw. }
    intros _. eapply triple_bind with (Q := λ _, within 0).
    { intros w Hw. by destruct (map get_num_phases l). }
    intros n. apply (triple_for_each (λ _, within 0)). intros ps phase ps' _.
    eapply triple_bind with (Q := λ _, within 0); [by intros w Hw|]. intros _.
    eapply triple_bind with (Q := λ _, within 0).
    { apply (triple_for_each (λ _, within 0)).
      intros l1 [tileset workitem] l2 _. apply dispatch_within. }
    intros _. apply Hkeeps, within_finish_work.
  - apply Hkeeps, within_set_tilesets.
  - apply dispatch_within.
  - apply Hkeeps, within_finish_work.
  - apply Hkeeps, within_close.
Qed.

Lemma idle_within w : idle w → within 0 w.
Proof.
  induction 1 as [lp cpu Hcpu|w c w' _ IH Hc|w c e w' _ IH Hc|w sched _ IH|w o _ IH].
  - unfold within. cbn. case_decide; lia.
  - pose proof (exec_within c w IH) as Ht. by rewrite Hc in Ht.
  - pose proof (exec_within c w IH) as Ht. by rewrite Hc in Ht.
  - revert IH. apply run_procs_ind. intros w1 i. apply within_step.
  - done.
Qed.

(** X15. In every use of the dispatcher the jobs that are out are
    bounded. Between calls the counter of outstanding jobs is at most
    [local_procs * 10]; at every point it is at most one more, and so are
    the jobs that wait on the job queue, are held by a worker or wait as a
    result on the result queue, taken together. *)
Theorem outstanding_bounded w :
  reachable w →
  0 ≤ outstanding_jobs w ≤ local_procs w * 10 + 1
  ∧ Z.of_nat (in_flight w) ≤ local_procs w * 10 + 1
  ∧ (idle w → outstanding_jobs w ≤ local_procs w * 10).
Proof.
  intros Hw. pose proof (reachable_accounted w Hw) as (_ & Hfl & _).
  assert (within 1 w) as [_ Hb].
  { destruct Hw as [w Hw|w c Hw]; apply idle_within in Hw.
    - by apply within_weaken.
    - pose proof (exec_within c w Hw) as Ht.
      destruct (exec c w); cbn [final]; try done; by apply within_weaken. }
  split_and!; [lia | done | lia |]. intros [_ ?]%idle_within. lia.
Qed.

(** ** The exact count *)

(** A step of a worker loses a job exactly when the worker dies. *)
Lemma run_tally p s :
  (real_jobs (job_queue (MultiprocessingDispatcherProcess.run p s).2)
   + bit (MultiprocessingDispatcherProcess.busy (MultiprocessingDispatcherProcess.run p s).1)
   + length (result_queue (MultiprocessingDispatcherProcess.run p s).2)
   + bit (died (MultiprocessingDispatcherProcess.run p s).1)
   = real_jobs (job_queue s) + bit (MultiprocessingDispatcherProcess.busy p)
     + length (result_queue s) + bit (died p))%nat.
Proof.
  unfold MultiprocessingDispatcherProcess.run, MultiprocessingDispatcherProcess.busy,
    real_jobs, died.
  destruct p as [ts v [| |[[tv ti] wi]|[[tv ti] wi]| |e]]; cbn.
  - unfold MultiprocessingDispatcherProcess.update_tilesets.
    destruct (get_tilesets s); cbn; lia.
  - destruct (job_queue s) as [|[j|] q] eqn:Hq; cbn; rewrite ?Hq; cbn; lia.
  - unfold MultiprocessingDispatcherProcess.update_tilesets. destruct (get_tilesets s).
    repeat case_decide; cbn; lia.
  - destruct (ts !! ti) as [t|]; cbn; [|lia].
    destruct (do_work t wi); cbn; rewrite ?length_app; cbn; lia.
  - lia.
  - lia.
Qed.

Lemma tally_stable : stable (tally : World → Prop).
Proof.
  split; try done.
  - intros w i Hw. destruct (procs w !! i) as [p|] eqn:Hp; [|by rewrite step_proc_none].
    pose proof (step_proc_frame w i) as (_ & Ho & _).
    destruct (step_proc_run w i p Hp) as [Hprocs Hstore].
    pose proof (run_tally p (store w)) as Hrun.
    pose proof (count_insert MultiprocessingDispatcherProcess.busy (procs w) i p
                  (MultiprocessingDispatcherProcess.run p (store w)).1 Hp) as Hb.
    pose proof (count_insert died (procs w) i p
                  (MultiprocessingDispatcherProcess.run p (store w)).1 Hp) as Hd.
    unfold tally, in_flight, busy_procs, dead_procs in *.
    rewrite Ho, Hprocs, Hstore. lia.
  - intros w j Hw. unfold tally, in_flight, real_jobs, busy_procs, dead_procs in *. cbn.
    rewrite count_app. cbn. lia.
  - intros w r q Hw Hr. unfold tally, in_flight, real_jobs, busy_procs, dead_procs in *.
    cbn. rewrite Hr in Hw. cbn in Hw. lia.
Qed.

Lemma tally_stable_close : stable_close (tally : World → Prop).
Proof.
  split; [|done]. intros w Hw.
  unfold tally, in_flight, real_jobs, busy_procs, dead_procs in *. cbn.
  rewrite count_app. cbn. lia.
Qed.

Lemma count_replicate_false {A : Type} (f : A → bool) (x : A) n :
  f x = false → count f (replicate n x) = 0%nat.
Proof. intros Hx. induction n as [|n IH]; cbn; [done|]. by rewrite Hx, IH. Qed.

Lemma tally_init local_procs0 cpu_count :
  tally (MultiprocessingDispatcher.init local_procs0 cpu_count : World).
Proof.
  unfold tally, in_flight, busy_procs, dead_procs. cbn.
  by rewrite !count_replicate_false.
Qed.

Lemma reachable_tally w : reachable w → tally w.
Proof.
  apply reachable_stable.
  - apply tally_stable.
  - apply tally_stable_close.
  - intros. apply tally_init.
Qed.


(** ** The pool does not get stuck *)

Lemma disciplined_idle w : disciplined w → idle w.
Proof.
  induction 1 as [lp cpu Hcpu|w l w' _ IH Hr|w l e w' _ IH Hr|w sched _ IH|w o _ IH].
  - by apply idle_init.
  - by apply (idle_ret w (CallRenderAll l)).
  - by apply (idle_raise w (CallRenderAll l) e).
  - by apply idle_workers.
  - by apply idle_oracle.
Qed.


(** What the methods other than [close] keep holds at every point of a
    disciplined run. *)
Lemma disciplined_stable (I : World → Prop) w :
  stable I →
  (∀ local_procs0 cpu_count, 0 < cpu_count →
     I (MultiprocessingDispatcher.init local_procs0 cpu_count)) →
  disciplined_point w → I w.
Proof.
  intros HI Hinit.
  assert (∀ w, disciplined w → I w) as Hd.
  { induction 1 as [lp cpu Hcpu|w0 l w' _ IH Hr|w0 l e w' _ IH Hr|w0 sched _ IH|w0 o _ IH].
    - by apply Hinit.
    - pose proof (keeps_render_all I HI l w0 IH) as Hk. by rewrite Hr in Hk.
    - pose proof (keeps_render_all I HI l w0 IH) as Hk. by rewrite Hr in Hk.
    - by apply stable_run_procs.
    - by apply HI. }
  intros [w' Hw|w' l Hw]; [by apply Hd|]. apply keeps_render_all; [done|]. by apply Hd.
Qed.

Lemma pool_open_stable : stable (pool_open : World → Prop).
Proof.
  split; try done.
  - intros w i [Hs Hl].
    pose proof (step_proc_sentinels w i) as Hs'.
    pose proof (step_proc_frame w i) as (_ & _ & _ & _ & _ & _ & _ & Hl').
    unfold pool_open. rewrite Hl'. split; [lia | done].
  - intros w j [Hs Hl]. split; [|done]. unfold sentinels, returned_procs in *. cbn.
    rewrite count_app. cbn. lia.
Qed.

Lemma pool_open_init local_procs0 cpu_count :
  0 < cpu_count →
  pool_open (MultiprocessingDispatcher.init local_procs0 cpu_count : World).
Proof.
  intros Hcpu. unfold pool_open, sentinels, returned_procs. cbn.
  rewrite count_replicate_false by done. rewrite length_replicate.
  split; [done|]. case_decide; lia.
Qed.



Lemma step_proc_lookup w i p :
  procs w !! i = Some p →
  procs (step_proc w i) !! i = Some (MultiprocessingDispatcherProcess.run p (store w)).1.
Proof.
  intros Hp. destruct (step_proc_run w i p Hp) as [-> _].
  apply list_lookup_insert_eq. by eapply lookup_lt_Some.
Qed.






(** ** The dispatcher between two calls of [render_all] *)

Lemma count_split (q : list (option (@Job WorkItem))) :
  (real_jobs q + sentinels q = length q)%nat.
Proof.
  unfold real_jobs, sentinels. induction q as [|[j|] q IH]; cbn in *; lia.
Qed.

(** X18. Between the calls of a dispatcher that is only used through
    [render_all], nothing is outstanding and the pool is whole: the counter
    is 0, both queues are empty, every worker is starting or polling, none
    has died or returned, and the manager and the shared pair hold the same
    list and version. *)
Theorem disciplined_rests w :
  disciplined w →
  outstanding_jobs w = 0
  ∧ job_queue (store w) = []
  ∧ result_queue (store w) = []
  ∧ Forall (λ p, MultiprocessingDispatcherProcess.at_pc p
                   = MultiprocessingDispatcherProcess.Starting
                 ∨ MultiprocessingDispatcherProcess.at_pc p
                   = MultiprocessingDispatcherProcess.Polling) (procs w)
  ∧ ∃ m, manager w = Some m
      ∧ tileset_data (store w) = (tilesets m, tileset_version m).
Proof.
  intros Hw.
  pose proof (reachable_tally w (reachable_idle w (disciplined_idle w Hw))) as Ht.
  pose proof (disciplined_stable pool_open w pool_open_stable
                (λ lp cpu, pool_open_init lp cpu) (disciplined_between w Hw)) as [Hs _].
  apply disciplined_at_rest in Hw as (Hout & m & Hacc & Hm & Htd & _).
  destruct (at_rest_in_flight w Hacc) as [_ Hfl]; [lia|].
  unfold tally in Ht. unfold in_flight in Hfl.
  pose proof (count_split (job_queue (store w))) as Hq.
  split_and!; [done | apply nil_length_inv; lia | apply nil_length_inv; lia | | by eexists].
  apply Forall_lookup. intros i p Hp.
  assert (MultiprocessingDispatcherProcess.busy p = false) as Hb
    by (apply (count_zero_lookup _ (procs w) i); [unfold busy_procs in *; lia | done]).
  assert (returned p = false) as Hr
    by (apply (count_zero_lookup _ (procs w) i); [unfold returned_procs in *; lia | done]).
  assert (died p = false) as Hd
    by (apply (count_zero_lookup _ (procs w) i); [unfold dead_procs in *; lia | done]).
  unfold MultiprocessingDispatcherProcess.busy, returned, died in *.
  destruct (MultiprocessingDispatcherProcess.at_pc p); try done; (by left) || (by right).
Qed.

(** ** [render_all] returns when one worker keeps up *)

(** A step of a fit worker: it stays fit, loses no job, and is one step
    closer to polling an empty queue. *)
Lemma run_fit (l : list TileSet) v p s :
  fit l v p → tileset_data s = (l, v) →
  Forall (λ j, ∃ job, j = Some job ∧ doable l v job) (job_queue s) →
  fit l v (MultiprocessingDispatcherProcess.run p s).1
  ∧ tileset_data (MultiprocessingDispatcherProcess.run p s).2 = (l, v)
  ∧ Forall (λ j, ∃ job, j = Some job ∧ doable l v job)
      (job_queue (MultiprocessingDispatcherProcess.run p s).2)
  ∧ (length (job_queue (MultiprocessingDispatcherProcess.run p s).2)
     + bit (MultiprocessingDispatcherProcess.busy (MultiprocessingDispatcherProcess.run p s).1)
     + length (result_queue (MultiprocessingDispatcherProcess.run p s).2)
     = length (job_queue s) + bit (MultiprocessingDispatcherProcess.busy p)
       + length (result_queue s))%nat
  ∧ rank (MultiprocessingDispatcherProcess.run p s).1
      (job_queue (MultiprocessingDispatcherProcess.run p s).2)
    = pred (rank p (job_queue s)).
Proof.
  intros Hp Htd Hq.
  destruct p as [ts ver [| |[[tv ti] wi]|[[tv ti] wi]| |e]];
    unfold MultiprocessingDispatcherProcess.run, fit, coherent, cache, rank,
      MultiprocessingDispatcherProcess.busy, doable, job_ok in *;
    cbn in *; try done.
  - unfold MultiprocessingDispatcherProcess.update_tilesets, get_tilesets.
    rewrite Htd. cbn. split_and!; try done; try lia. by left.
  - destruct (job_queue s) as [|[[[tv ti] wi]|] q] eqn:Hjq; cbn; rewrite ?Hjq.
    + done.
    + apply Forall_cons_1 in Hq as [(job & [= <-] & Hj) Hq].
      unfold doable, job_ok in Hj. destruct Hj as [[-> Hti] Himg].
      split_and!; try done; lia.
    + by apply Forall_cons_1 in Hq as [(job & ? & _) _].
  - destruct Hp as (Hc & (-> & Hti) & Himg).
    unfold MultiprocessingDispatcherProcess.update_tilesets, get_tilesets.
    rewrite Htd. case_decide as Hv; cbn.
    + rewrite decide_True by done. cbn. split_and!; try done; lia.
    + assert (v = ver) as <- by (destruct (decide (v = ver)); [done | by destruct Hv]).
      destruct Hc as [[= ->]|]; [|lia]. split_and!; try done; lia.
  - destruct Hp as ([= -> ->] & (-> & Hti) & [r Himg]).
    unfold img in Himg. cbn in Himg.
    destruct (l !! ti) as [tileset|] eqn:Hts; [|done]. cbn in Himg. rewrite Himg. cbn.
    rewrite length_app. cbn. split_and!; try done; try lia. by left.
Qed.

Lemma step_first_worker (l : list TileSet) v w :
  served l v w →
  served l v (step_proc w 0)
  ∧ load (step_proc w 0) = load w
  ∧ rank_of (step_proc w 0) = pred (rank_of w).
Proof.
  intros (Htd & Hq & p & Hp & Hfit).
  destruct (step_proc_run w 0%nat p Hp) as [Hprocs Hstore].
  pose proof (step_proc_lookup w 0%nat p Hp) as Hp'.
  destruct (run_fit l v p (store w) Hfit Htd Hq) as (Hfit' & Htd' & Hq' & Hload & Hrank).
  unfold served, load, rank_of. rewrite Hp', Hp, Hstore.
  split_and!; [done | done | by eexists | lia | done].
Qed.

Lemma run_first_worker (l : list TileSet) v n w :
  served l v w →
  served l v (run_procs (replicate n 0%nat) w)
  ∧ load (run_procs (replicate n 0%nat) w) = load w
  ∧ rank_of (run_procs (replicate n 0%nat) w) = (rank_of w - n)%nat.
Proof.
  revert w. induction n as [|n IH]; intros w Hw.
  - cbn. split_and!; [done | done | lia].
  - cbn [replicate]. rewrite run_procs_cons.
    destruct (step_first_worker l v w Hw) as (Hw' & Hload & Hrank).
    destruct (IH _ Hw') as (Hw'' & Hload' & Hrank').
    split_and!; [done | lia | lia].
Qed.

(** A worker that is fit and has nothing left to do polls an empty
    queue. *)
Lemma rank_zero (l : list TileSet) v w :
  served l v w → rank_of w = 0%nat →
  job_queue (store w) = [] ∧ load w = length (result_queue (store w)).
Proof.
  intros (_ & _ & p & Hp & Hfit). unfold rank_of, load, rank, fit in *.
  rewrite Hp. unfold MultiprocessingDispatcherProcess.busy.
  destruct (MultiprocessingDispatcherProcess.at_pc p); try done; try lia.
  intros Hr. assert (job_queue (store w) = []) as Hq by (apply nil_length_inv; lia).
  rewrite Hq. cbn. split; [done | lia].
Qed.

(** A scheduling point of the calm dispatcher: the first worker catches
    up. *)
Lemma calm_yield (l : list TileSet) v w sched o :
  calm l v 4 w → oracle w = sched :: o →
  yield w = Ret () (run_procs first_worker (set_oracle o w))
  ∧ calm l v 0 (run_procs first_worker (set_oracle o w))
  ∧ oracle (run_procs first_worker (set_oracle o w)) = o
  ∧ outstanding_jobs (run_procs first_worker (set_oracle o w)) = outstanding_jobs w.
Proof.
  intros (Hlp & Hm & Hs & Hout & Hor & Hr) Ho.
  rewrite Ho in Hor. apply Forall_cons_1 in Hor as [-> Hor].
  pose proof (run_procs_frame first_worker (set_oracle o w))
    as (Hlp' & Hout' & Hm' & _).
  pose proof (run_procs_oracle first_worker (set_oracle o w)) as Ho'.
  destruct (run_first_worker l v 4 (set_oracle o w)) as (Hs' & Hload & Hrank); [done|].
  fold first_worker in Hs', Hload, Hrank.
  split_and!.
  - unfold yield. by rewrite Ho.
  - unfold calm. rewrite Hlp', Hm', Hout', Ho', Hload, Hrank.
    split_and!; try done. change (rank_of (set_oracle o w)) with (rank_of w). lia.
  - done.
  - done.
Qed.

Lemma calm_weaken (l : list TileSet) v r r' w :
  (r ≤ r')%nat → calm l v r w → calm l v r' w.
Proof. intros Hr (? & ? & ? & ? & ? & ?). split_and!; try done. lia. Qed.

Lemma calm_load (l : list TileSet) v r w : calm l v r w → 0 ≤ outstanding_jobs w.
Proof. intros (_ & _ & _ & -> & _). lia. Qed.

Lemma calm_take (l : list TileSet) v r w x rq :
  calm l v r w → result_queue (store w) = x :: rq →
  calm l v r (record (EvResult x)
                (set_outstanding_jobs (λ n, n - 1)
                   (set_store (set_result_queue (λ _, rq)) w))).
Proof.
  intros (Hlp & Hm & Hs & Hout & Hor & Hr) Hrq.
  split_and!; try done. cbn. unfold load in *. cbn. rewrite Hrq in Hout. cbn in Hout. lia.
Qed.

Lemma calm_put (l : list TileSet) v w j :
  calm l v 0 w → doable l v j →
  calm l v 3 (record (EvDispatch j)
                (set_outstanding_jobs (λ n, n + 1)
                   (set_store (set_job_queue (λ q, q ++ [Some j])) w))).
Proof.
  intros (Hlp & Hm & Hs & Hout & Hor & Hr) Hj.
  destruct (rank_zero l v w Hs) as [Hq Hload]; [lia|].
  destruct Hs as (Htd & Hqs & p & Hp & Hfit).
  split_and!; try done.
  - split_and!; [done | | by eexists]. cbn. apply Forall_app. split; [done|].
    constructor; [by eexists | done].
  - cbn. unfold load in *. cbn. rewrite length_app. cbn. lia.
  - unfold rank_of, rank in *. cbn. rewrite Hp in *. rewrite Hq in *. cbn in *. lia.
Qed.

Lemma calm_record (l : list TileSet) v r w e :
  calm l v r w → calm l v r (record e w).
Proof. done. Qed.

(** The first scheduling point of [_handle_messages]: every job that is
    out comes to wait on the result queue. *)
Lemma calm_all_back (l : list TileSet) v w sched o :
  calm l v 4 w → oracle w = sched :: o →
  calm l v 0 (run_procs sched (set_oracle o w))
  ∧ oracle (run_procs sched (set_oracle o w)) = o
  ∧ outstanding_jobs (run_procs sched (set_oracle o w)) = outstanding_jobs w
  ∧ Z.of_nat (length (result_queue (store (run_procs sched (set_oracle o w)))))
    = outstanding_jobs w.
Proof.
  intros Hw Ho. pose proof Hw as (_ & _ & _ & _ & Hor & _).
  rewrite Ho in Hor. apply Forall_cons_1 in Hor as [-> _].
  destruct (calm_yield l v w _ o Hw Ho) as (_ & Hw1 & Ho1 & Hout1).
  pose proof Hw1 as (_ & _ & Hs1 & Hload1 & _ & Hr1).
  destruct (rank_zero l v _ Hs1) as [_ Hrq]; [lia|].
  split_and!; [done | done | done | lia].
Qed.

(** [_handle_messages] of the calm dispatcher returns, with every job
    back. *)
Lemma calm_handle_messages (l : list TileSet) v (k : nat) :
  ∀ w, calm l v 4 w → outstanding_jobs w = Z.of_nat k → (k < length (oracle w))%nat →
  ∃ w', MultiprocessingDispatcher.handle_messages_loop (oracle w) w = Ret () w'
    ∧ calm l v 0 w' ∧ outstanding_jobs w' = 0
    ∧ length (oracle w') = (length (oracle w) - k - 1)%nat.
Proof.
  induction k as [|k IH]; intros w Hw Hout Hlen.
  - destruct (oracle w) as [|sched o] eqn:Ho; [cbn in Hlen; lia|].
    destruct (calm_all_back l v w sched o Hw Ho) as (Hw1 & Ho1 & Hout1 & Hres).
    cbn [MultiprocessingDispatcher.handle_messages_loop].
    destruct (result_queue (store (run_procs sched (set_oracle o w)))) as [|x rq];
      [|cbn in Hres; lia].
    eexists. split; [done|]. split; [done|]. rewrite Ho1. cbn. split; lia.
  - destruct (oracle w) as [|sched o] eqn:Ho; [cbn in Hlen; lia|].
    destruct (calm_all_back l v w sched o Hw Ho) as (Hw1 & Ho1 & Hout1 & Hres).
    cbn [MultiprocessingDispatcher.handle_messages_loop].
    destruct (result_queue (store (run_procs sched (set_oracle o w)))) as [|x rq] eqn:Hrq;
      [cbn in Hres; lia|].
    pose proof (calm_take l v 0 _ x rq Hw1 Hrq) as Hw2.
    set (w2 := record _ _) in *.
    assert (oracle w2 = o) as Ho2 by (unfold w2; cbn; exact Ho1).
    destruct (IH w2) as (w' & Hret & Hw' & Hout' & Hlen').
    + by apply (calm_weaken l v 0 4); [lia|].
    + unfold w2. cbn. lia.
    + rewrite Ho2. cbn in Hlen. lia.
    + rewrite Ho2 in Hret, Hlen'. exists w'. split_and!; try done; cbn; lia.
Qed.

Lemma while_fuel_false n cond w :
  cond w = false → MultiprocessingDispatcher.while_fuel n cond w = Ret () w.
Proof. intros Hc. destruct n; cbn; by rewrite Hc. Qed.

(** A loop of the calm dispatcher whose condition fails once nothing is
    outstanding. *)
Lemma calm_while (l : list TileSet) v cond w :
  calm l v 4 w →
  (∀ w0, calm l v 0 w0 → outstanding_jobs w0 = 0 → cond w0 = false) →
  outstanding_jobs w + 1 ≤ Z.of_nat (length (oracle w)) →
  ∃ w', MultiprocessingDispatcher.while cond w = Ret () w'
    ∧ calm l v 4 w'
    ∧ (cond w = false → w' = w)
    ∧ (cond w = true → outstanding_jobs w' = 0
       ∧ Z.of_nat (length (oracle w'))
         = Z.of_nat (length (oracle w)) - outstanding_jobs w - 1).
Proof.
  intros Hw Hcond Hlen. unfold MultiprocessingDispatcher.while.
  cbn [MultiprocessingDispatcher.while_fuel].
  destruct (cond w) eqn:Hc; [|by exists w].
  pose proof (calm_load l v 4 w Hw) as Hpos.
  destruct (calm_handle_messages l v (Z.to_nat (outstanding_jobs w)) w Hw)
    as (w' & Hret & Hw' & Hout' & Hlen'); [lia | lia |].
  exists w'. unfold bind, MultiprocessingDispatcher._handle_messages. rewrite Hret.
  rewrite while_fuel_false by by apply Hcond.
  split_and!; [done | by apply (calm_weaken l v 0 4); [lia|] | done |].
  intros _. split; [done | lia].
Qed.

Lemma calm_dispatch (l : list TileSet) v tileset workitem w :
  calm l v 4 w → tileset ∈ l → is_Some (do_work tileset workitem) → 3 ≤ credit w →
  ∃ w', MultiprocessingDispatcher.dispatch tileset workitem w = Ret () w'
    ∧ calm l v 4 w' ∧ credit w - 3 ≤ credit w'.
Proof.
  intros Hw Hin Hwork Hcredit. unfold credit in *.
  pose proof (calm_load l v 4 w Hw) as Hpos.
  pose proof Hw as (Hlp & Hm & _).
  unfold MultiprocessingDispatcher.dispatch, bind at 1, get_manager. rewrite Hm.
  unfold bind at 1, index. cbn [tilesets tileset_version].
  destruct (list_find _ l) as [[i y]|] eqn:Hfind; last first.
  { apply list_find_None in Hfind. apply list_elem_of_lookup_1 in Hin as [i Hi].
    by destruct (Forall_lookup_1 _ _ _ _ Hfind Hi). }
  apply list_find_Some in Hfind as (Hi & -> & _). cbn [ret].
  destruct (oracle w) as [|sched o] eqn:Ho; [cbn in Hcredit; lia|].
  destruct (calm_yield l v w sched o Hw Ho) as (Hy & Hw1 & Ho1 & Hout1).
  unfold put_job. rewrite bind_assoc. unfold bind at 1. rewrite Hy.
  rewrite !bind_modify.
  assert (doable l v (v, i, workitem)) as Hj.
  { split; [split; [done | by eapply lookup_lt_Some]|].
    unfold img. cbn. by rewrite Hi. }
  pose proof (calm_put l v _ _ Hw1 Hj) as Hw3. set (w3 := record _ _) in *.
  assert (outstanding_jobs w3 = outstanding_jobs w + 1) as Hout3.
  { unfold w3. cbn [outstanding_jobs record set_outstanding_jobs set_store].
    by rewrite Hout1. }
  assert (oracle w3 = o) as Ho3 by exact Ho1.
  assert (local_procs w3 = local_procs w) as Hlp3
    by apply (run_procs_frame first_worker (set_oracle o w)).
  destruct (calm_while l v (λ w, bool_decide (outstanding_jobs w > local_procs w * 10)) w3)
    as (w' & Hret & Hw' & Hf & Ht).
  - by apply (calm_weaken l v 3 4); [lia|].
  - intros w0 (Hlp0 & _) Hout0. apply bool_decide_eq_false. lia.
  - rewrite Hout3, Ho3. cbn in Hcredit. lia.
  - exists w'. split; [done|]. split; [done|]. cbn in Hcredit.
    destruct (bool_decide (outstanding_jobs w3 > local_procs w3 * 10)) eqn:Hc.
    + destruct (Ht eq_refl) as [-> Hlen]. rewrite Hlen, Hout3, Ho3. cbn [length]. lia.
    + rewrite (Hf eq_refl), Hout3, Ho3. cbn [length]. lia.
Qed.

Lemma calm_finish_work (l : list TileSet) v w :
  calm l v 4 w → 1 ≤ credit w →
  ∃ w', MultiprocessingDispatcher.finish_work w = Ret () w'
    ∧ calm l v 4 w' ∧ credit w - 1 ≤ credit w'.
Proof.
  intros Hw Hcredit. unfold credit in *.
  pose proof (calm_load l v 4 w Hw) as Hpos.
  destruct (calm_while l v (λ w, bool_decide (outstanding_jobs w > 0)) w)
    as (w' & Hret & Hw' & Hf & Ht).
  - done.
  - intros w0 _ Hout0. apply bool_decide_eq_false. lia.
  - lia.
  - exists w'. split; [done|]. split; [done|].
    destruct (bool_decide (outstanding_jobs w > 0)) eqn:Hc.
    + destruct (Ht eq_refl) as [-> Hlen]. rewrite Hlen. lia.
    + rewrite (Hf eq_refl). lia.
Qed.

Lemma calm_dispatch_all (l : list TileSet) v (items : list (TileSet * WorkItem)) :
  ∀ w, calm l v 4 w →
  (∀ tileset workitem, (tileset, workitem) ∈ items →
     tileset ∈ l ∧ is_Some (do_work tileset workitem)) →
  3 * Z.of_nat (length items) ≤ credit w →
  ∃ w', for_each items
          (λ '(tileset, workitem), MultiprocessingDispatcher.dispatch tileset workitem) w
        = Ret () w'
    ∧ calm l v 4 w' ∧ credit w - 3 * Z.of_nat (length items) ≤ credit w'.
Proof.
  induction items as [|[tileset workitem] items IH]; intros w Hw Hitems Hcredit.
  - exists w. cbn. split_and!; [done | done | lia].
  - cbn [for_each length] in *.
    destruct (Hitems tileset workitem) as [Hin Hwork]; [by left|].
    destruct (calm_dispatch l v tileset workitem w Hw Hin Hwork) as (w1 & Hd & Hw1 & Hc1);
      [lia|].
    destruct (IH w1 Hw1) as (w' & Hrest & Hw' & Hc').
    + intros ts wi Hts. apply Hitems. by right.
    + lia.
    + exists w'. unfold bind. rewrite Hd. split_and!; [done | done | lia].
Qed.

Lemma calm_phases (l : list TileSet) v (phases : list nat) :
  ∀ w, calm l v 4 w →
  Forall (λ work, is_Some (do_work work.1 work.2)) (concat (map (phase_work l) phases)) →
  3 * Z.of_nat (length (concat (map (phase_work l) phases))) + Z.of_nat (length phases)
    ≤ credit w →
  ∃ w', for_each phases (λ phase,
          note MultiprocessingDispatcher.self (EvPhase phase) ;;
          for_each (roundrobin (work_iterators l (map get_num_phases l) phase))
                   (λ '(tileset, workitem),
                      dispatch MultiprocessingDispatcher.self tileset workitem) ;;
          finish_work MultiprocessingDispatcher.self) w
        = Ret () w'.
Proof.
  cbn [dispatch finish_work note MultiprocessingDispatcher.self].
  induction phases as [|phase phases IH]; intros w Hw Hwork Hcredit; [by exists w|].
  cbn [for_each map concat length] in *. rewrite length_app in Hcredit.
  apply Forall_app in Hwork as [Hwork1 Hwork2].
  rewrite bind_assoc, bind_modify.
  pose proof (calm_record l v 4 w (EvPhase phase) Hw) as Hw0.
  set (w0 := record _ w) in *.
  assert (credit w0 = credit w) as Hc0 by done.
  destruct (calm_dispatch_all l v (phase_work l phase) w0 Hw0) as (w1 & Hd & Hw1 & Hc1).
  { intros tileset workitem Hin. split; [by apply phase_work_elem in Hin as [? _]|].
    apply list_elem_of_lookup_1 in Hin as [k Hk].
    apply (Forall_lookup_1 _ _ _ _ Hwork1 Hk). }
  { lia. }
  destruct (calm_finish_work l v w1 Hw1) as (w2 & Hf & Hw2 & Hc2); [lia|].
  destruct (IH w2 Hw2 Hwork2) as (w' & Hrest); [lia|].
  exists w'. rewrite bind_assoc. unfold bind at 1. unfold phase_work in Hd. rewrite Hd.
  unfold bind at 1. by rewrite Hf.
Qed.

Lemma set_tilesets_uses_two (new : list TileSet) w m sched1 sched2 o :
  manager w = Some m → oracle w = sched1 :: sched2 :: o →
  ∃ w', set_tilesets new w = Ret () w' ∧ oracle w' = o.
Proof.
  intros Hm Hw.
  unfold set_tilesets, bind at 1, get_manager. rewrite Hm. rewrite bind_modify.
  unfold bind at 1, yield at 1. cbn [oracle set_manager]. rewrite Hw.
  rewrite bind_modify. unfold bind at 1, yield at 1. cbn [oracle set_store].
  rewrite run_procs_oracle. cbn [oracle set_oracle]. unfold modify.
  eexists. split; [reflexivity|].
  cbn [oracle set_store]. by rewrite run_procs_oracle.
Qed.

(** The publish, on a disciplined dispatcher whose first worker is the one
    that runs: the dispatcher is calm. *)
Lemma calm_publish (l : list TileSet) w sched1 sched2 o :
  disciplined w → oracle w = sched1 :: sched2 :: o →
  Forall (λ sched, sched = first_worker) o →
  ∃ v w', set_tilesets l w = Ret () w'
    ∧ calm l v 4 w' ∧ outstanding_jobs w' = 0 ∧ oracle w' = o.
Proof.
  intros Hw Ho Hor.
  pose proof (disciplined_at_rest w Hw) as Hrest.
  pose proof Hrest as (Hout & m & Hwk). pose proof Hwk as (_ & Hm & _).
  destruct (set_tilesets_uses_two l w _ sched1 sched2 o Hm Ho) as (w' & Hret & Ho').
  pose proof (set_tilesets_disciplined l _ (trace w) w (conj Hrest (conj Hm eq_refl))) as Ht.
  rewrite Hret in Ht. cbn in Ht.
  destruct Ht as [(Hacc & Hm' & Htd & Hq & Hps & _) Hout'].
  destruct (at_rest_in_flight w' Hacc Hout') as [Hout0 Hfl].
  assert (idle w') as Hidle.
  { apply (idle_ret w (CallSetupTilesets l)); [by apply disciplined_idle | done]. }
  pose proof (reachable_tally w' (reachable_idle w' Hidle)) as Htally.
  assert (pool_open w') as [Hsent Hlen].
  { pose proof (keeps_set_tilesets pool_open pool_open_stable l w) as Hk.
    rewrite Hret in Hk. apply Hk.
    apply (disciplined_stable pool_open w pool_open_stable
             (λ lp cpu, pool_open_init lp cpu) (disciplined_between w Hw)). }
  destruct (idle_within w' Hidle) as [Hlp _].
  unfold tally in Htally. unfold in_flight in Hfl.
  pose proof (count_split (job_queue (store w'))) as Hsplit.
  assert (job_queue (store w') = []) as Hjq by (apply nil_length_inv; lia).
  assert (result_queue (store w') = []) as Hrq by (apply nil_length_inv; lia).
  destruct (lookup_lt_is_Some_2 (procs w') 0 Hlen) as [p Hp].
  assert (MultiprocessingDispatcherProcess.busy p = false) as Hb
    by (apply (count_zero_lookup _ (procs w') 0%nat); [unfold busy_procs in *; lia | done]).
  assert (returned p = false) as Hr
    by (apply (count_zero_lookup _ (procs w') 0%nat);
        [unfold returned_procs in *; lia | done]).
  assert (died p = false) as Hd
    by (apply (count_zero_lookup _ (procs w') 0%nat); [unfold dead_procs in *; lia | done]).
  pose proof (Forall_lookup_1 _ _ _ _ Hps Hp) as Hok.
  exists (tileset_version m + 1), w'. split; [done|].
  split; [|by rewrite Ho'].
  unfold calm, served, load, rank_of, rank. rewrite Hp, Hjq, Hrq, Hb, Ho'. cbn.
  unfold MultiprocessingDispatcherProcess.busy, returned, died, worker_ok, fit in *.
  split_and!; try done.
  - exists p. split; [done|].
    by destruct (MultiprocessingDispatcherProcess.at_pc p).
  - destruct (MultiprocessingDispatcherProcess.at_pc p); lia.
Qed.

Lemma calm_preprocess (l : list TileSet) v (ts : list TileSet) :
  ∀ w, calm l v 4 w →
  ∃ w', for_each ts (λ tileset, note MultiprocessingDispatcher.self (EvPreprocess tileset)) w
        = Ret () w'
    ∧ calm l v 4 w' ∧ credit w' = credit w.
Proof.
  induction ts as [|tileset ts IH]; intros w Hw; [by exists w|].
  cbn [for_each note MultiprocessingDispatcher.self]. rewrite bind_modify.
  destruct (IH (record (EvPreprocess tileset) w)) as (w' & Hret & Hw' & Hc); [done|].
  by exists w'.
Qed.

(** [render_all] of the calm dispatcher goes through. *)
Lemma render_all_goes_through (tilesetlist : list TileSet) w n :
  disciplined w → tilesetlist ≠ [] →
  Forall (λ work, is_Some (do_work work.1 work.2)) (all_work tilesetlist) →
  oracle w = replicate n first_worker →
  (2 + 3 * length (all_work tilesetlist) + Z.to_nat (max_phases tilesetlist) ≤ n)%nat →
  ∃ w', render_all MultiprocessingDispatcher.self tilesetlist w = Ret () w'.
Proof.
  intros Hw Hne Hwork Ho Hn.
  destruct n as [|[|n]]; [lia | lia |]. cbn [replicate] in Ho.
  destruct (calm_publish tilesetlist w _ _ _ Hw Ho) as (v & w1 & Hpub & Hw1 & Hout1 & Ho1).
  { by apply Forall_replicate. }
  destruct (calm_preprocess tilesetlist v tilesetlist w1 Hw1) as (w2 & Hpre & Hw2 & Hc2).
  assert (credit w1 = Z.of_nat n) as Hc1.
  { unfold credit. rewrite Ho1, Hout1, length_replicate. lia. }
  destruct (calm_phases tilesetlist v (xrange (max_phases tilesetlist)) w2 Hw2 Hwork)
    as (w' & Hret).
  { fold (all_work tilesetlist). unfold xrange. rewrite length_seq. lia. }
  exists w'. unfold render_all. cbn [setup_tilesets MultiprocessingDispatcher.self].
  unfold MultiprocessingDispatcher.setup_tilesets, bind at 1. rewrite Hpub.
  unfold bind at 1. rewrite Hpre.
  assert (@py_max World (map get_num_phases tilesetlist) = ret (max_phases tilesetlist))
    as -> by (unfold max_phases; by destruct tilesetlist).
  unfold bind at 1, ret. exact Hret.
Qed.

(** X19. [render_all] returns when one worker keeps up. On a dispatcher
    that is only used through [render_all], for a list of tilesets that is
    not empty and whose work items can all be done, when at every
    scheduling point the first worker takes four steps and there are two
    scheduling points for the publish, three for every work item and one
    for every phase, [render_all] returns. *)
Theorem render_all_returns (tilesetlist : list TileSet) w n :
  disciplined w → tilesetlist ≠ [] →
  Forall (λ work, is_Some (do_work work.1 work.2)) (all_work tilesetlist) →
  oracle w = replicate n first_worker →
  (2 + 3 * length (all_work tilesetlist) + Z.to_nat (max_phases tilesetlist) ≤ n)%nat →
  ∃ w', render_all MultiprocessingDispatcher.self tilesetlist w = Ret () w'.
Proof. apply render_all_goes_through. Qed.

(** ** The two dispatchers *)

(** The lists the dispatcher of one process renders: the lists that are
    not empty and whose work items can all be done. *)
Lemma base_returns_iff (tilesetlist : list TileSet) (h : list event) :
  (∃ h', render_all Dispatcher_base tilesetlist h = Ret () h')
  ↔ tilesetlist ≠ []
    ∧ Forall (λ work, is_Some (do_work work.1 work.2)) (all_work tilesetlist).
Proof.
  rewrite render_all_base_eq. unfold render_all_base, all_work.
  destruct tilesetlist as [|tileset0 tilesetlist]; [split; [by intros [? ?] | by intros [? _]]|].
  set (l := tileset0 :: tilesetlist). generalize (xrange (max_phases l)). intros phases.
  assert (∀ phase, phase_ok l phase ≠ false
            ↔ Forall (λ work, is_Some (do_work work.1 work.2)) (phase_work l phase))
    as Hphase.
  { intros phase. unfold phase_ok. generalize (phase_work l phase). intros ws.
    induction ws as [|work ws IHws]; [done|].
    cbn [forallb]. rewrite Forall_cons_iff, <- IHws. unfold work_ok.
    destruct (do_work work.1 work.2) as [r|]; cbn.
    - split; [by intros ?; split; [eexists|] | by intros [_ ?]].
    - split; [done | by intros [[? ?] _]]. }
  assert (Forall (λ phase, phase_ok l phase ≠ false) phases
          ↔ Forall (λ work, is_Some (do_work work.1 work.2))
              (concat (map (phase_work l) phases))) as Hall.
  { induction phases as [|phase phases IH]; [done|].
    cbn [map concat]. by rewrite Forall_cons_iff, Forall_app, IH, Hphase. }
  assert (list_find (λ phase, phase_ok l phase = false) phases = None
          ↔ Forall (λ work, is_Some (do_work work.1 work.2))
              (concat (map (phase_work l) phases))) as Hfind.
  { rewrite <- Hall. apply list_find_None. }
  destruct (list_find _ phases) as [[i phase]|] eqn:Hf.
  - split; [by intros [? ?]|]. intros [_ Hw]. apply Hfind in Hw. done.
  - split; [|by eexists]. intros _. split; [done|]. by apply Hfind.
Qed.

(** X20. The two dispatchers render the same lists. On a dispatcher
    that is only used through [render_all], under the interleaving in which
    the first worker takes four steps at every scheduling point, and with
    two scheduling points for the publish, three for every work item and one
    for every phase: [render_all] of the pooled dispatcher returns exactly
    when [render_all] of the class [Dispatcher] itself, which does the work
    on the spot, returns on the same list. *)
Theorem dispatchers_agree (tilesetlist : list TileSet) w n (h : list event) :
  disciplined w →
  oracle w = replicate n first_worker →
  (2 + 3 * length (all_work tilesetlist) + Z.to_nat (max_phases tilesetlist) ≤ n)%nat →
  (∃ w', render_all MultiprocessingDispatcher.self tilesetlist w = Ret () w')
  ↔ (∃ h', render_all Dispatcher_base tilesetlist h = Ret () h').
Proof.
  intros Hw Ho Hn. rewrite base_returns_iff. split.
  - intros [w' Hr]. split.
    + intros ->. unfold render_all in Hr.
      apply bind_ret_inv in Hr as ([] & w1 & _ & Hr). cbn in Hr. done.
    + by destruct (render_all_drains_work tilesetlist w w' Hw Hr) as (t & _ & _ & Hall).
  - intros [Hne Hall]. by apply (render_all_goes_through tilesetlist w n).
Qed.
End MoreProofs.

(** ** More of the dispatcher, on the concrete tilesets *)



Lemma use_after_close_witness :
  MultiprocessingDispatcher.close (set_oracle (Example.eager 2) Example.fresh)
  = Ret () (final Example.closing)
  ∧ (∀ tileset workitem,
       MultiprocessingDispatcher.dispatch tileset workitem (final Example.closing)
       = Raise AttributeError (final Example.closing))
  ∧ (∀ tilesets,
       MultiprocessingDispatcher.setup_tilesets tilesets (final Example.closing)
       = Raise AttributeError (final Example.closing))
  ∧ (∀ tilesetlist,
       render_all MultiprocessingDispatcher.self tilesetlist (final Example.closing)
       = Raise AttributeError (final Example.closing))
  ∧ MultiprocessingDispatcher.close (final Example.closing)
    = Raise TypeError (final Example.closing).
Proof.
  assert (MultiprocessingDispatcher.close (set_oracle (Example.eager 2) Example.fresh)
          = Ret () (final Example.closing)) as H by (vm_compute; reflexivity).
  split; [exact H | exact (use_after_close _ _ H)].
Defined.

Lemma publish_stores_next_version_witness :
  set_tilesets [Example.A] Example.racing = Ret () (final Scenario.published)
  ∧ ∃ m, manager Example.racing = Some m
      ∧ manager (final Scenario.published)
        = Some {| tilesets := [Example.A]; tileset_version := tileset_version m + 1 |}
      ∧ tileset_data (store (final Scenario.published))
        = ([Example.A], tileset_version m + 1)
      ∧ trace (final Scenario.published) = trace Example.racing
      ∧ outstanding_jobs (final Scenario.published) = outstanding_jobs Example.racing.
Proof.
  assert (set_tilesets [Example.A] Example.racing = Ret () (final Scenario.published)) as H
    by (vm_compute; reflexivity).
  split; [exact H | exact (publish_stores_next_version _ _ _ H)].
Defined.


Lemma render_all_dispatch_order_witness :
  render_all MultiprocessingDispatcher.self [Example.A; Example.B] Example.start
  = Ret () (final Example.rendered)
  ∧ ∃ m, manager Example.start = Some m
      ∧ jobs_of (trace (final Example.rendered))
        = jobs_of (trace Example.start)
          ++ all_jobs (tileset_version m + 1) [Example.A; Example.B]
      ∧ ∀ tv ti workitem,
          (tv, ti, workitem) ∈ all_jobs (tileset_version m + 1) [Example.A; Example.B] →
          tv = tileset_version m + 1
          ∧ ∃ tileset phase,
              [Example.A; Example.B] !! ti = Some tileset
              ∧ Z.of_nat phase < get_num_phases tileset
              ∧ workitem ∈ iterate_work_items tileset phase.
Proof.
  assert (render_all MultiprocessingDispatcher.self [Example.A; Example.B] Example.start
          = Ret () (final Example.rendered)) as H by (vm_compute; reflexivity).
  split; [exact H | exact (render_all_dispatch_order _ _ _ H)].
Defined.

Lemma render_all_raises_only_on_empty_witness :
  manager (set_oracle (Example.eager 3) Example.fresh)
  = Some {| tilesets := []; tileset_version := 0 |}
  ∧ render_all MultiprocessingDispatcher.self []
      (set_oracle (Example.eager 3) Example.fresh)
    = Raise ValueError (final Scenario.nothing)
  ∧ ([] : list Example.tileset) = [] ∧ ValueError = ValueError.
Proof.
  assert (render_all MultiprocessingDispatcher.self []
            (set_oracle (Example.eager 3) Example.fresh)
          = Raise ValueError (final Scenario.nothing)) as H by (vm_compute; reflexivity).
  assert (manager (set_oracle (Example.eager 3) Example.fresh)
          = Some {| tilesets := []; tileset_version := 0 |}) as Hm by reflexivity.
  split; [exact Hm|]. split; [exact H|].
  exact (render_all_raises_only_on_empty [] _ _ _ _ Hm H).
Defined.

Lemma worker_does_job_witness :
  run_steps 3 (Scenario.polling, Scenario.one_job)
  = ({| MultiprocessingDispatcherProcess.tilesets := [Example.A];
        MultiprocessingDispatcherProcess.tileset_version := 1;
        MultiprocessingDispatcherProcess.at_pc := MultiprocessingDispatcherProcess.Polling |},
     set_result_queue (λ rq, rq ++ [105%nat]) (set_job_queue (λ _, []) Scenario.one_job)).
Proof.
  assert (MultiprocessingDispatcherProcess.tileset_version Scenario.polling = 1 →
          MultiprocessingDispatcherProcess.tilesets Scenario.polling = [Example.A]) as Hc
    by discriminate.
  exact (worker_does_job Scenario.polling Scenario.one_job 1 0%nat 5%nat [] [Example.A]
           Example.A 105%nat eq_refl eq_refl eq_refl Hc eq_refl eq_refl).
Defined.


(** The run of the example starts from a dispatcher that is only used
    through [render_all]. *)
Lemma disciplined_start : disciplined Example.start.
Proof. apply disciplined_oracle. apply (disciplined_init 2 1). lia. Qed.

Lemma disciplined_rests_witness :
  disciplined (final Example.rendered)
  ∧ outstanding_jobs (final Example.rendered) = 0
  ∧ job_queue (store (final Example.rendered)) = []
  ∧ result_queue (store (final Example.rendered)) = []
  ∧ Forall (λ p, MultiprocessingDispatcherProcess.at_pc p
                   = MultiprocessingDispatcherProcess.Starting
                 ∨ MultiprocessingDispatcherProcess.at_pc p
                   = MultiprocessingDispatcherProcess.Polling)
      (procs (final Example.rendered))
  ∧ ∃ m, manager (final Example.rendered) = Some m
      ∧ tileset_data (store (final Example.rendered)) = (tilesets m, tileset_version m).
Proof.
  assert (render_all MultiprocessingDispatcher.self [Example.A; Example.B] Example.start
          = Ret () (final Example.rendered)) as Hr by (vm_compute; reflexivity).
  assert (disciplined (final Example.rendered)) as H
    by exact (disciplined_ret _ _ _ disciplined_start Hr).
  split; [exact H | exact (disciplined_rests _ H)].
Defined.

Lemma disciplined_workers_sound_witness :
  disciplined_point (final Scenario.midway)
  ∧ procs (final Scenario.midway) !! 0%nat
    = Some {| MultiprocessingDispatcherProcess.tilesets := [Example.A; Example.B];
              MultiprocessingDispatcherProcess.tileset_version := 1;
              MultiprocessingDispatcherProcess.at_pc :=
                MultiprocessingDispatcherProcess.Working (1, 0%nat, 1%nat) |}
  ∧ (∀ e, MultiprocessingDispatcherProcess.Working (1, 0%nat, 1%nat)
          = MultiprocessingDispatcherProcess.Died e → e = WorkError)
  ∧ (∀ tv ti workitem,
       MultiprocessingDispatcherProcess.Working (1, 0%nat, 1%nat)
       = MultiprocessingDispatcherProcess.Working (tv, ti, workitem) →
       ∃ m, manager (final Scenario.midway) = Some m
         ∧ ([Example.A; Example.B], 1) = (tilesets m, tileset_version m)
         ∧ tv = tileset_version m
         ∧ is_Some (tilesets m !! ti)).
Proof.
  assert (disciplined_point (final Scenario.midway)) as H.
  { apply (disciplined_in (set_oracle [[]; []; [0]; [0; 0]]%nat Example.fresh)
             [Example.A; Example.B]).
    apply disciplined_oracle. apply (disciplined_init 2 1). lia. }
  assert (procs (final Scenario.midway) !! 0%nat
          = Some {| MultiprocessingDispatcherProcess.tilesets := [Example.A; Example.B];
                    MultiprocessingDispatcherProcess.tileset_version := 1;
                    MultiprocessingDispatcherProcess.at_pc :=
                      MultiprocessingDispatcherProcess.Working (1, 0%nat, 1%nat) |}) as Hp
    by (vm_compute; reflexivity).
  split; [exact H|]. split; [exact Hp|].
  exact (disciplined_workers_sound _ 0%nat _ H Hp).
Defined.

Lemma render_all_does_all_work_witness :
  disciplined Example.start
  ∧ render_all MultiprocessingDispatcher.self [Example.A; Example.B] Example.start
    = Ret () (final Example.rendered)
  ∧ ∃ t, trace (final Example.rendered) = trace Example.start ++ t
      ∧ Some <$> results_of t
        ≡ₚ (λ work, do_work work.1 work.2) <$> all_work [Example.A; Example.B]
      ∧ Forall (λ work, is_Some (do_work work.1 work.2))
          (all_work [Example.A; Example.B]).
Proof.
  assert (render_all MultiprocessingDispatcher.self [Example.A; Example.B] Example.start
          = Ret () (final Example.rendered)) as Hr by (vm_compute; reflexivity).
  split; [exact disciplined_start|]. split; [exact Hr|].
  exact (render_all_does_all_work _ _ _ disciplined_start Hr).
Defined.

Lemma versions_in_order_witness :
  reachable (final Example.rendered)
  ∧ (idle (final Example.rendered) → in_step (final Example.rendered))
  ∧ publish_lag (final Example.rendered)
  ∧ (∀ j, Some j ∈ job_queue (store (final Example.rendered)) →
          stamp j ≤ stored_version (final Example.rendered))
  ∧ (∀ i p, procs (final Example.rendered) !! i = Some p →
       MultiprocessingDispatcherProcess.at_pc p ≠ MultiprocessingDispatcherProcess.Starting →
       MultiprocessingDispatcherProcess.tileset_version p
       ≤ stored_version (final Example.rendered)
       ∧ ∀ j, j ∈ held p → stamp j ≤ stored_version (final Example.rendered)).
Proof.
  assert (reachable (final Example.rendered)) as H.
  { apply (reachable_in Example.start (CallRenderAll [Example.A; Example.B])).
    apply idle_start. }
  split; [exact H | exact (versions_in_order _ H)].
Defined.

(** The states of the job that goes out of date are states between
    calls. *)
Lemma idle_outdated : idle Scenario.outdated.
Proof.
  assert (idle Scenario.started) as H0.
  { apply idle_oracle, idle_workers. apply (idle_init 1 1). lia. }
  assert (idle Scenario.first_publish) as H1.
  { apply (idle_ret Scenario.started (CallSetupTilesets [Example.A])); [done|].
    vm_compute. reflexivity. }
  assert (idle Scenario.one_dispatched) as H2.
  { apply (idle_ret Scenario.first_publish (CallDispatch Example.A 1%nat)); [done|].
    vm_compute. reflexivity. }
  assert (idle Scenario.pulled) as H3 by (by apply idle_oracle, idle_workers).
  apply (idle_ret Scenario.pulled (CallSetupTilesets [Example.A])); [done|].
  vm_compute. reflexivity.
Qed.


Lemma outstanding_bounded_witness :
  reachable Scenario.outdated
  ∧ 0 ≤ outstanding_jobs Scenario.outdated ≤ local_procs Scenario.outdated * 10 + 1
  ∧ Z.of_nat (in_flight Scenario.outdated) ≤ local_procs Scenario.outdated * 10 + 1
  ∧ (idle Scenario.outdated →
     outstanding_jobs Scenario.outdated ≤ local_procs Scenario.outdated * 10).
Proof.
  assert (reachable Scenario.outdated) as H by exact (reachable_idle _ idle_outdated).
  split; [exact H | exact (outstanding_bounded _ H)].
Defined.




Lemma render_all_returns_witness :
  disciplined Scenario.keeping_up
  ∧ [Example.A; Example.B] ≠ []
  ∧ Forall (λ work, is_Some (do_work work.1 work.2)) (all_work [Example.A; Example.B])
  ∧ (2 + 3 * length (all_work [Example.A; Example.B])
     + Z.to_nat (max_phases [Example.A; Example.B]) ≤ 16)%nat
  ∧ ∃ w', render_all MultiprocessingDispatcher.self [Example.A; Example.B]
            Scenario.keeping_up = Ret () w'.
Proof.
  assert (disciplined Scenario.keeping_up) as H.
  { apply disciplined_oracle. apply (disciplined_init 2 1). lia. }
  assert ([Example.A; Example.B] ≠ []) as Hne by discriminate.
  assert (Forall (λ work, is_Some (do_work work.1 work.2))
            (all_work [Example.A; Example.B])) as Hwork.
  { vm_compute. repeat constructor; by eexists. }
  assert (2 + 3 * length (all_work [Example.A; Example.B])
          + Z.to_nat (max_phases [Example.A; Example.B]) ≤ 16)%nat as Hn
    by (vm_compute; lia).
  split; [exact H|]. split; [exact Hne|]. split; [exact Hwork|]. split; [exact Hn|].
  exact (render_all_returns [Example.A; Example.B] Scenario.keeping_up 16 H Hne Hwork
           eq_refl Hn).
Defined.

Lemma dispatchers_agree_witness :
  disciplined Scenario.keeping_up
  ∧ (2 + 3 * length (all_work [Example.A; Example.B])
     + Z.to_nat (max_phases [Example.A; Example.B]) ≤ 16)%nat
  ∧ ((∃ w', render_all MultiprocessingDispatcher.self [Example.A; Example.B]
              Scenario.keeping_up = Ret () w')
     ↔ (∃ h', render_all Dispatcher_base [Example.A; Example.B] [] = Ret () h')).
Proof.
  assert (disciplined Scenario.keeping_up) as H.
  { apply disciplined_oracle. apply (disciplined_init 2 1). lia. }
  assert (2 + 3 * length (all_work [Example.A; Example.B])
          + Z.to_nat (max_phases [Example.A; Example.B]) ≤ 16)%nat as Hn
    by (vm_compute; lia).
  split; [exact H|]. split; [exact Hn|].
  exact (dispatchers_agree [Example.A; Example.B] Scenario.keeping_up 16 [] H eq_refl Hn).
Defined.
